(** * bincalc: a binary calculator for fixed-width encodings

    A shallow embedding of [bincalc.cpp]: the operator table, the literal
    lexer ([parse_value] and the libc conversions it drives), the typed
    evaluator ([evaluate_operator]) and the precedence-climbing parser
    ([compute_expression], [compute_value]), followed by the properties
    the specification states about them.

    Conventions of the embedding.
    - The input line is a [list ascii]; the byte read at an offset past
      its end is the terminating NUL ([peek]).
    - The [char *& cursor] is an offset into the line.  It is part of the
      machine state, because the exception handler of [handle_input] reads
      it after a [throw].
    - [errno] is a global that only ever gets compared with [ERANGE]; the
      state keeps the boolean [errno == ERANGE].
    - A call of [printf] appends a record of the call to [stdout], a call
      of [fprintf(stderr, ...)] to [stderr].  What the calls write into the
      static buffers of [format_dec] and [format_hex], and the text that
      comes out, is derived from the records ([buffered]).
    - [INVALID_ENCODING] and [INVALID_OP] (both [-1] in the enums) are
      [None] in an [option]. *)

From Stdlib Require Import ZArith List Ascii String Bool Lia Arith.
From Stdlib Require Import DecimalString.
From Stdlib Require DecimalPos DecimalFacts.
From Stdlib Require Import Permutation.
From Stdlib Require Import SpecFloat.
Import ListNotations.

Local Open Scope Z_scope.

(** ** Characters and C strings *)

Definition NUL : ascii := "000"%char.

Definition code (c : ascii) : Z := Z.of_N (N_of_ascii c).

(** [<ctype.h>] in the "C" locale. *)
Definition isspace (c : ascii) : bool :=
  (code c =? 32) || ((9 <=? code c) && (code c <=? 13)).

Definition isdigit (c : ascii) : bool :=
  (48 <=? code c) && (code c <=? 57).

Definition isxdigit (c : ascii) : bool :=
  isdigit c
  || ((97 <=? code c) && (code c <=? 102))
  || ((65 <=? code c) && (code c <=? 70)).

Definition isalpha (c : ascii) : bool :=
  ((97 <=? code c) && (code c <=? 122))
  || ((65 <=? code c) && (code c <=? 90)).

Definition tolower (c : ascii) : ascii :=
  if (65 <=? code c) && (code c <=? 90)
  then ascii_of_N (Z.to_N (code c + 32)) else c.

(** The text a [char *] points at: the bytes from [p] on.  Reading the head
    of an exhausted list reads the terminating NUL. *)
Definition text_at (input : list ascii) (p : nat) : list ascii := skipn p input.

Definition peek (s : list ascii) : ascii := hd NUL s.

(** Number of leading characters of [s] that satisfy [p]: the distance a
    loop that advances the cursor while [p] holds of the character under
    it travels. *)
Fixpoint span_len (p : ascii -> bool) (s : list ascii) : nat :=
  match s with
  | c :: t => if p c then S (span_len p t) else O
  | [] => O
  end.

Definition strlen (s : list ascii) : nat :=
  span_len (fun c => negb (Ascii.eqb c NUL)) s.

(** [strncmp(s1, s2, n) == 0]. *)
Fixpoint strncmp_eq (s1 s2 : list ascii) (n : nat) : bool :=
  match n with
  | O => true
  | S n' =>
      if Ascii.eqb (peek s1) (peek s2)
      then (if Ascii.eqb (peek s1) NUL then true
            else strncmp_eq (tl s1) (tl s2) n')
      else false
  end.

(** ** Encodings and values *)

Inductive encoding_t : Type :=
  | S8 | S16 | S32 | S64
  | U8 | U16 | U32 | U64
  | F32 | F64.

Definition encoding_eqb (a b : encoding_t) : bool :=
  match a, b with
  | S8, S8 | S16, S16 | S32, S32 | S64, S64
  | U8, U8 | U16, U16 | U32, U32 | U64, U64
  | F32, F32 | F64, F64 => true
  | _, _ => false
  end.

(** The tagged union.  [payload] is the raw content of the 8-byte union;
    a member of [w] bits is its low [w] bits (the members overlap at
    offset 0, little endian).  [encoding = None] is [INVALID_ENCODING]. *)
Record encoded_value : Type := mk_value {
  encoding : option encoding_t;
  payload : Z
}.

Definition INVALID_VALUE : encoded_value := mk_value None 0.

Definition width (e : encoding_t) : Z :=
  match e with
  | S8 | U8 => 8
  | S16 | U16 => 16
  | S32 | U32 | F32 => 32
  | S64 | U64 | F64 => 64
  end.

Definition is_signed (e : encoding_t) : bool :=
  match e with
  | S8 | S16 | S32 | S64 => true
  | _ => false
  end.

Definition is_integer (e : encoding_t) : bool :=
  match e with
  | F32 | F64 => false
  | _ => true
  end.

(** Reading and writing a [w]-bit member of the union. *)
Definition read_unsigned (w : Z) (raw : Z) : Z := raw mod 2 ^ w.

Definition read_signed (w : Z) (raw : Z) : Z :=
  let u := raw mod 2 ^ w in
  if u <? 2 ^ (w - 1) then u else u - 2 ^ w.

Definition read_int (signed : bool) (w : Z) (raw : Z) : Z :=
  if signed then read_signed w raw else read_unsigned w raw.

(** Conversion of an integer to a [w]-bit integer type keeps it modulo
    [2^w]; the result is stored as the bit pattern. *)
Definition to_bits (w : Z) (z : Z) : Z := z mod 2 ^ w.

(** ** Operators *)

Inductive operator_t : Type :=
  | OPEN_PAREN
  | NOT
  | NEGATE
  | MULTIPLY
  | DIVIDE
  | MODULUS
  | ADD
  | SUBTRACT
  | LEFT_SHIFT
  | RIGHT_SHIFT
  | AND
  | XOR
  | OR
  | CLOSE_PAREN
  | END_EXPRESSION.

Inductive arity_t : Type := UNARY | BINARY | SENTINEL.

Definition operator_eqb (a b : operator_t) : bool :=
  match a, b with
  | OPEN_PAREN, OPEN_PAREN | NOT, NOT | NEGATE, NEGATE
  | MULTIPLY, MULTIPLY | DIVIDE, DIVIDE | MODULUS, MODULUS
  | ADD, ADD | SUBTRACT, SUBTRACT
  | LEFT_SHIFT, LEFT_SHIFT | RIGHT_SHIFT, RIGHT_SHIFT
  | AND, AND | XOR, XOR | OR, OR
  | CLOSE_PAREN, CLOSE_PAREN | END_EXPRESSION, END_EXPRESSION => true
  | _, _ => false
  end.

Definition arity_eqb (a b : arity_t) : bool :=
  match a, b with
  | UNARY, UNARY | BINARY, BINARY | SENTINEL, SENTINEL => true
  | _, _ => false
  end.

Record operator_entry : Type := mk_entry {
  precedence : Z;
  arity : arity_t;
  identifier : list ascii
}.

Definition cstr (s : string) : list ascii := list_ascii_of_string s.

(** [operator_table[op]].  The last identifier is the literal ["\0"]: its
    first byte is NUL, so its [strlen] is 0. *)
Definition operator_table (op : operator_t) : operator_entry :=
  match op with
  | OPEN_PAREN     => mk_entry 8 UNARY (cstr "(")
  | NOT            => mk_entry 7 UNARY (cstr "~")
  | NEGATE         => mk_entry 7 UNARY (cstr "-")
  | MULTIPLY       => mk_entry 6 BINARY (cstr "*")
  | DIVIDE         => mk_entry 6 BINARY (cstr "/")
  | MODULUS        => mk_entry 6 BINARY (cstr "%")
  | ADD            => mk_entry 5 BINARY (cstr "+")
  | SUBTRACT       => mk_entry 5 BINARY (cstr "-")
  | LEFT_SHIFT     => mk_entry 4 BINARY (cstr "<<")
  | RIGHT_SHIFT    => mk_entry 4 BINARY (cstr ">>")
  | AND            => mk_entry 3 BINARY (cstr "&")
  | XOR            => mk_entry 2 BINARY (cstr "^")
  | OR             => mk_entry 1 BINARY (cstr "|")
  | CLOSE_PAREN    => mk_entry 0 SENTINEL (cstr ")")
  | END_EXPRESSION => mk_entry 0 SENTINEL [NUL]
  end.

(** The values [0 .. NUM_OPS-1] of the enum, in order. *)
Definition all_operators : list operator_t :=
  [ OPEN_PAREN; NOT; NEGATE; MULTIPLY; DIVIDE; MODULUS; ADD; SUBTRACT;
    LEFT_SHIFT; RIGHT_SHIFT; AND; XOR; OR; CLOSE_PAREN; END_EXPRESSION ].

(** ** Machine state, exceptions and the evaluation monad *)

Inductive exception : Type :=
  | parse_error
  | range_error.

Definition what (e : exception) : string :=
  match e with
  | parse_error => "Parse error"
  | range_error => "Value out of range"
  end.

(** The calls of [printf]/[fprintf] a run makes.  A trace line and the
    result line record the values handed to [format_dec]/[format_hex]; what
    the call does with them, static buffers included, is [buffered.printf]
    below. *)
Inductive output : Type :=
  | TraceUnary (op : operator_t) (value result : encoded_value)
  | TraceBinary (op : operator_t) (left right result : encoded_value)
  | ResultLine (result : encoded_value)
  | Caret (column : nat) (message : string)
  | Diagnostic (message : string).

(** The state the lexer works on: the cursor and [errno]. *)
Record lexer_state : Type := mk_lexer {
  cursor : nat;
  errno_ERANGE : bool
}.

Definition set_cursor (s : lexer_state) (c : nat) : lexer_state :=
  mk_lexer c (errno_ERANGE s).

Definition set_errno (s : lexer_state) (b : bool) : lexer_state :=
  mk_lexer (cursor s) b.

(** The whole state: the lexer's, and what has been printed. *)
Record machine : Type := mk_machine {
  lexer : lexer_state;
  stdout : list output;
  stderr : list output
}.

Definition set_lexer (m : machine) (s : lexer_state) : machine :=
  mk_machine s (stdout m) (stderr m).

Definition print_stdout (m : machine) (o : output) : machine :=
  mk_machine (lexer m) (stdout m ++ [o]) (stderr m).

Definition print_stderr (m : machine) (o : output) : machine :=
  mk_machine (lexer m) (stdout m) (stderr m ++ [o]).

(** A call either returns, throws, has no defined behaviour in C++
    ([Undefined]: division by zero, an unrepresentable quotient, a shift
    count out of range), or, in the fuelled parser, runs out of fuel.  A
    thrown exception carries the state at the [throw]: the handler in
    [handle_input] reads the cursor. *)
Inductive outcome (S A : Type) : Type :=
  | Return (a : A) (s : S)
  | Throw (e : exception) (s : S)
  | Undefined
  | NoFuel.

Arguments Return {S A} a s.
Arguments Throw {S A} e s.
Arguments Undefined {S A}.
Arguments NoFuel {S A}.

Definition M (S A : Type) : Type := S -> outcome S A.

Definition ret {S A} (a : A) : M S A := fun s => Return a s.

Definition bind {S A B} (c : M S A) (k : A -> M S B) : M S B :=
  fun s =>
    match c s with
    | Return a s' => k a s'
    | Throw e s' => Throw e s'
    | Undefined => Undefined
    | NoFuel => NoFuel
    end.

Definition throw {S A} (e : exception) : M S A := fun s => Throw e s.

(** A lexer call made from the parser. *)
Definition lift {A} (c : M lexer_state A) : M machine A :=
  fun m =>
    match c (lexer m) with
    | Return a s => Return a (set_lexer m s)
    | Throw e s => Throw e (set_lexer m s)
    | Undefined => Undefined
    | NoFuel => NoFuel
    end.

Declare Scope calc_scope.
Delimit Scope calc_scope with calc.
Notation "x <- c ;; k" := (bind c (fun x => k))
  (at level 61, c at next level, right associativity) : calc_scope.
Notation "c ;;; k" := (bind c (fun _ => k))
  (at level 61, right associativity) : calc_scope.

Local Open Scope calc_scope.

(** ** IEEE 754 binary formats

    [float] is binary32 and [double] is binary64.  A value lives in the
    union as its bit pattern; arithmetic decodes the operands, applies the
    correctly rounded operation of [SpecFloat] and encodes the result.
    A NaN result is delivered as the quiet NaN with a clear sign and an
    empty payload (IEEE 754 leaves sign and payload to the processor). *)

Module ieee.
Section Format.

(** [prec] is the precision (24 or 53), [emax] the exponent bound (128
    or 1024), [w] the width of the format in bits (32 or 64). *)
Variables prec emax w : Z.

Definition exponent_bits : Z := w - prec.
Definition fraction_bits : Z := prec - 1.
Definition exponent_all_ones : Z := 2 ^ exponent_bits - 1.

Definition decode (raw : Z) : spec_float :=
  let bits := raw mod 2 ^ w in
  let s := Z.testbit bits (w - 1) in
  let biased := (bits / 2 ^ fraction_bits) mod 2 ^ exponent_bits in
  let fraction := bits mod 2 ^ fraction_bits in
  if biased =? 0 then
    match fraction with
    | Zpos m => S754_finite s m (emin prec emax)
    | _ => S754_zero s
    end
  else if biased =? exponent_all_ones then
    if fraction =? 0 then S754_infinity s else S754_nan
  else
    match fraction + 2 ^ fraction_bits with
    | Zpos m => S754_finite s m (biased - 1 + emin prec emax)
    | _ => S754_nan
    end.

Definition sign_bit (s : bool) : Z := if s then 2 ^ (w - 1) else 0.

Definition encode (x : spec_float) : Z :=
  match x with
  | S754_zero s => sign_bit s
  | S754_infinity s => sign_bit s + exponent_all_ones * 2 ^ fraction_bits
  | S754_nan =>
      exponent_all_ones * 2 ^ fraction_bits + 2 ^ (fraction_bits - 1)
  | S754_finite s m e =>
      if Zpos m <? 2 ^ fraction_bits
      then sign_bit s + Zpos m
      else sign_bit s
           + (e - emin prec emax + 1) * 2 ^ fraction_bits
           + (Zpos m - 2 ^ fraction_bits)
  end.

(** Negation flips the sign bit, of a NaN too. *)
Definition neg (raw : Z) : Z := Z.lxor (raw mod 2 ^ w) (2 ^ (w - 1)).

Definition add (a b : Z) : Z := encode (SFadd prec emax (decode a) (decode b)).
Definition sub (a b : Z) : Z := encode (SFsub prec emax (decode a) (decode b)).
Definition mul (a b : Z) : Z := encode (SFmul prec emax (decode a) (decode b)).
Definition div (a b : Z) : Z := encode (SFdiv prec emax (decode a) (decode b)).

(** Correctly rounded value of [(-1)^s * m * 10^e10], [m >= 0]. *)
Definition of_decimal (s : bool) (m : Z) (e10 : Z) : spec_float :=
  match m with
  | Zpos p =>
      if 0 <=? e10
      then binary_normalize prec emax
             (cond_Zopp s (Zpos p * 10 ^ e10)) 0 s
      else
        let '(q, e, l) :=
          SFdiv_core_binary prec emax (Zpos p) 0 (10 ^ (- e10)) 0 in
        binary_round_aux prec emax s q e l
  | _ => S754_zero s
  end.

(** Correctly rounded value of [(-1)^s * m * 2^e2], [m >= 0]. *)
Definition of_binary (s : bool) (m : Z) (e2 : Z) : spec_float :=
  binary_normalize prec emax (cond_Zopp s m) e2 s.

Definition is_infinite (x : spec_float) : bool :=
  match x with S754_infinity _ => true | _ => false end.

(** Zero or subnormal. *)
Definition is_tiny (x : spec_float) : bool :=
  match x with
  | S754_zero _ => true
  | S754_finite _ m _ => Zpos (digits2_pos m) <? prec
  | _ => false
  end.

(** [x] is exactly [num / den * 2^e2], for [num >= 0] and [den > 0]. *)
Definition is_exactly (x : spec_float) (num den e2 : Z) : bool :=
  match x with
  | S754_zero _ => num =? 0
  | S754_finite _ m e =>
      let low := Z.min e e2 in
      Zpos m * den * 2 ^ (e - low) =? num * 2 ^ (e2 - low)
  | _ => false
  end.

End Format.
End ieee.

(** ** The C library: integer conversions

    [strtoll] and [strtoull] in base 10, as ISO C specifies them: optional
    white space, an optional sign, then decimal digits.  Each returns the
    value, the number of characters consumed (0 when no digits were found:
    [endptr] is then the start), and whether it sets [errno] to [ERANGE]. *)

Module libc.

Definition LLONG_MIN : Z := - 2 ^ 63.
Definition LLONG_MAX : Z := 2 ^ 63 - 1.
Definition ULLONG_MAX : Z := 2 ^ 64 - 1.

Definition digit_value (c : ascii) : Z := code c - 48.

(** Value of the leading decimal digits of [s], continuing from [acc]. *)
Fixpoint accumulate_decimal (s : list ascii) (acc : Z) : Z :=
  match s with
  | c :: t =>
      if isdigit c then accumulate_decimal t (acc * 10 + digit_value c)
      else acc
  | [] => acc
  end.

Definition is_minus (c : ascii) : bool := Ascii.eqb c "-".
Definition is_plus (c : ascii) : bool := Ascii.eqb c "+".

Definition sign_len (s : list ascii) : nat :=
  if is_minus (peek s) || is_plus (peek s) then 1%nat else 0%nat.

Record conversion (A : Type) : Type := mk_conversion {
  conv_value : A;
  conv_consumed : nat;
  conv_erange : bool
}.
Arguments mk_conversion {A} _ _ _.
Arguments conv_value {A} _.
Arguments conv_consumed {A} _.
Arguments conv_erange {A} _.

Definition strtoll (s : list ascii) : conversion Z :=
  let ws := span_len isspace s in
  let s1 := skipn ws s in
  let negative := is_minus (peek s1) in
  let s2 := skipn (sign_len s1) s1 in
  let n := span_len isdigit s2 in
  if Nat.eqb n 0 then mk_conversion 0 0 false
  else
    let magnitude := accumulate_decimal s2 0 in
    let v := if negative then - magnitude else magnitude in
    let consumed := (ws + sign_len s1 + n)%nat in
    if v <? LLONG_MIN then mk_conversion LLONG_MIN consumed true
    else if LLONG_MAX <? v then mk_conversion LLONG_MAX consumed true
    else mk_conversion v consumed false.

Definition strtoull (s : list ascii) : conversion Z :=
  let ws := span_len isspace s in
  let s1 := skipn ws s in
  let negative := is_minus (peek s1) in
  let s2 := skipn (sign_len s1) s1 in
  let n := span_len isdigit s2 in
  if Nat.eqb n 0 then mk_conversion 0 0 false
  else
    let magnitude := accumulate_decimal s2 0 in
    let consumed := (ws + sign_len s1 + n)%nat in
    if ULLONG_MAX <? magnitude then mk_conversion ULLONG_MAX consumed true
    else mk_conversion
           (if negative then (- magnitude) mod 2 ^ 64 else magnitude)
           consumed false.

(** *** Floating-point conversions

    [strtof] and [strtod] (ISO C 7.22.1.3, "C" locale): optional white
    space, an optional sign, then one of: [inf] or [infinity] and [nan]
    or [nan(n-char-sequence)], ignoring case; a hexadecimal floating
    constant after [0x]; a decimal floating constant.  The value is
    correctly rounded to the target format.  On overflow the result is
    an infinity and [errno] becomes [ERANGE].  Whether an underflowing
    conversion sets [errno] is implementation-defined; as in glibc it
    does here when the delivered result is tiny and inexact.  The
    n-char-sequence of a NaN is ignored. *)

Fixpoint match_ci (word s : list ascii) : bool :=
  match word with
  | [] => true
  | w :: word' =>
      match s with
      | c :: s' => Ascii.eqb (tolower c) w && match_ci word' s'
      | [] => false
      end
  end.

Definition hex_digit_value (c : ascii) : Z :=
  if isdigit c then code c - 48
  else if 97 <=? code c then code c - 87
  else code c - 55.

Fixpoint accumulate_hex (s : list ascii) (acc : Z) : Z :=
  match s with
  | c :: t =>
      if isxdigit c then accumulate_hex t (acc * 16 + hex_digit_value c)
      else acc
  | [] => acc
  end.

Definition is_dot (c : ascii) : bool := Ascii.eqb c ".".

Definition dot_len (s : list ascii) : nat :=
  if is_dot (peek s) then 1%nat else 0%nat.

(** The optional exponent part: the marker ([e] or [p], either case),
    an optional sign and at least one decimal digit. *)
Definition exponent_part (marker : ascii) (s : list ascii) : Z * nat :=
  if Ascii.eqb (tolower (peek s)) marker then
    let s1 := skipn 1 s in
    let s2 := skipn (sign_len s1) s1 in
    let n := span_len isdigit s2 in
    if Nat.eqb n 0 then (0, 0%nat)
    else
      let v := accumulate_decimal s2 0 in
      (if is_minus (peek s1) then - v else v, (1 + sign_len s1 + n)%nat)
  else (0, 0%nat).

Inductive float_syntax : Type :=
  | NoConversion
  | Infinity
  | NotANumber
  | DecimalFloat (m e10 : Z)
  | HexFloat (m e2 : Z).

Definition scan_decimal_float (s : list ascii) : float_syntax * nat :=
  let ni := span_len isdigit s in
  let s1 := skipn ni s in
  let s2 := skipn (dot_len s1) s1 in
  let nf := if is_dot (peek s1) then span_len isdigit s2 else 0%nat in
  if Nat.eqb (ni + nf) 0 then (NoConversion, 0%nat)
  else
    let m := if is_dot (peek s1)
             then accumulate_decimal s2 (accumulate_decimal s 0)
             else accumulate_decimal s 0 in
    let '(e, ne) := exponent_part "e" (skipn nf s2) in
    (DecimalFloat m (e - Z.of_nat nf), (ni + dot_len s1 + nf + ne)%nat).

Definition scan_hex_float (s : list ascii) : float_syntax * nat :=
  let s0 := skipn 2 s in
  let ni := span_len isxdigit s0 in
  let s1 := skipn ni s0 in
  let s2 := skipn (dot_len s1) s1 in
  let nf := if is_dot (peek s1) then span_len isxdigit s2 else 0%nat in
  if Nat.eqb (ni + nf) 0 then (NoConversion, 0%nat)
  else
    let m := if is_dot (peek s1)
             then accumulate_hex s2 (accumulate_hex s0 0)
             else accumulate_hex s0 0 in
    let '(e, ne) := exponent_part "p" (skipn nf s2) in
    (HexFloat m (e - 4 * Z.of_nat nf), (2 + ni + dot_len s1 + nf + ne)%nat).

Definition is_nchar (c : ascii) : bool :=
  isdigit c || isalpha c || Ascii.eqb c "_".

Definition nan_tag_len (s : list ascii) : nat :=
  if Ascii.eqb (peek s) "(" then
    let n := span_len is_nchar (skipn 1 s) in
    if Ascii.eqb (peek (skipn n (skipn 1 s))) ")" then (n + 2)%nat else 0%nat
  else 0%nat.

Definition scan_float (s : list ascii) : float_syntax * nat :=
  if match_ci (cstr "infinity") s then (Infinity, 8%nat)
  else if match_ci (cstr "inf") s then (Infinity, 3%nat)
  else if match_ci (cstr "nan") s
  then (NotANumber, (3 + nan_tag_len (skipn 3 s))%nat)
  else if match_ci (cstr "0x") s then
    match scan_hex_float s with
    | (NoConversion, _) => scan_decimal_float s
    | r => r
    end
  else scan_decimal_float s.

Section Strtofp.

Variables prec emax w : Z.

Definition range_report (x : spec_float) (num den e2 : Z) : bool :=
  ieee.is_infinite x
  || (ieee.is_tiny prec x && negb (ieee.is_exactly x num den e2)).

Definition strtofp (s : list ascii) : conversion Z :=
  let ws := span_len isspace s in
  let s1 := skipn ws s in
  let negative := is_minus (peek s1) in
  let '(syntax, n) := scan_float (skipn (sign_len s1) s1) in
  let consumed := (ws + sign_len s1 + n)%nat in
  match syntax with
  | NoConversion => mk_conversion 0 0%nat false
  | Infinity =>
      mk_conversion (ieee.encode prec emax w (S754_infinity negative))
        consumed false
  | NotANumber =>
      mk_conversion
        (ieee.sign_bit w negative + ieee.encode prec emax w S754_nan)
        consumed false
  | DecimalFloat m e10 =>
      let x := ieee.of_decimal prec emax negative m e10 in
      mk_conversion (ieee.encode prec emax w x) consumed
        (if 0 <=? e10 then range_report x (m * 10 ^ e10) 1 0
         else range_report x m (10 ^ (- e10)) 0)
  | HexFloat m e2 =>
      let x := ieee.of_binary prec emax negative m e2 in
      mk_conversion (ieee.encode prec emax w x) consumed
        (range_report x m 1 e2)
  end.

End Strtofp.

Definition strtof : list ascii -> conversion Z := strtofp 24 128 32.
Definition strtod : list ascii -> conversion Z := strtofp 53 1024 64.

End libc.

(** ** The literal lexer and the operator lookup *)

Definition INT8_MIN : Z := -128.
Definition INT8_MAX : Z := 127.
Definition INT16_MIN : Z := -32768.
Definition INT16_MAX : Z := 32767.
Definition INT32_MIN : Z := -2147483648.
Definition INT32_MAX : Z := 2147483647.
Definition INT64_MIN : Z := -9223372036854775808.
Definition INT64_MAX : Z := 9223372036854775807.
Definition UINT8_MAX : Z := 255.
Definition UINT16_MAX : Z := 65535.
Definition UINT32_MAX : Z := 4294967295.
Definition UINT64_MAX : Z := 18446744073709551615.

Definition digit_to_int (c : ascii) : Z :=
  if (48 <=? code c) && (code c <=? 57) then code c - 48
  else if (97 <=? code c) && (code c <=? 102) then code c - 97 + 10
  else if (65 <=? code c) && (code c <=? 70) then code c - 65 + 10
  else 0.

Section Lexer.

(** The line being evaluated; every [cursor] points into it. *)
Variable input : list ascii.

Definition here (st : lexer_state) : list ascii := text_at input (cursor st).

Definition advance (n : nat) (st : lexer_state) : lexer_state :=
  set_cursor st (cursor st + n)%nat.

Definition skip_whitespace : M lexer_state unit :=
  fun st => Return tt (advance (span_len isspace (here st)) st).

(** The [for] loop of [parse_operator] over the remaining table rows. *)
Fixpoint parse_operator_from (ops : list operator_t) (requested : arity_t)
    (sentinel : option operator_t) : M lexer_state operator_t :=
  fun st =>
    match ops with
    | [] => Throw parse_error st
    | op :: ops' =>
        if negb (arity_eqb (arity (operator_table op)) requested)
           && negb (match sentinel with
                    | Some s => operator_eqb op s
                    | None => false
                    end)
        then parse_operator_from ops' requested sentinel st
        else
          let identifier := identifier (operator_table op) in
          let identifier_size := Nat.max 1 (strlen identifier) in
          if strncmp_eq (here st) identifier identifier_size
          then Return op (advance identifier_size st)
          else parse_operator_from ops' requested sentinel st
    end.

Definition parse_operator (requested : arity_t)
    (sentinel : option operator_t) : M lexer_state operator_t :=
  skip_whitespace ;;;
  parse_operator_from all_operators requested sentinel.

(** Run a libc conversion at the cursor: the cursor becomes [endptr] and
    [errno] is set when the conversion reports a range error. *)
Definition convert (f : list ascii -> libc.conversion Z) : M lexer_state Z :=
  fun st =>
    let r := f (here st) in
    Return (libc.conv_value r)
      (set_errno (advance (libc.conv_consumed r) st)
         (libc.conv_erange r || errno_ERANGE st)).

Definition set_ERANGE : M lexer_state unit :=
  fun st => Return tt (set_errno st true).

Definition parse_int (min max : Z) : M lexer_state Z :=
  value <- convert libc.strtoll ;;
  if (value <? min) || (max <? value)
  then set_ERANGE ;;; ret value
  else ret value.

Definition parse_uint (max : Z) : M lexer_state Z :=
  fun st =>
    if Ascii.eqb (peek (here st)) "-" && isdigit (peek (skipn 1 (here st)))
    then (set_ERANGE ;;; ret 0) st
    else
      (value <- convert libc.strtoull ;;
       if max <? value
       then set_ERANGE ;;; ret value
       else ret value) st.

(** The [for] loop of [strtox]; [remaining] is [max_digits - digits] and
    [value] a [uint64_t]. *)
Fixpoint strtox_digits (remaining : nat) (value : Z) : M lexer_state Z :=
  fun st =>
    match remaining with
    | O => (set_ERANGE ;;; ret 0) st
    | S remaining' =>
        let value := (value + digit_to_int (peek (here st))) mod 2 ^ 64 in
        let st := advance 1 st in
        if negb (isxdigit (peek (here st))) then Return value st
        else strtox_digits remaining' (Z.shiftl value 4 mod 2 ^ 64) st
    end.

Definition strtox (max_digits : nat) : M lexer_state Z :=
  fun st =>
    if negb (Ascii.eqb (peek (here st)) "x")
       || negb (isxdigit (peek (skipn 1 (here st))))
    then Return 0 st
    else
      let st := advance 1 st in
      let st := advance (span_len (fun c => Ascii.eqb c "0") (here st)) st in
      if negb (isxdigit (peek (here st))) then Return 0 st
      else strtox_digits max_digits 0 st.

(** The member of the union that the [switch] of [parse_value] assigns,
    as the bit pattern stored. *)
Definition parse_hex_member (mode : encoding_t) : M lexer_state Z :=
  match mode with
  | S8 | U8 => v <- strtox 2 ;; ret (to_bits 8 v)
  | S16 | U16 => v <- strtox 4 ;; ret (to_bits 16 v)
  | S32 | U32 | F32 => v <- strtox 8 ;; ret (to_bits 32 v)
  | S64 | U64 | F64 => v <- strtox 16 ;; ret (to_bits 64 v)
  end.

Definition parse_decimal_member (mode : encoding_t) : M lexer_state Z :=
  match mode with
  | S8 => v <- parse_int INT8_MIN INT8_MAX ;; ret (to_bits 8 v)
  | S16 => v <- parse_int INT16_MIN INT16_MAX ;; ret (to_bits 16 v)
  | S32 => v <- parse_int INT32_MIN INT32_MAX ;; ret (to_bits 32 v)
  | S64 => v <- parse_int INT64_MIN INT64_MAX ;; ret (to_bits 64 v)
  | U8 => v <- parse_uint UINT8_MAX ;; ret (to_bits 8 v)
  | U16 => v <- parse_uint UINT16_MAX ;; ret (to_bits 16 v)
  | U32 => v <- parse_uint UINT32_MAX ;; ret (to_bits 32 v)
  | U64 => v <- parse_uint UINT64_MAX ;; ret (to_bits 64 v)
  | F32 => convert libc.strtof
  | F64 => convert libc.strtod
  end.

Definition parse_value (mode : encoding_t) : M lexer_state encoded_value :=
  skip_whitespace ;;;
  fun st0 =>
    let old_cursor := cursor st0 in
    (bits <- (if Ascii.eqb (peek (here st0)) "x"
              then parse_hex_member mode
              else parse_decimal_member mode) ;;
     fun st =>
       if errno_ERANGE st
       then Throw range_error (set_cursor (set_errno st false) old_cursor)
       else if Nat.eqb old_cursor (cursor st)
       then Return INVALID_VALUE st
       else Return (mk_value (Some mode) bits) st) st0.

End Lexer.

(** ** The dual-radix formatter

    [format_hex] and [format_dec] as the text [sprintf] is asked to write;
    the rotating static buffers it is written to are the matter of
    [buffered.format_hex] and [buffered.format_dec] below.  Nothing is
    rendered for [INVALID_ENCODING]. *)

Definition hex_char (d : Z) : ascii :=
  ascii_of_N (Z.to_N (if d <? 10 then 48 + d else 87 + d)).

(** The [n] low hexadecimal digits of [z], most significant first. *)
Fixpoint hex_digits (n : nat) (z : Z) : string :=
  match n with
  | O => EmptyString
  | S n' => (hex_digits n' (z / 16) ++ String (hex_char (z mod 16)) EmptyString)%string
  end.

Definition decimal (z : Z) : string := NilZero.string_of_int (Z.to_int z).

Definition format_hex (value : encoded_value) : option string :=
  match encoding value with
  | Some (S8 | U8) =>
      Some (String "x" (hex_digits 2 (read_unsigned 8 (payload value))))
  | Some (S16 | U16) =>
      Some (String "x" (hex_digits 4 (read_unsigned 16 (payload value))))
  | Some (S32 | U32 | F32) =>
      Some (String "x" (hex_digits 8 (read_unsigned 32 (payload value))))
  | Some (S64 | U64 | F64) =>
      Some (String "x" (hex_digits 16 (read_unsigned 64 (payload value))))
  | None => None
  end.

(** Nearest integer to [num / den], ties to even, for [den > 0]. *)
Definition round_half_even (num den : Z) : Z :=
  let q := num / den in
  let r := num mod den in
  match 2 * r ?= den with
  | Lt => q
  | Gt => q + 1
  | Eq => if Z.even q then q else q + 1
  end.

(** [printf("%f")]: six digits after the point. *)
Definition format_real (prec emax w : Z) (raw : Z) : string :=
  let sign := if Z.testbit (raw mod 2 ^ w) (w - 1) then "-"%string
              else EmptyString in
  match ieee.decode prec emax w raw with
  | S754_nan => (sign ++ "nan")%string
  | S754_infinity _ => (sign ++ "inf")%string
  | S754_zero _ => (sign ++ "0.000000")%string
  | S754_finite _ m e =>
      let n := if 0 <=? e then Zpos m * 2 ^ e * 1000000
               else round_half_even (Zpos m * 1000000) (2 ^ (- e)) in
      (sign ++ decimal (n / 1000000) ++ "."
       ++ substring 1 6 (decimal (1000000 + n mod 1000000)))%string
  end.

Definition format_dec (value : encoded_value) : option string :=
  match encoding value with
  | Some S8 => Some (decimal (read_signed 8 (payload value)))
  | Some S16 => Some (decimal (read_signed 16 (payload value)))
  | Some S32 => Some (decimal (read_signed 32 (payload value)))
  | Some S64 => Some (decimal (read_signed 64 (payload value)))
  | Some U8 => Some (decimal (read_unsigned 8 (payload value)))
  | Some U16 => Some (decimal (read_unsigned 16 (payload value)))
  | Some U32 => Some (decimal (read_unsigned 32 (payload value)))
  | Some U64 => Some (decimal (read_unsigned 64 (payload value)))
  | Some F32 => Some (format_real 24 128 32 (payload value))
  | Some F64 => Some (format_real 53 1024 64 (payload value))
  | None => None
  end.


(** ** The typed evaluator

    Integer arithmetic follows the native two's-complement behaviour of the
    instantiated template: operands narrower than [int] are promoted to the
    32-bit [int], the operation is carried out, and the result is converted
    back to the [w]-bit type, which keeps it modulo [2^w].  On the 32- and
    64-bit types [+], [-], [*], unary [-] and [<<] wrap: C++ leaves a
    signed overflow undefined, and every two's-complement target delivers
    the wrapped result.  There is no such common result for a zero divisor,
    for a quotient that the promoted type cannot represent, or for a shift
    count that is negative or not less than the width of the promoted left
    operand (x86 traps on the division and masks the count, other targets
    deliver some value): those are [NoBehaviour]. *)

Inductive computed : Type :=
  | Success (bits : Z)
  | Failure
  | NoBehaviour.

Definition promoted_width (w : Z) : Z := Z.max w 32.

Definition promoted_signed (signed : bool) (w : Z) : bool :=
  signed || (w <? 32).

Definition representable (signed : bool) (w : Z) (z : Z) : bool :=
  if signed then (- 2 ^ (w - 1) <=? z) && (z <? 2 ^ (w - 1))
  else (0 <=? z) && (z <? 2 ^ w).

Definition promoted_representable (signed : bool) (w : Z) (z : Z) : bool :=
  representable (promoted_signed signed w) (promoted_width w) z.

Definition shift_count_ok (w : Z) (count : Z) : bool :=
  (0 <=? count) && (count <? promoted_width w).

Module unary.

(** [evaluate_operator_integer<type>(op, value, result)] for the [w]-bit
    signed or unsigned [type]; [value] is the raw union content. *)
Definition evaluate_operator_integer (signed : bool) (w : Z)
    (op : operator_t) (value : Z) : computed :=
  let value := read_int signed w value in
  match op with
  | NOT => Success (to_bits w (Z.lnot value))
  | NEGATE => Success (to_bits w (- value))
  | _ => Failure
  end.

Definition evaluate_operator_real (w : Z)
    (op : operator_t) (value : Z) : computed :=
  match op with
  | NEGATE => Success (ieee.neg w value)
  | _ => Failure
  end.

Definition evaluate_operator (verbose : bool) (op : operator_t)
    (value : encoded_value) : M machine encoded_value :=
  fun m =>
    let raw := payload value in
    let '(outcome, m) :=
      match encoding value with
      | Some S8 => (evaluate_operator_integer true 8 op raw, m)
      | Some S16 => (evaluate_operator_integer true 16 op raw, m)
      | Some S32 => (evaluate_operator_integer true 32 op raw, m)
      | Some S64 => (evaluate_operator_integer true 64 op raw, m)
      | Some U8 => (evaluate_operator_integer false 8 op raw, m)
      | Some U16 => (evaluate_operator_integer false 16 op raw, m)
      | Some U32 => (evaluate_operator_integer false 32 op raw, m)
      | Some U64 => (evaluate_operator_integer false 64 op raw, m)
      | Some F32 => (evaluate_operator_real 32 op raw, m)
      | Some F64 => (evaluate_operator_real 64 op raw, m)
      | None =>
          (Failure,
           print_stderr m (Diagnostic "evaluate_operator: invalid encoding"))
      end in
    match outcome with
    | Success bits =>
        let result := mk_value (encoding value) bits in
        Return result
          (if verbose then print_stdout m (TraceUnary op value result)
           else m)
    | Failure => Throw parse_error m
    | NoBehaviour => Undefined
    end.

End unary.

Module binary.

Definition evaluate_operator_integer (signed : bool) (w : Z)
    (op : operator_t) (left right : Z) : computed :=
  let left := read_int signed w left in
  let right := read_int signed w right in
  match op with
  | ADD => Success (to_bits w (left + right))
  | SUBTRACT => Success (to_bits w (left - right))
  | MULTIPLY => Success (to_bits w (left * right))
  | DIVIDE =>
      if (right =? 0)
         || negb (promoted_representable signed w (Z.quot left right))
      then NoBehaviour
      else Success (to_bits w (Z.quot left right))
  | MODULUS =>
      if (right =? 0)
         || negb (promoted_representable signed w (Z.quot left right))
      then NoBehaviour
      else Success (to_bits w (Z.rem left right))
  | LEFT_SHIFT =>
      if shift_count_ok w right
      then Success (to_bits w (Z.shiftl left right))
      else NoBehaviour
  | RIGHT_SHIFT =>
      if shift_count_ok w right
      then Success (to_bits w (Z.shiftr left right))
      else NoBehaviour
  | AND => Success (to_bits w (Z.land left right))
  | OR => Success (to_bits w (Z.lor left right))
  | XOR => Success (to_bits w (Z.lxor left right))
  | _ => Failure
  end.

Definition evaluate_operator_real (prec emax w : Z)
    (op : operator_t) (left right : Z) : computed :=
  match op with
  | ADD => Success (ieee.add prec emax w left right)
  | SUBTRACT => Success (ieee.sub prec emax w left right)
  | MULTIPLY => Success (ieee.mul prec emax w left right)
  | DIVIDE => Success (ieee.div prec emax w left right)
  | _ => Failure
  end.

Definition same_encoding (a b : option encoding_t) : bool :=
  match a, b with
  | Some x, Some y => encoding_eqb x y
  | None, None => true
  | _, _ => false
  end.

Definition evaluate_operator (verbose : bool) (op : operator_t)
    (left right : encoded_value) : M machine encoded_value :=
  fun m =>
    if negb (same_encoding (encoding left) (encoding right))
    then Return INVALID_VALUE
           (print_stderr m (Diagnostic "Mixed types not supported"))
    else
      let l := payload left in
      let r := payload right in
      let '(outcome, m) :=
        match encoding left with
        | Some S8 => (evaluate_operator_integer true 8 op l r, m)
        | Some S16 => (evaluate_operator_integer true 16 op l r, m)
        | Some S32 => (evaluate_operator_integer true 32 op l r, m)
        | Some S64 => (evaluate_operator_integer true 64 op l r, m)
        | Some U8 => (evaluate_operator_integer false 8 op l r, m)
        | Some U16 => (evaluate_operator_integer false 16 op l r, m)
        | Some U32 => (evaluate_operator_integer false 32 op l r, m)
        | Some U64 => (evaluate_operator_integer false 64 op l r, m)
        | Some F32 => (evaluate_operator_real 24 128 32 op l r, m)
        | Some F64 => (evaluate_operator_real 53 1024 64 op l r, m)
        | None =>
            (Failure,
             print_stderr m
               (Diagnostic "evaluate_operator: invalid encoding"))
        end in
      match outcome with
      | Success bits =>
          let result := mk_value (encoding left) bits in
          Return result
            (if verbose
             then print_stdout m (TraceBinary op left right result)
             else m)
      | Failure => Throw parse_error m
      | NoBehaviour => Undefined
      end.

End binary.

(** ** The expression parser

    [compute_expression] and [compute_value] call each other; the [while]
    loop of [compute_expression] is [expression_loop].  The recursion
    follows the text, so the embedding is driven by a fuel that every call
    and every iteration decrements; [enough_fuel] suffices for any line
    ([handle_input_terminates] below). *)

Section Parser.

Variable verbose : bool.
Variable input : list ascii.
Variable mode : encoding_t.

Fixpoint compute_expression (fuel : nat) (sentinel : operator_t)
    (min_precedence : Z) {struct fuel} : M machine (encoded_value * operator_t) :=
  match fuel with
  | O => fun _ => NoFuel
  | S fuel =>
      value <- compute_value fuel ;;
      op <- lift (parse_operator input BINARY (Some sentinel)) ;;
      expression_loop fuel sentinel min_precedence value op
  end

with expression_loop (fuel : nat) (sentinel : operator_t)
    (min_precedence : Z) (value : encoded_value) (op : operator_t)
    {struct fuel} : M machine (encoded_value * operator_t) :=
  match fuel with
  | O => fun _ => NoFuel
  | S fuel =>
      let precedence := precedence (operator_table op) in
      if precedence <=? min_precedence then ret (value, op)
      else
        next <- compute_expression fuel sentinel precedence ;;
        value <- binary.evaluate_operator verbose op value (fst next) ;;
        expression_loop fuel sentinel min_precedence value (snd next)
  end

with compute_value (fuel : nat) {struct fuel} : M machine encoded_value :=
  match fuel with
  | O => fun _ => NoFuel
  | S fuel =>
      value <- lift (parse_value input mode) ;;
      match encoding value with
      | Some _ => ret value
      | None =>
          unary_op <- lift (parse_operator input UNARY None) ;;
          match unary_op with
          | OPEN_PAREN =>
              r <- compute_expression fuel CLOSE_PAREN 0 ;;
              ret (fst r)
          | _ =>
              match arity (operator_table unary_op) with
              | UNARY =>
                  result <- compute_value fuel ;;
                  unary.evaluate_operator verbose unary_op result
              | _ => throw parse_error
              end
          end
      end
  end.

Definition enough_fuel : nat := (2 * List.length input + 4)%nat.

(** The body of the [try] block of [handle_input]: the cursor starts at
    the line. *)
Definition evaluate : M machine encoded_value :=
  fun m =>
    (r <- compute_expression enough_fuel END_EXPRESSION 0 ;; ret (fst r))
      (set_lexer m (set_cursor (lexer m) 0)).

(** [handle_input]: the result line goes to [stdout], the caret and the
    message of a caught exception to [stderr]. *)
Definition handle_input : M machine bool :=
  fun m =>
    match evaluate m with
    | Return result m => Return true (print_stdout m (ResultLine result))
    | Throw error m =>
        Return false
          (print_stderr m (Caret (cursor (lexer m)) (what error)))
    | Undefined => Undefined
    | NoFuel => NoFuel
    end.

End Parser.

(** The state at program start: the cursor at offset 0, [errno] zero and
    nothing printed. *)
Definition start : machine := mk_machine (mk_lexer 0 false) [] [].

(** ** Notions used to state the properties *)

(** A decimal literal as text: an optional sign and digits. *)
Inductive sign_t : Type := NoSign | PlusSign | MinusSign.

Definition sign_text (s : sign_t) : list ascii :=
  match s with
  | NoSign => []
  | PlusSign => ["+"%char]
  | MinusSign => ["-"%char]
  end.

(** Positional value of a string of decimal digits. *)
Fixpoint decimal_value (digits : list ascii) : Z :=
  match digits with
  | [] => 0
  | d :: t => (code d - 48) * 10 ^ Z.of_nat (List.length t) + decimal_value t
  end.

Definition literal_value (s : sign_t) (digits : list ascii) : Z :=
  match s with
  | MinusSign => - decimal_value digits
  | _ => decimal_value digits
  end.

(** Positional value of a string of hexadecimal digits. *)
Fixpoint hex_value (digits : list ascii) : Z :=
  match digits with
  | [] => 0
  | d :: t => digit_to_int d * 16 ^ Z.of_nat (List.length t) + hex_value t
  end.

(** The exact range of an integer encoding. *)
Definition encoding_min (mode : encoding_t) : Z :=
  if is_signed mode then - 2 ^ (width mode - 1) else 0.

Definition encoding_max (mode : encoding_t) : Z :=
  if is_signed mode then 2 ^ (width mode - 1) - 1 else 2 ^ width mode - 1.

(** Width of an encoding in hexadecimal digits. *)
Definition hex_width (mode : encoding_t) : nat :=
  match mode with
  | S8 | U8 => 2
  | S16 | U16 => 4
  | S32 | U32 | F32 => 8
  | S64 | U64 | F64 => 16
  end.

Definition is_zero_digit (c : ascii) : bool := Ascii.eqb c "0".

Definition is_unsigned (mode : encoding_t) : bool :=
  is_integer mode && negb (is_signed mode).

(** The one quotient a signed 32- or 64-bit division cannot represent. *)
Definition quotient_overflows (mode : encoding_t) (a b : Z) : bool :=
  is_signed mode && (32 <=? width mode)
  && (a =? encoding_min mode) && (b =? -1).

(** The conversion [parse_value] uses for a float encoding. *)
Definition native_conversion (double : bool) :
    list ascii -> libc.conversion Z :=
  if double then libc.strtod else libc.strtof.

Definition float_mode (double : bool) : encoding_t :=
  if double then F64 else F32.

Definition not_nul (c : ascii) : bool := negb (Ascii.eqb c NUL).

(** [n] characters can be consumed from [s] without passing a NUL. *)
Definition fits (n : nat) (s : list ascii) : Prop := (n <= strlen s)%nat.

(** The cursor is on the line: at most at its terminating NUL. *)
Definition within (input : list ascii) (st : lexer_state) : Prop :=
  (cursor st <= strlen input)%nat.

(** The call returns, with the cursor moved forward and still on the
    line. *)
Definition advances (input : list ascii) {A} (st : lexer_state)
    (o : outcome lexer_state A) : Prop :=
  match o with
  | Return _ st' => (cursor st <= cursor st')%nat /\ within input st'
  | _ => False
  end.

Definition pos (m : machine) : nat := cursor (lexer m).

(** Where the cursor is after an operator was read: just behind the NUL
    for the end-of-input sentinel, on the line otherwise. *)
Definition op_position (input : list ascii) (op : operator_t) (p : nat) :
    Prop :=
  if operator_eqb op END_EXPRESSION then p = S (strlen input)
  else (p <= strlen input)%nat.

(** What [parse_operator(cursor, BINARY, sentinel)] can return. *)
Definition op_class (sentinel op : operator_t) : Prop :=
  arity (operator_table op) = BINARY \/ op = sentinel.

Definition errno_clear (m : machine) : Prop :=
  errno_ERANGE (lexer m) = false.

(** Invariants of the three parser functions: how far the cursor moves,
    what operator is handed back, that [errno] is left clear, and how much
    fuel a call can need. *)
Definition value_bounds (verbose : bool) (input : list ascii)
    (mode : encoding_t) (fuel : nat) : Prop :=
  forall m, (pos m <= strlen input)%nat ->
    match compute_value verbose input mode fuel m with
    | Return _ m' =>
        (pos m < pos m')%nat /\ (pos m' <= strlen input)%nat
        /\ errno_clear m'
    | Throw _ m' => errno_clear m'
    | Undefined => True
    | NoFuel => (fuel < 2 * (S (strlen input) - pos m) + 1)%nat
    end.

Definition expression_bounds (verbose : bool) (input : list ascii)
    (mode : encoding_t) (fuel : nat) : Prop :=
  forall sentinel min_precedence m,
    0 <= min_precedence -> (pos m <= strlen input)%nat ->
    match compute_expression verbose input mode fuel sentinel
            min_precedence m with
    | Return (_, op) m' =>
        (pos m + 2 <= pos m')%nat
        /\ precedence (operator_table op) <= min_precedence
        /\ op_class sentinel op
        /\ op_position input op (pos m')
        /\ errno_clear m'
    | Throw _ m' => errno_clear m'
    | Undefined => True
    | NoFuel => (fuel < 2 * (S (strlen input) - pos m) + 2)%nat
    end.

Definition loop_bounds (verbose : bool) (input : list ascii)
    (mode : encoding_t) (fuel : nat) : Prop :=
  forall sentinel min_precedence value op m,
    0 <= min_precedence -> op_class sentinel op ->
    op_position input op (pos m) -> errno_clear m ->
    match expression_loop verbose input mode fuel sentinel min_precedence
            value op m with
    | Return (_, op') m' =>
        (pos m <= pos m')%nat
        /\ precedence (operator_table op') <= min_precedence
        /\ op_class sentinel op'
        /\ op_position input op' (pos m')
        /\ errno_clear m'
    | Throw _ m' => errno_clear m'
    | Undefined => True
    | NoFuel => (fuel < 2 * (S (strlen input) - pos m) + 3)%nat
    end.

(** The state and the outcome of a run with the trace lines left out. *)
Definition is_trace (o : output) : bool :=
  match o with
  | TraceUnary _ _ _ | TraceBinary _ _ _ _ => true
  | _ => false
  end.

Definition quiet (m : machine) : machine :=
  mk_machine (lexer m) (filter (fun o => negb (is_trace o)) (stdout m))
    (stderr m).

Definition observe {A} (o : outcome machine A) : outcome machine A :=
  match o with
  | Return a m => Return a (quiet m)
  | Throw e m => Throw e (quiet m)
  | Undefined => Undefined
  | NoFuel => NoFuel
  end.

(** The call adds nothing to [stdout] but trace lines, and not even those
    unless [verbose] is set. *)
Definition adds_trace (verbose : bool) {A} (m : machine)
    (o : outcome machine A) : Prop :=
  match o with
  | Return _ m' | Throw _ m' =>
      exists t, stdout m' = stdout m ++ t
                /\ forallb is_trace t = true
                /\ (verbose = false -> t = [])
  | _ => True
  end.

(** The characters a binary operator can start with. *)
Definition starts_binary_operator (c : ascii) : bool :=
  existsb (Ascii.eqb c) (cstr "*/%+-<>&^|").

(** The call returns and does not clear an [errno] that is [ERANGE]. *)
Definition keeps_errno {A} (st : lexer_state) (o : outcome lexer_state A) :
    Prop :=
  match o with
  | Return _ st' => errno_ERANGE st = true -> errno_ERANGE st' = true
  | _ => False
  end.

(** The call prints nothing on [stderr], and what it returns satisfies
    [P]. *)
Definition silent {A} (P : A -> Prop) (m : machine) (o : outcome machine A) :
    Prop :=
  match o with
  | Return a m' => P a /\ stderr m' = stderr m
  | Throw _ m' => stderr m' = stderr m
  | _ => True
  end.

Definition has_encoding (mode : encoding_t) (v : encoded_value) : Prop :=
  encoding v = Some mode.

(** A call that throws leaves the cursor at most just behind the
    terminating NUL of the line. *)
Definition throws_within (input : list ascii) {A} (o : outcome machine A) :
    Prop :=
  match o with
  | Throw _ m' => (pos m' <= S (strlen input))%nat
  | _ => True
  end.



(** ** The command line and the session

    [main] gets its arguments as the list [argv[0] .. argv[argc-1]] and
    the lines that [readline] returns as a list, after the last of which
    [readline] returns NULL.  The prompt and the echo are the terminal's
    and are not recorded. *)

(** [strcmp(s1, s2) == 0]. *)
Fixpoint strcmp_eq (s1 s2 : list ascii) : bool :=
  match s1 with
  | [] => Ascii.eqb NUL (peek s2)
  | c :: t =>
      if Ascii.eqb c (peek s2)
      then (if Ascii.eqb c NUL then true else strcmp_eq t (tl s2))
      else false
  end.

Definition encoding_names (mode : encoding_t) : list ascii :=
  match mode with
  | S8 => cstr "s8"
  | S16 => cstr "s16"
  | S32 => cstr "s32"
  | S64 => cstr "s64"
  | U8 => cstr "u8"
  | U16 => cstr "u16"
  | U32 => cstr "u32"
  | U64 => cstr "u64"
  | F32 => cstr "f32"
  | F64 => cstr "f64"
  end.

(** The values [0 .. NUM_ENCODINGS-1] of the enum, in order. *)
Definition all_encodings : list encoding_t :=
  [S8; S16; S32; S64; U8; U16; U32; U64; F32; F64].

(** The [for] loop of [parse_mode] over the remaining names. *)
Fixpoint parse_mode_from (modes : list encoding_t) (mode_name : list ascii) :
    option encoding_t :=
  match modes with
  | [] => None
  | mode :: modes' =>
      if strcmp_eq mode_name (encoding_names mode) then Some mode
      else parse_mode_from modes' mode_name
  end.

Definition parse_mode (mode_name : list ascii) : option encoding_t :=
  parse_mode_from all_encodings mode_name.

(** The characters of a C string: those before its first NUL. *)
Definition c_string (s : list ascii) : list ascii := firstn (strlen s) s.


(** What [usage] prints on [stderr], line by line. *)
Definition usage (me : list ascii) (m : machine) : machine :=
  fold_left print_stderr
    [ Diagnostic ("Usage: " ++ string_of_list_ascii (c_string me)
                  ++ " [-v] mode");
      Diagnostic "-v: Be verbose, print each computation step";
      Diagnostic "mode: one of the following:";
      Diagnostic "  s8,s16,s32,s64: Use 8,16,32,64 bit signed encoding";
      Diagnostic "  u8,u16,u32,u64: Use 8,16,32,64 bit unsigned encoding";
      Diagnostic "  f32,f64: Use 32 or 64 bit floating-point encoding" ]
    m.

(** The process: what was printed, and the history of [readline]. *)
Record process : Type := mk_process {
  console : machine;
  history : list (list ascii)
}.

Definition add_history (line : list ascii) (p : process) : process :=
  mk_process (console p) (history p ++ [line]).

(** The [while (true)] loop of [main] over the lines still to come. *)
Fixpoint read_lines (verbose : bool) (mode : encoding_t)
    (lines : list (list ascii)) : M process unit :=
  fun p =>
    match lines with
    | [] => Return tt p
    | input :: lines' =>
        if Ascii.eqb (peek input) NUL then read_lines verbose mode lines' p
        else if strcmp_eq input (cstr "exit") then Return tt p
        else
          let p := add_history input p in
          match handle_input verbose input mode (console p) with
          | Return success m =>
              let p := mk_process m (history p) in
              read_lines verbose mode lines'
                (if success then add_history input p else p)
          | Throw e m => Throw e (mk_process m (history p))
          | Undefined => Undefined
          | NoFuel => NoFuel
          end
    end.

(** [main]: the exit status.  With [argc = 0] the test of [argv[1]] reads
    behind the array. *)
Definition main (argv : list (list ascii)) (lines : list (list ascii)) :
    M process Z :=
  fun p =>
    match argv with
    | [] => Undefined
    | _ :: _ =>
        let verbose :=
          match nth_error argv 1 with
          | Some arg => strcmp_eq arg (cstr "-v")
          | None => false
          end in
        let argv := if verbose then tl argv else argv in
        if negb (Nat.eqb (List.length argv) 2)
        then Return 1 (mk_process (usage (hd [] argv) (console p))
                         (history p))
        else
          match parse_mode (nth 1 argv []) with
          | None =>
              Return 1 (mk_process (usage (hd [] argv) (console p))
                          (history p))
          | Some mode => (read_lines verbose mode lines ;;; ret 0) p
          end
    end.






(** The command lines that start a session: [prog mode] and
    [prog -v mode]. *)
Definition command_line (argv : list (list ascii)) :
    option (bool * encoding_t) :=
  match argv with
  | [_; name] => option_map (pair false) (parse_mode name)
  | [_; flag; name] =>
      if strcmp_eq flag (cstr "-v")
      then option_map (pair true) (parse_mode name)
      else None
  | _ => None
  end.


(** A run that did not run out of fuel ends the same way with more. *)
Definition settled {S A} (o o' : outcome S A) : Prop :=
  o <> NoFuel -> o' = o.





(** ** The static buffers of the formatter

    [format_dec] and [format_hex] above are the text that [sprintf] is asked
    to write, and an [output] record is a call of [printf] with the values
    handed to them.  In the source each of the two functions owns a static
    array [string_buf] of 256 bytes and a static [index]: a call moves
    [index] on by 32 (modulo 256), has [sprintf] write the text and its
    terminating NUL from [string_buf[index]] on, with no bound, and returns
    the pointer to that place.  [printf] reads the strings under the
    pointers once all its arguments are evaluated.  The module gives what
    the calls of [printf] recorded in a run do to the buffers and which
    text they print. *)

Module buffered.

(** The two statics of [format_dec], and of [format_hex]. *)
Record statics : Type := mk_statics {
  string_buf : list ascii;
  index : nat
}.

(** The formatter's state: the statics of [format_dec] and of
    [format_hex], and what the two functions printed on [stderr]. *)
Record formatter : Type := mk_formatter {
  dec : statics;
  hex : statics;
  complaints : list output
}.

Definition initial_statics : statics := mk_statics (repeat NUL 256) 0.

Definition initial : formatter :=
  mk_formatter initial_statics initial_statics [].

(** [index = (index + 32) % 256; char * string = &string_buf[index];] *)
Definition next_slot (s : statics) : statics :=
  mk_statics (string_buf s) ((index s + 32) mod 256)%nat.

(** [sprintf(string, ...)] with [string = &string_buf[index]]: the text,
    then a NUL.  Bytes behind the slot of 32 are written like the others
    (they are elements of the same array); a write behind the last element
    of the array has no defined behaviour. *)
Definition sprintf (text : string) (s : statics) : option statics :=
  let bytes := cstr text ++ [NUL] in
  if (index s + List.length bytes <=? 256)%nat
  then Some (mk_statics
               (firstn (index s) (string_buf s) ++ bytes
                ++ skipn (index s + List.length bytes) (string_buf s))
               (index s))
  else None.

(** A call of one of the two functions on its statics: the pointer
    returned is the offset of the string in [string_buf].  For
    [INVALID_ENCODING] nothing is written and the function complains on
    [stderr]. *)
Definition format (text : option string) (s : statics) :
    option (nat * statics * list output) :=
  let s := next_slot s in
  match text with
  | Some text =>
      match sprintf text s with
      | Some s' => Some (index s, s', [])
      | None => None
      end
  | None => Some (index s, s, [Diagnostic "Invalid encoding"])
  end.

Definition format_dec (value : encoded_value) : M formatter nat :=
  fun f =>
    match format (format_dec value) (dec f) with
    | Some (p, s, err) =>
        Return p (mk_formatter s (hex f) (complaints f ++ err))
    | None => Undefined
    end.

Definition format_hex (value : encoded_value) : M formatter nat :=
  fun f =>
    match format (format_hex value) (hex f) with
    | Some (p, s, err) =>
        Return p (mk_formatter (dec f) s (complaints f ++ err))
    | None => Undefined
    end.

(** An argument of a [printf] call, and what it evaluates to. *)
Inductive argument : Type :=
  | Identifier (s : list ascii)
  | Decimal (value : encoded_value)
  | Hexadecimal (value : encoded_value).

Inductive pointer : Type :=
  | Constant (s : list ascii)
  | InDec (offset : nat)
  | InHex (offset : nat).

Definition evaluate_argument (a : argument) : M formatter pointer :=
  match a with
  | Identifier s => ret (Constant s)
  | Decimal value => p <- format_dec value ;; ret (InDec p)
  | Hexadecimal value => p <- format_hex value ;; ret (InHex p)
  end.

(** The [%s] arguments of the [printf] call a record stands for, in the
    order they are written in the source.  The caret and the diagnostics
    go to [stderr] with no formatted argument. *)
Definition arguments (o : output) : list argument :=
  match o with
  | TraceUnary op value result =>
      let id := identifier (operator_table op) in
      [ Identifier id; Decimal value; Decimal result;
        Identifier id; Hexadecimal value; Hexadecimal result ]
  | TraceBinary op vl vr result =>
      let id := identifier (operator_table op) in
      [ Decimal vl; Identifier id; Decimal vr; Decimal result;
        Hexadecimal vl; Identifier id; Hexadecimal vr;
        Hexadecimal result ]
  | ResultLine result => [ Decimal result; Hexadecimal result ]
  | Caret _ _ | Diagnostic _ => []
  end.

(** C++ leaves the order in which the arguments of a call are evaluated
    to the compiler: [positions] lists the arguments in the order they are
    evaluated. *)
Fixpoint evaluate_in_order (args : list argument) (positions : list nat) :
    M formatter (list (nat * pointer)) :=
  match positions with
  | [] => ret []
  | k :: positions' =>
      p <- match nth_error args k with
           | Some a => evaluate_argument a
           | None => ret (Constant [])
           end ;;
      ps <- evaluate_in_order args positions' ;;
      ret ((k, p) :: ps)
  end.

Fixpoint pointer_of (k : nat) (ps : list (nat * pointer)) : pointer :=
  match ps with
  | [] => Constant []
  | (j, p) :: ps' => if Nat.eqb j k then p else pointer_of k ps'
  end.

(** The string [printf] reads under a pointer. *)
Definition string_at (f : formatter) (p : pointer) : list ascii :=
  match p with
  | Constant s => c_string s
  | InDec offset => c_string (skipn offset (string_buf (dec f)))
  | InHex offset => c_string (skipn offset (string_buf (hex f)))
  end.

(** The compiler's choice: for a call with [n] arguments, the order in
    which they are evaluated. *)
Definition evaluation_order : Type := nat -> list nat.

(** [printf] for a record: the strings it prints for its [%s], in the
    order of the format. *)
Definition printf (order : evaluation_order) (o : output) :
    M formatter (list (list ascii)) :=
  let args := arguments o in
  ps <- evaluate_in_order args (order (List.length args)) ;;
  fun f =>
    Return (map (fun k => string_at f (pointer_of k ps))
              (seq 0 (List.length args))) f.

Fixpoint print_all (order : evaluation_order) (log : list output) :
    M formatter (list (list (list ascii))) :=
  match log with
  | [] => ret []
  | o :: log' =>
      line <- printf order o ;;
      lines <- print_all order log' ;;
      ret (line :: lines)
  end.

(** [handle_input] with what its calls of [printf] do: whether the line
    evaluated, and the strings printed on [stdout], line by line.  No call
    of [printf] depends on the buffers, so the calls a run makes are those
    it recorded. *)
Definition handle_input (order : evaluation_order) (verbose : bool)
    (input : list ascii) (mode : encoding_t) :
    M formatter (bool * list (list (list ascii))) :=
  fun f =>
    match handle_input verbose input mode start with
    | Return success m =>
        (lines <- print_all order (stdout m) ;; ret (success, lines)) f
    | Throw e _ => Throw e f
    | Undefined => Undefined
    | NoFuel => NoFuel
    end.

End buffered.


(** The statics as the program keeps them: an array of 256 bytes, and an
    index that is a multiple of the slot size. *)
Definition aligned (s : buffered.statics) : Prop :=
  List.length (buffered.string_buf s) = 256%nat
  /\ (buffered.index s mod 32 = 0)%nat.

(** A call wrote the text into the next slot and nowhere else. *)
Definition in_its_slot (text : string) (s : buffered.statics)
    (p : nat) (s' : buffered.statics) : Prop :=
  p = buffered.index (buffered.next_slot s)
  /\ (p + 32 <= 256)%nat
  /\ buffered.index s' = p
  /\ aligned s'
  /\ c_string (skipn p (buffered.string_buf s')) = cstr text
  /\ forall j, (j < p \/ p + 32 <= j)%nat ->
       nth j (buffered.string_buf s') NUL = nth j (buffered.string_buf s) NUL.

(** * Properties *)

(** ** Characters and scanning *)

Ltac ascii_cases c :=
  destruct c as [[|] [|] [|] [|] [|] [|] [|] [|]];
  vm_compute; intros; try reflexivity; try congruence; auto.

Lemma isdigit_not_space c : isdigit c = true -> isspace c = false.
Proof. ascii_cases c. Qed.

Lemma isdigit_not_x c : isdigit c = true -> Ascii.eqb c "x" = false.
Proof. ascii_cases c. Qed.

Lemma isdigit_not_sign c :
  isdigit c = true -> libc.is_minus c = false /\ libc.is_plus c = false.
Proof. ascii_cases c. Qed.

Lemma isdigit_digit_value c :
  isdigit c = true -> 0 <= libc.digit_value c <= 9.
Proof.
  unfold isdigit, libc.digit_value. intros H.
  apply andb_true_iff in H. destruct H as [H1 H2].
  apply Z.leb_le in H1. apply Z.leb_le in H2. lia.
Qed.

Lemma text_at_app pre s : text_at (pre ++ s) (List.length pre) = s.
Proof. unfold text_at. induction pre; simpl; auto. Qed.

Lemma text_at_plus input c n :
  text_at input (c + n) = skipn n (text_at input c).
Proof.
  unfold text_at. rewrite skipn_skipn. f_equal. apply Nat.add_comm.
Qed.

Lemma skipn_length_app {A} (l r : list A) : skipn (List.length l) (l ++ r) = r.
Proof. induction l; simpl; auto. Qed.

Lemma span_len_app p l rest :
  forallb p l = true -> p (peek rest) = false ->
  span_len p (l ++ rest) = List.length l.
Proof.
  intros Hl Hr. induction l as [|c l IH]; simpl in *.
  - destruct rest as [|c t]; simpl in *; auto. now rewrite Hr.
  - apply andb_true_iff in Hl. destruct Hl as [Hc Hl].
    rewrite Hc. f_equal. auto.
Qed.

Lemma span_len_stop p s : p (peek s) = false -> span_len p s = O.
Proof. destruct s as [|c t]; simpl; auto. intros ->. reflexivity. Qed.

Lemma accumulate_decimal_app digits rest acc :
  forallb isdigit digits = true -> isdigit (peek rest) = false ->
  libc.accumulate_decimal (digits ++ rest) acc
  = acc * 10 ^ Z.of_nat (List.length digits) + decimal_value digits.
Proof.
  intros Hd Hr. revert acc.
  induction digits as [|d t IH]; intros acc.
  - simpl. destruct rest as [|c r]; simpl in *.
    + lia.
    + rewrite Hr. lia.
  - simpl in Hd. apply andb_true_iff in Hd. destruct Hd as [Hd Ht].
    cbn [app libc.accumulate_decimal decimal_value List.length].
    rewrite Hd, IH by assumption.
    unfold libc.digit_value.
    rewrite Nat2Z.inj_succ, Z.pow_succ_r by lia. ring.
Qed.

Lemma decimal_value_nonneg digits :
  forallb isdigit digits = true -> 0 <= decimal_value digits.
Proof.
  induction digits as [|d t IH]; simpl; intros H.
  - lia.
  - apply andb_true_iff in H. destruct H as [Hd Ht].
    pose proof (isdigit_digit_value d Hd) as Hv. unfold libc.digit_value in Hv.
    specialize (IH Ht).
    assert (0 <= 10 ^ Z.of_nat (List.length t)) by (apply Z.pow_nonneg; lia).
    nia.
Qed.

Lemma here_at pre s e : here (pre ++ s) (mk_lexer (List.length pre) e) = s.
Proof. unfold here. cbn [cursor]. apply text_at_app. Qed.

Lemma here_advance input n st :
  here input (advance n st) = skipn n (here input st).
Proof. unfold here, advance, set_cursor. cbn [cursor]. apply text_at_plus. Qed.

Lemma peek_sign_digits sign digits rest :
  digits <> [] -> forallb isdigit digits = true ->
  isspace (peek (sign_text sign ++ digits ++ rest)) = false
  /\ Ascii.eqb (peek (sign_text sign ++ digits ++ rest)) "x" = false.
Proof.
  intros Hne Hd. destruct sign; cbn; auto.
  destruct digits as [|d t]; [congruence|]. cbn in *.
  apply andb_true_iff in Hd. destruct Hd as [Hd _].
  split; [now apply isdigit_not_space | now apply isdigit_not_x].
Qed.

Lemma sign_len_literal sign digits rest :
  digits <> [] -> forallb isdigit digits = true ->
  libc.sign_len (sign_text sign ++ digits ++ rest) = List.length (sign_text sign)
  /\ libc.is_minus (peek (sign_text sign ++ digits ++ rest))
     = match sign with MinusSign => true | _ => false end.
Proof.
  intros Hne Hd. destruct sign; cbn; auto.
  destruct digits as [|d t]; [congruence|]. cbn in *.
  apply andb_true_iff in Hd. destruct Hd as [Hd _].
  destruct (isdigit_not_sign d Hd) as [Hm Hp].
  unfold libc.sign_len. cbn. rewrite Hm, Hp. auto.
Qed.

Lemma length_nonempty {A} (l : list A) : l <> [] -> Nat.eqb (List.length l) 0 = false.
Proof. destruct l; [congruence | reflexivity]. Qed.

(** What [strtoll] does on a decimal literal. *)
Lemma strtoll_literal sign digits rest :
  digits <> [] -> forallb isdigit digits = true ->
  isdigit (peek rest) = false ->
  libc.strtoll (sign_text sign ++ digits ++ rest)
  = let v := literal_value sign digits in
    let n := (List.length (sign_text sign) + List.length digits)%nat in
    if v <? libc.LLONG_MIN then libc.mk_conversion libc.LLONG_MIN n true
    else if libc.LLONG_MAX <? v then libc.mk_conversion libc.LLONG_MAX n true
    else libc.mk_conversion v n false.
Proof.
  intros Hne Hd Hr.
  destruct (peek_sign_digits sign digits rest Hne Hd) as [Hsp _].
  destruct (sign_len_literal sign digits rest Hne Hd) as [Hsl Hneg].
  unfold libc.strtoll.
  rewrite (span_len_stop isspace _ Hsp). cbn [skipn].
  rewrite Hsl, Hneg, skipn_length_app.
  rewrite (span_len_app isdigit digits rest Hd Hr).
  rewrite (length_nonempty digits Hne).
  rewrite accumulate_decimal_app by assumption.
  cbn zeta. unfold literal_value.
  destruct sign; cbn [Nat.add]; rewrite Z.mul_0_l, Z.add_0_l; reflexivity.
Qed.

(** What [strtoull] does on a decimal literal without a minus sign. *)
Lemma strtoull_literal sign digits rest :
  sign <> MinusSign ->
  digits <> [] -> forallb isdigit digits = true ->
  isdigit (peek rest) = false ->
  libc.strtoull (sign_text sign ++ digits ++ rest)
  = let v := decimal_value digits in
    let n := (List.length (sign_text sign) + List.length digits)%nat in
    if libc.ULLONG_MAX <? v then libc.mk_conversion libc.ULLONG_MAX n true
    else libc.mk_conversion v n false.
Proof.
  intros Hs Hne Hd Hr.
  destruct (peek_sign_digits sign digits rest Hne Hd) as [Hsp _].
  destruct (sign_len_literal sign digits rest Hne Hd) as [Hsl Hneg].
  unfold libc.strtoull.
  rewrite (span_len_stop isspace _ Hsp). cbn [skipn].
  rewrite Hsl, Hneg, skipn_length_app.
  rewrite (span_len_app isdigit digits rest Hd Hr).
  rewrite (length_nonempty digits Hne).
  rewrite accumulate_decimal_app by assumption.
  cbn zeta. rewrite Z.mul_0_l, Z.add_0_l.
  destruct sign; try congruence; reflexivity.
Qed.

(** [parse_value] first moves the cursor over the white space. *)
Lemma parse_value_skips pre ws text mode e :
  forallb isspace ws = true -> isspace (peek text) = false ->
  let input := pre ++ ws ++ text in
  let st0 := mk_lexer (List.length pre + List.length ws) e in
  here input st0 = text
  /\ parse_value input mode (mk_lexer (List.length pre) e)
     = match (if Ascii.eqb (peek text) "x"
              then parse_hex_member input mode
              else parse_decimal_member input mode) st0 with
       | Return bits st =>
           if errno_ERANGE st
           then Throw range_error (set_cursor (set_errno st false) (cursor st0))
           else if Nat.eqb (cursor st0) (cursor st)
           then Return INVALID_VALUE st
           else Return (mk_value (Some mode) bits) st
       | Throw e st => Throw e st
       | Undefined => Undefined
       | NoFuel => NoFuel
       end.
Proof.
  intros Hws Htext input st0.
  assert (Hhere : here input st0 = text).
  { unfold input, st0. rewrite app_assoc, <- length_app. apply here_at. }
  split; [exact Hhere|].
  unfold parse_value, bind, skip_whitespace.
  replace (here input (mk_lexer (List.length pre) e)) with (ws ++ text)
    by (symmetry; apply here_at).
  rewrite (span_len_app isspace ws text Hws Htext).
  change (advance (List.length ws) (mk_lexer (List.length pre) e)) with st0.
  rewrite Hhere. reflexivity.
Qed.

Ltac run_lexer :=
  cbv beta iota zeta
    delta [bind ret throw set_ERANGE set_errno set_cursor advance convert
           errno_ERANGE cursor orb andb negb
           libc.conv_value libc.conv_erange libc.conv_consumed].

Lemma minus_guard_false sign digits rest :
  sign <> MinusSign -> digits <> [] -> forallb isdigit digits = true ->
  Ascii.eqb (peek (sign_text sign ++ digits ++ rest)) "-" = false.
Proof.
  intros Hs Hne Hd.
  destruct (sign_len_literal sign digits rest Hne Hd) as [_ Hneg].
  unfold libc.is_minus in Hneg. rewrite Hneg.
  destruct sign; congruence.
Qed.

Lemma parse_int_out_of_range input st sign digits rest min max :
  here input st = sign_text sign ++ digits ++ rest ->
  digits <> [] -> forallb isdigit digits = true ->
  isdigit (peek rest) = false ->
  libc.LLONG_MIN <= min -> max <= libc.LLONG_MAX ->
  literal_value sign digits < min \/ max < literal_value sign digits ->
  exists v st',
    parse_int input min max st = Return v st' /\ errno_ERANGE st' = true.
Proof.
  intros Hhere Hne Hd Hr Hmin Hmax Hout.
  unfold parse_int, convert, bind.
  rewrite Hhere, strtoll_literal by assumption. cbv zeta.
  destruct (Z.ltb_spec (literal_value sign digits) libc.LLONG_MIN) as [H1|H1];
    [|destruct (Z.ltb_spec libc.LLONG_MAX (literal_value sign digits))
        as [H2|H2]];
    cbn [libc.conv_value libc.conv_erange libc.conv_consumed orb].
  1-2: match goal with
       | |- context [if ?b then _ else _] => destruct b
       end; run_lexer; eauto.
  destruct (Z.ltb_spec (literal_value sign digits) min);
    [run_lexer; eauto|].
  destruct (Z.ltb_spec max (literal_value sign digits));
    [run_lexer; eauto|].
  exfalso; lia.
Qed.

Lemma parse_uint_out_of_range input st sign digits rest max :
  here input st = sign_text sign ++ digits ++ rest ->
  digits <> [] -> forallb isdigit digits = true ->
  isdigit (peek rest) = false ->
  max <= libc.ULLONG_MAX ->
  literal_value sign digits < 0 \/ max < literal_value sign digits ->
  exists v st',
    parse_uint input max st = Return v st' /\ errno_ERANGE st' = true.
Proof.
  intros Hhere Hne Hd Hr Hmax Hout.
  unfold parse_uint. rewrite Hhere.
  destruct sign eqn:Hsign.
  - rewrite minus_guard_false by (assumption || congruence).
    cbn [andb]. unfold convert, bind.
    rewrite Hhere, strtoull_literal by (assumption || congruence). cbv zeta.
    pose proof (decimal_value_nonneg digits Hd).
    cbn [literal_value] in Hout.
    destruct (Z.ltb_spec libc.ULLONG_MAX (decimal_value digits));
      cbn [libc.conv_value libc.conv_erange libc.conv_consumed orb].
    { match goal with
      | |- context [if ?b then _ else _] => destruct b
      end; run_lexer; eauto. }
    destruct (Z.ltb_spec max (decimal_value digits)); [run_lexer; eauto|].
    exfalso; lia.
  - rewrite minus_guard_false by (assumption || congruence).
    cbn [andb]. unfold convert, bind.
    rewrite Hhere, strtoull_literal by (assumption || congruence). cbv zeta.
    pose proof (decimal_value_nonneg digits Hd).
    cbn [literal_value] in Hout.
    destruct (Z.ltb_spec libc.ULLONG_MAX (decimal_value digits));
      cbn [libc.conv_value libc.conv_erange libc.conv_consumed orb].
    { match goal with
      | |- context [if ?b then _ else _] => destruct b
      end; run_lexer; eauto. }
    destruct (Z.ltb_spec max (decimal_value digits)); [run_lexer; eauto|].
    exfalso; lia.
  - destruct digits as [|d t]; [congruence|].
    cbn in Hd. apply andb_true_iff in Hd. destruct Hd as [Hd _].
    cbn [sign_text app peek hd skipn]. cbn [Ascii.eqb Bool.eqb andb].
    change (Ascii.eqb "-" "-") with true. cbn [andb]. rewrite Hd.
    run_lexer. eauto.
Qed.

Ltac run_fault :=
  intros;
  match goal with
  | v : bool |- _ => destruct v
  | _ => idtac
  end;
  vm_compute; reflexivity.

(** C4. Under every integer encoding, a decimal literal (optional sign,
    digits) whose value is outside the encoding's exact range makes
    [parse_value] throw [range_error] with the cursor put back at the first
    character of the literal, after the white space that precedes it, and
    not at its end.  [handle_input] prints its caret at the cursor the
    exception left: under s8, at the [1] of [128]. *)
Theorem decimal_literal_out_of_range :
  (forall mode pre ws sign digits rest,
      is_integer mode = true ->
      forallb isspace ws = true ->
      digits <> [] ->
      forallb isdigit digits = true ->
      isdigit (peek rest) = false ->
      literal_value sign digits < encoding_min mode
      \/ encoding_max mode < literal_value sign digits ->
      parse_value (pre ++ ws ++ sign_text sign ++ digits ++ rest) mode
        (mk_lexer (List.length pre) false)
      = Throw range_error
          (mk_lexer (List.length pre + List.length ws) false))
  /\ (forall verbose,
        handle_input verbose (cstr "128") S8 start
        = Return false
            (mk_machine (mk_lexer 0 false) []
               [Caret 0 "Value out of range"]))
  /\ (forall verbose,
        handle_input verbose (cstr "(1 +  128) * 2") S8 start
        = Return false
            (mk_machine (mk_lexer 6 false) []
               [Caret 6 "Value out of range"])).
Proof.
  split; [|split; run_fault].
  intros mode pre ws sign digits rest Hint Hws Hne Hd Hr Hout.
  destruct (peek_sign_digits sign digits rest Hne Hd) as [Hsp Hx].
  destruct (parse_value_skips pre ws (sign_text sign ++ digits ++ rest)
              mode false Hws Hsp) as [Hhere ->].
  rewrite Hx.
  set (input := pre ++ ws ++ sign_text sign ++ digits ++ rest) in *.
  set (st0 := mk_lexer (List.length pre + List.length ws) false) in *.
  assert (Hmember : exists bits st',
             parse_decimal_member input mode st0 = Return bits st'
             /\ errno_ERANGE st' = true).
  { destruct mode; try discriminate Hint;
      unfold parse_decimal_member, bind;
      unfold encoding_min, encoding_max in Hout;
      cbn [is_signed width Z.sub Z.add Z.opp Z.pow Z.pow_pos Pos.iter Z.mul
           Pos.mul Pos.add Pos.succ Pos.pred_double Z.pos_sub Pos.sub] in Hout.
    1-4: edestruct (parse_int_out_of_range input st0 sign digits rest)
           as (v & st' & -> & He);
         [eassumption | assumption | assumption | assumption
         | | | exact Hout | unfold ret; eauto];
         discriminate.
    all: edestruct (parse_uint_out_of_range input st0 sign digits rest)
           as (v & st' & -> & He);
         [eassumption | assumption | assumption | assumption
         | | exact Hout | unfold ret; eauto];
         discriminate. }
  destruct Hmember as (bits & st' & -> & ->).
  reflexivity.
Qed.

Lemma decimal_literal_out_of_range_witness :
  parse_value (cstr "  128") S8 (mk_lexer 0 false)
  = Throw range_error (mk_lexer 2 false).
Proof.
  destruct decimal_literal_out_of_range as [H _].
  apply (H S8 [] (cstr "  ") NoSign (cstr "128") []);
    try reflexivity; [discriminate | right; vm_compute; reflexivity].
Defined.

(** C8. Under every unsigned encoding a decimal literal that begins with
    [-] followed by a digit is rejected whatever the digits are, [-0]
    included: the fault is [range_error], reported at the [-].  Under u8,
    [-1] is such a fault at offset 0. *)
Theorem unsigned_minus_rejected :
  (forall mode pre ws d rest,
      is_unsigned mode = true ->
      forallb isspace ws = true ->
      isdigit d = true ->
      parse_value (pre ++ ws ++ "-"%char :: d :: rest) mode
        (mk_lexer (List.length pre) false)
      = Throw range_error
          (mk_lexer (List.length pre + List.length ws) false))
  /\ (forall verbose,
        handle_input verbose (cstr "-1") U8 start
        = Return false
            (mk_machine (mk_lexer 0 false) []
               [Caret 0 "Value out of range"]))
  /\ (forall verbose,
        handle_input verbose (cstr "5 - -0") U64 start
        = Return false
            (mk_machine (mk_lexer 4 false) []
               [Caret 4 "Value out of range"])).
Proof.
  split; [|split; run_fault].
  intros mode pre ws d rest Hmode Hws Hd.
  destruct (parse_value_skips pre ws ("-"%char :: d :: rest) mode false Hws
              eq_refl) as [Hhere ->].
  cbn [peek hd]. change (Ascii.eqb "-" "x") with false. cbv iota.
  destruct mode; try discriminate Hmode;
    unfold parse_decimal_member, parse_uint, bind;
    rewrite Hhere; cbn [peek hd skipn];
    change (Ascii.eqb "-" "-") with true; rewrite Hd;
    reflexivity.
Qed.

Lemma unsigned_minus_rejected_witness :
  parse_value (cstr "-1") U8 (mk_lexer 0 false)
  = Throw range_error (mk_lexer 0 false)
  /\ parse_value (cstr " -0") U64 (mk_lexer 0 false)
     = Throw range_error (mk_lexer 1 false).
Proof.
  destruct unsigned_minus_rejected as [H _].
  split.
  - apply (H U8 [] [] "1"%char []); reflexivity.
  - apply (H U64 [] (cstr " ") "0"%char []); reflexivity.
Defined.

(** ** Hexadecimal literals *)

Lemma digit_to_int_bounds c : 0 <= digit_to_int c <= 15.
Proof. ascii_cases c; split; discriminate. Qed.

Lemma hex_value_bounds digits :
  0 <= hex_value digits < 16 ^ Z.of_nat (List.length digits).
Proof.
  induction digits as [|d t IH].
  - cbn. lia.
  - cbn [hex_value List.length]. rewrite Nat2Z.inj_succ, Z.pow_succ_r by lia.
    pose proof (digit_to_int_bounds d). nia.
Qed.

Lemma advance_advance a b st : advance a (advance b st) = advance (b + a) st.
Proof.
  unfold advance, set_cursor. cbn [cursor errno_ERANGE]. f_equal. lia.
Qed.

(** The digit loop when the digits fit: every digit is accumulated. *)
Lemma strtox_digits_fit input rest :
  isxdigit (peek rest) = false ->
  forall t d remaining value st,
    forallb isxdigit (d :: t) = true ->
    (List.length t < remaining)%nat ->
    here input st = (d :: t) ++ rest ->
    0 <= value ->
    (value + digit_to_int d) * 16 ^ Z.of_nat (List.length t) + hex_value t
    < 2 ^ 64 ->
    strtox_digits input remaining value st
    = Return ((value + digit_to_int d) * 16 ^ Z.of_nat (List.length t)
              + hex_value t)
        (advance (S (List.length t)) st).
Proof.
  intros Hrest t.
  induction t as [|d2 t' IH]; intros d remaining value st Hx Hlen Hhere Hv Hb;
    (destruct remaining as [|remaining]; [cbn in Hlen; lia|]);
    cbn [strtox_digits]; rewrite Hhere; cbn [app peek hd];
    rewrite here_advance, Hhere; cbn [skipn app];
    pose proof (digit_to_int_bounds d) as Hdb.
  - cbn [List.length hex_value Z.of_nat] in *.
    rewrite Z.pow_0_r, Z.mul_1_r, Z.add_0_r in *.
    change (hd NUL rest) with (peek rest). rewrite Hrest. cbn [negb].
    rewrite Z.mod_small by lia. reflexivity.
  - cbn [hd].
    cbn in Hx. apply andb_true_iff in Hx. destruct Hx as [Hd Hx].
    apply andb_true_iff in Hx. destruct Hx as [Hd2 Ht'].
    change (peek (d2 :: t' ++ rest)) with d2.
    rewrite Hd2. cbn [negb].
    pose proof (digit_to_int_bounds d2) as Hd2b.
    pose proof (hex_value_bounds t') as Htb.
    cbn [hex_value List.length] in Hb |- *.
    rewrite Nat2Z.inj_succ, Z.pow_succ_r in Hb |- * by lia.
    set (P := 16 ^ Z.of_nat (List.length t')) in *.
    assert (HP : 0 < P) by (apply Z.pow_pos_nonneg; lia).
    rewrite (Z.mod_small (value + digit_to_int d)) by nia.
    rewrite Z.shiftl_mul_pow2 by lia. change (2 ^ 4) with 16.
    rewrite Z.mod_small by nia.
    rewrite (IH d2 remaining ((value + digit_to_int d) * 16) (advance 1 st)).
    + rewrite advance_advance. f_equal. ring.
    + cbn. now rewrite Hd2, Ht'.
    + cbn [List.length] in Hlen. lia.
    + rewrite here_advance, Hhere. reflexivity.
    + nia.
    + fold P. nia.
Qed.

(** The digit loop when there are more digits than allowed: after
    [remaining] digits it gives up with [ERANGE]. *)
Lemma strtox_digits_overflow input rest :
  forall remaining sig value st,
    forallb isxdigit sig = true ->
    (remaining < List.length sig)%nat ->
    here input st = sig ++ rest ->
    strtox_digits input remaining value st
    = Return 0 (set_errno (advance remaining st) true).
Proof.
  induction remaining as [|remaining IH]; intros sig value st Hx Hlen Hhere.
  - cbn. unfold advance, set_cursor, set_errno. cbn.
    rewrite Nat.add_0_r. reflexivity.
  - destruct sig as [|d [|d2 t]]; cbn in Hlen; try lia.
    cbn [strtox_digits]. rewrite here_advance, Hhere. cbn [skipn app peek hd].
    cbn in Hx. apply andb_true_iff in Hx. destruct Hx as [_ Hx].
    apply andb_true_iff in Hx. destruct Hx as [Hd2 Ht].
    rewrite Hd2. cbn [negb].
    rewrite (IH (d2 :: t) _ (advance 1 st)).
    + unfold advance, set_cursor, set_errno. cbn. do 2 f_equal. lia.
    + cbn. now rewrite Hd2, Ht.
    + cbn. lia.
    + rewrite here_advance, Hhere. reflexivity.
Qed.

Lemma is_zero_digit_isxdigit c : is_zero_digit c = true -> isxdigit c = true.
Proof. ascii_cases c. Qed.

Lemma peek_app_nonempty (l r : list ascii) : l <> [] -> peek (l ++ r) = peek l.
Proof. destruct l; [congruence | reflexivity]. Qed.

Lemma forallb_peek p (l : list ascii) :
  l <> [] -> forallb p l = true -> p (peek l) = true.
Proof.
  destruct l; [congruence|]. cbn. intros _ H.
  apply andb_true_iff in H. tauto.
Qed.

(** What [strtox] does on [x], zeros, significant digits. *)
Lemma strtox_spec input st n zeros sig rest :
  (n <= 16)%nat ->
  here input st = "x"%char :: zeros ++ sig ++ rest ->
  forallb is_zero_digit zeros = true ->
  forallb isxdigit sig = true ->
  is_zero_digit (peek sig) = false ->
  zeros ++ sig <> [] ->
  isxdigit (peek rest) = false ->
  strtox input n st
  = if (List.length sig <=? n)%nat
    then Return (hex_value sig)
           (advance (1 + List.length zeros + List.length sig) st)
    else Return 0 (set_errno (advance (1 + List.length zeros + n) st) true).
Proof.
  intros Hn Hhere Hz Hx Hfirst Hne Hrest.
  assert (Hstop : is_zero_digit (peek (sig ++ rest)) = false).
  { destruct sig as [|d t]; [|exact Hfirst].
    cbn [app]. destruct (is_zero_digit (peek rest)) eqn:E; auto.
    apply is_zero_digit_isxdigit in E. congruence. }
  assert (Hsecond : isxdigit (peek (zeros ++ sig ++ rest)) = true).
  { rewrite app_assoc, peek_app_nonempty by assumption.
    apply forallb_peek; [assumption|].
    rewrite forallb_app, Hx, andb_true_r.
    rewrite forallb_forall in *. intros c Hc.
    apply is_zero_digit_isxdigit. auto. }
  unfold strtox. rewrite Hhere. cbn [peek hd skipn].
  change (Ascii.eqb "x" "x") with true.
  change (hd NUL (zeros ++ sig ++ rest)) with (peek (zeros ++ sig ++ rest)).
  rewrite Hsecond. cbn [negb orb].
  rewrite !here_advance, Hhere. cbn [skipn].
  change (fun c : ascii => Ascii.eqb c "0") with is_zero_digit.
  rewrite (span_len_app is_zero_digit zeros (sig ++ rest) Hz Hstop).
  rewrite skipn_length_app, advance_advance.
  destruct sig as [|d t].
  - cbn [app]. rewrite Hrest. cbn. rewrite Nat.add_0_r. reflexivity.
  - rewrite (peek_app_nonempty (d :: t) rest) by discriminate.
    rewrite (forallb_peek isxdigit (d :: t)) by (discriminate || assumption).
    cbn [negb].
    assert (Hh : here input (advance (1 + List.length zeros) st)
                 = (d :: t) ++ rest).
    { rewrite here_advance, Hhere. cbn [Nat.add skipn].
      apply skipn_length_app. }
    destruct (Nat.leb_spec (List.length (d :: t)) n) as [Hle|Hgt].
    + pose proof (hex_value_bounds (d :: t)) as Hb.
      assert (16 ^ Z.of_nat (List.length (d :: t)) <= 16 ^ 16)
        by (apply Z.pow_le_mono_r; lia).
      cbn [List.length hex_value] in Hb, H, Hle |- *.
      rewrite (strtox_digits_fit input rest Hrest t d n 0
                 (advance (1 + List.length zeros) st));
        try assumption; try lia.
      rewrite Z.add_0_l, advance_advance. reflexivity.
    + rewrite (strtox_digits_overflow input rest n (d :: t) 0
                 (advance (1 + List.length zeros) st));
        try assumption.
      rewrite advance_advance. reflexivity.
Qed.

(** C7. A hexadecimal literal is [x], leading zeros, then significant
    digits.  Under every encoding: if the number of significant digits is
    at most the width of the encoding in hexadecimal digits, [parse_value]
    returns the value of those digits and leaves the cursor behind the
    literal; with even one digit more it throws [range_error] (with the
    cursor back at the [x]).  Under u8, [x00ff] is 255 and [x100] a range
    fault. *)
Theorem hex_literal_width :
  (forall mode pre ws zeros sig rest,
      forallb isspace ws = true ->
      forallb is_zero_digit zeros = true ->
      forallb isxdigit sig = true ->
      is_zero_digit (peek sig) = false ->
      zeros ++ sig <> [] ->
      isxdigit (peek rest) = false ->
      parse_value (pre ++ ws ++ "x"%char :: zeros ++ sig ++ rest) mode
        (mk_lexer (List.length pre) false)
      = if (List.length sig <=? hex_width mode)%nat
        then Return (mk_value (Some mode) (hex_value sig))
               (mk_lexer (List.length pre + List.length ws
                          + (1 + List.length zeros + List.length sig)) false)
        else Throw range_error
               (mk_lexer (List.length pre + List.length ws) false))
  /\ handle_input false (cstr "x00ff") U8 start
     = Return true
         (mk_machine (mk_lexer 6 false)
            [ResultLine (mk_value (Some U8) 255)] [])
  /\ handle_input false (cstr "x100") U8 start
     = Return false
         (mk_machine (mk_lexer 0 false) [] [Caret 0 "Value out of range"]).
Proof.
  split; [|split; vm_compute; reflexivity].
  intros mode pre ws zeros sig rest Hws Hz Hx Hfirst Hne Hrest.
  destruct (parse_value_skips pre ws ("x"%char :: zeros ++ sig ++ rest)
              mode false Hws eq_refl) as [Hhere ->].
  cbn [peek hd]. change (Ascii.eqb "x" "x") with true. cbv iota.
  set (input := pre ++ ws ++ "x"%char :: zeros ++ sig ++ rest) in *.
  set (st0 := mk_lexer (List.length pre + List.length ws) false) in *.
  assert (Hmember :
            parse_hex_member input mode st0
            = (v <- strtox input (hex_width mode) ;;
               ret (to_bits (width mode) v)) st0)
    by (destruct mode; reflexivity).
  rewrite Hmember. unfold bind.
  rewrite (strtox_spec input st0 (hex_width mode) zeros sig rest);
    try assumption; [|destruct mode; cbn; lia].
  destruct (Nat.leb_spec (List.length sig) (hex_width mode)) as [Hle|Hgt].
  - pose proof (hex_value_bounds sig) as Hb.
    assert (Hw : 16 ^ Z.of_nat (hex_width mode) = 2 ^ width mode)
      by (destruct mode; reflexivity).
    assert (16 ^ Z.of_nat (List.length sig) <= 16 ^ Z.of_nat (hex_width mode))
      by (apply Z.pow_le_mono_r; lia).
    unfold ret, to_bits. rewrite Z.mod_small by lia.
    unfold advance, set_cursor, st0. cbn [cursor errno_ERANGE].
    replace (Nat.eqb _ _) with false; [reflexivity|].
    symmetry. apply Nat.eqb_neq. lia.
  - reflexivity.
Qed.

Lemma hex_literal_width_witness :
  parse_value (cstr " x0fF+1") S8 (mk_lexer 0 false)
  = Return (mk_value (Some S8) 255) (mk_lexer 5 false)
  /\ parse_value (cstr " x0fF1+1") U8 (mk_lexer 0 false)
     = Throw range_error (mk_lexer 1 false)
  /\ parse_value (cstr "x000") F32 (mk_lexer 0 false)
     = Return (mk_value (Some F32) 0) (mk_lexer 4 false).
Proof.
  destruct hex_literal_width as [H _].
  split; [|split].
  - apply (H S8 [] (cstr " ") (cstr "0") (cstr "fF") (cstr "+1"));
      (reflexivity || discriminate).
  - apply (H U8 [] (cstr " ") (cstr "0") (cstr "fF1") (cstr "+1"));
      (reflexivity || discriminate).
  - apply (H F32 [] [] (cstr "000") [] []);
      (reflexivity || discriminate).
Defined.

(** ** Precedence and associativity *)

Ltac run_line :=
  intros; unfold handle_input, evaluate;
  match goal with
  | |- context [if ?v then _ else _] => destruct v
  | _ => idtac
  end;
  cbv -[List.app]; rewrite <- ?app_assoc; reflexivity.

(** C1. Under u32, with or without tracing, [2 + 3 * 4] evaluates to 14
    (the product is formed first) and [(2 + 3) * 4] to 20; both lines are
    consumed up to and including the terminating NUL. *)
Theorem precedence_u32 :
  forall verbose c out err,
    handle_input verbose (cstr "2 + 3 * 4") U32
      (mk_machine (mk_lexer c false) out err)
    = Return true
        (mk_machine (mk_lexer 10 false)
           (out
            ++ (if verbose
                then [TraceBinary MULTIPLY (mk_value (Some U32) 3)
                        (mk_value (Some U32) 4) (mk_value (Some U32) 12);
                      TraceBinary ADD (mk_value (Some U32) 2)
                        (mk_value (Some U32) 12) (mk_value (Some U32) 14)]
                else [])
            ++ [ResultLine (mk_value (Some U32) 14)])
           err)
    /\ handle_input verbose (cstr "(2 + 3) * 4") U32
         (mk_machine (mk_lexer c false) out err)
       = Return true
           (mk_machine (mk_lexer 12 false)
              (out
               ++ (if verbose
                   then [TraceBinary ADD (mk_value (Some U32) 2)
                           (mk_value (Some U32) 3) (mk_value (Some U32) 5);
                         TraceBinary MULTIPLY (mk_value (Some U32) 5)
                           (mk_value (Some U32) 4) (mk_value (Some U32) 20)]
                   else [])
               ++ [ResultLine (mk_value (Some U32) 20)])
              err)
    /\ format_dec (mk_value (Some U32) 14) = Some "14"%string
    /\ format_dec (mk_value (Some U32) 20) = Some "20"%string.
Proof.
  intros verbose c out err. repeat split; try reflexivity.
  - run_line.
  - run_line.
Qed.

(** C2. Under s32, with or without tracing, [10 - 3 - 2] evaluates to 5:
    the trace shows [10 - 3 = 7] first and [7 - 2 = 5] after it.  The
    reason is the loop test: entered with an operator whose precedence
    equals the minimum precedence (the right-hand parse of the first [-]
    meeting the second [-]), the loop returns at once and hands the
    operator back to its caller. *)
Theorem left_to_right_s32 :
  forall verbose c out err,
    handle_input verbose (cstr "10 - 3 - 2") S32
      (mk_machine (mk_lexer c false) out err)
    = Return true
        (mk_machine (mk_lexer 11 false)
           (out
            ++ (if verbose
                then [TraceBinary SUBTRACT (mk_value (Some S32) 10)
                        (mk_value (Some S32) 3) (mk_value (Some S32) 7);
                      TraceBinary SUBTRACT (mk_value (Some S32) 7)
                        (mk_value (Some S32) 2) (mk_value (Some S32) 5)]
                else [])
            ++ [ResultLine (mk_value (Some S32) 5)])
           err)
    /\ format_dec (mk_value (Some S32) 5) = Some "5"%string
    /\ (forall input mode fuel sentinel op value m,
          expression_loop verbose input mode (S fuel) sentinel
            (precedence (operator_table op)) value op m
          = Return (value, op) m).
Proof.
  intros verbose c out err. split; [|split].
  - run_line.
  - reflexivity.
  - intros. cbn [expression_loop]. rewrite Z.leb_refl. reflexivity.
Qed.

(** ** Integer arithmetic *)

Lemma read_int_range mode raw :
  is_integer mode = true ->
  encoding_min mode <= read_int (is_signed mode) (width mode) raw
  <= encoding_max mode.
Proof.
  intros Hint.
  destruct mode; try discriminate Hint;
    unfold read_int, read_signed, read_unsigned, encoding_min, encoding_max;
    cbn [is_signed width];
    match goal with
    | |- context [raw mod ?k] =>
        let H := fresh in
        assert (H : 0 <= raw mod k < k)
          by (apply Z.mod_pos_bound; reflexivity);
        change k with (Z.pow_pos 2 (Z.to_pos (Z.log2 k))) in H |- *
    end.
  all: try match goal with
       | |- context [if ?c then _ else _] => destruct c eqn:E;
           [apply Z.ltb_lt in E | apply Z.ltb_ge in E]
       end.
  all: cbn in *; lia.
Qed.

Lemma quot_abs_le a b : b <> 0 -> Z.abs (Z.quot a b) <= Z.abs a.
Proof.
  intros Hb. rewrite <- Z.quot_abs by assumption.
  apply Z.quot_le_upper_bound; [lia | nia].
Qed.

Lemma quot_abs_lt a b k :
  2 <= Z.abs b -> 2 <= k -> Z.abs a <= k -> Z.abs (Z.quot a b) <= k - 1.
Proof.
  intros Hb Hk Ha. rewrite <- Z.quot_abs by lia.
  apply Z.quot_le_upper_bound; [lia | nia].
Qed.

Lemma quot_representable mode a b :
  is_integer mode = true ->
  encoding_min mode <= a <= encoding_max mode ->
  encoding_min mode <= b <= encoding_max mode ->
  b <> 0 ->
  quotient_overflows mode a b = false ->
  promoted_representable (is_signed mode) (width mode) (Z.quot a b) = true.
Proof.
  intros Hint Ha Hb Hnz Hov.
  pose proof (quot_abs_le a b Hnz) as Hq.
  unfold promoted_representable, representable, promoted_signed,
    promoted_width.
  destruct mode; try discriminate Hint;
    unfold encoding_min, encoding_max, quotient_overflows in *;
    cbn -[Z.quot Z.abs] in *;
    apply andb_true_iff;
    (split; [apply Z.leb_le | apply Z.ltb_lt]);
    try lia;
    try (assert (0 <= Z.quot a b) by (apply Z.quot_pos; lia); lia).
  all: destruct (Z.eq_dec b 1) as [Hb1|Hb1];
    [rewrite Hb1, Z.quot_1_r; lia|].
  all: destruct (Z.eq_dec b (-1)) as [Hb2|Hb2];
    [ rewrite Hb2 in Hov |- *; cbn [Z.eqb Pos.eqb] in Hov;
      rewrite andb_true_r in Hov; apply Z.eqb_neq in Hov;
      change (-1) with (- (1)); rewrite Z.quot_opp_r, Z.quot_1_r by lia; lia
    | ].
  - pose proof (quot_abs_lt a b 2147483648 ltac:(lia) ltac:(lia) ltac:(lia)).
    lia.
  - pose proof (quot_abs_lt a b 9223372036854775808
                  ltac:(lia) ltac:(lia) ltac:(lia)).
    lia.
Qed.

(** C3 (as stated) fails for division: under s32 the quotient of
    [-2147483648] by [-1] is 2147483648, which reduced modulo [2^32] is
    the pattern [x80000000], but the division has no defined result
    (the x86 [idiv] traps); likewise a zero divisor yields no value. *)
Lemma division_does_not_wrap :
  binary.evaluate_operator_integer true 32 DIVIDE
    (to_bits 32 INT32_MIN) (to_bits 32 (-1))
  <> Success (to_bits 32 (Z.quot INT32_MIN (-1)))
  /\ handle_input false (cstr "-2147483648 / -1") S32 start = Undefined
  /\ handle_input false (cstr "1 / 0") U8 start = Undefined.
Proof.
  split; [|split].
  - vm_compute. discriminate.
  - vm_compute. reflexivity.
  - vm_compute. reflexivity.
Qed.

(** C3 (amended). Under every integer encoding of width [w], for all
    operand patterns: [+], [-], [*] and unary [-] yield the exact result
    reduced modulo [2^w]; [/] and [%] yield the truncated quotient and its
    remainder reduced modulo [2^w] whenever the divisor is not zero and the
    quotient is representable (it is not only for the least value of a
    signed 32- or 64-bit encoding divided by -1).  Under u8, [x00 - x01]
    gives 255, rendered [255] and [xff]. *)
Theorem integer_arithmetic_wraps :
  (forall verbose mode l r m,
      is_integer mode = true ->
      let w := width mode in
      let a := read_int (is_signed mode) w l in
      let b := read_int (is_signed mode) w r in
      let vl := mk_value (Some mode) l in
      let vr := mk_value (Some mode) r in
      let yields op z :=
        binary.evaluate_operator verbose op vl vr m
        = Return (mk_value (Some mode) (z mod 2 ^ w))
            (if verbose
             then print_stdout m
                    (TraceBinary op vl vr
                       (mk_value (Some mode) (z mod 2 ^ w)))
             else m) in
      yields ADD (a + b)
      /\ yields SUBTRACT (a - b)
      /\ yields MULTIPLY (a * b)
      /\ unary.evaluate_operator verbose NEGATE vl m
         = Return (mk_value (Some mode) ((- a) mod 2 ^ w))
             (if verbose
              then print_stdout m
                     (TraceUnary NEGATE vl
                        (mk_value (Some mode) ((- a) mod 2 ^ w)))
              else m)
      /\ (b <> 0 -> quotient_overflows mode a b = false ->
          yields DIVIDE (Z.quot a b) /\ yields MODULUS (Z.rem a b)))
  /\ (forall verbose c out err,
        handle_input verbose (cstr "x00 - x01") U8
          (mk_machine (mk_lexer c false) out err)
        = Return true
            (mk_machine (mk_lexer 10 false)
               (out
                ++ (if verbose
                    then [TraceBinary SUBTRACT (mk_value (Some U8) 0)
                            (mk_value (Some U8) 1) (mk_value (Some U8) 255)]
                    else [])
                ++ [ResultLine (mk_value (Some U8) 255)])
               err))
  /\ format_dec (mk_value (Some U8) 255) = Some "255"%string
  /\ format_hex (mk_value (Some U8) 255) = Some "xff"%string.
Proof.
  split; [|split; [|split; reflexivity]].
  - intros verbose mode l r m Hint w a b vl vr yields.
    pose proof (read_int_range mode l Hint) as Ha.
    pose proof (read_int_range mode r Hint) as Hb.
    fold w a in Ha. fold w b in Hb.
    assert (Hdiv : b <> 0 -> quotient_overflows mode a b = false ->
                   (b =? 0)
                   || negb (promoted_representable (is_signed mode) w
                              (Z.quot a b)) = false).
    { intros Hnz Hov.
      rewrite (proj2 (Z.eqb_neq b 0) Hnz).
      unfold w. rewrite (quot_representable mode a b) by assumption.
      reflexivity. }
    split; [|split; [|split; [|split]]].
    1-4: destruct mode; try discriminate Hint; destruct verbose; reflexivity.
    intros Hnz Hov; specialize (Hdiv Hnz Hov).
    split;
      subst yields; cbv beta;
      unfold binary.evaluate_operator, vl, vr;
      cbn [encoding payload binary.same_encoding negb];
      subst a b w;
      destruct mode; try discriminate Hint;
      cbn [encoding_eqb negb binary.evaluate_operator_integer];
      cbn [is_signed width] in *;
      rewrite Hdiv;
      destruct verbose; reflexivity.
  - run_line.
Qed.

Lemma integer_arithmetic_wraps_witness :
  binary.evaluate_operator false DIVIDE
    (mk_value (Some S8) 128) (mk_value (Some S8) 255) start
  = Return (mk_value (Some S8) 128) start.
Proof.
  destruct integer_arithmetic_wraps as [H _].
  destruct (H false S8 128 255 start eq_refl) as (_ & _ & _ & _ & Hd).
  destruct Hd as [Hq _]; [discriminate | reflexivity |].
  exact Hq.
Defined.

(** ** Floating-point encodings *)

(** C5 (as stated) fails: under f64 the overflowing literal [1e400] is
    not accepted as an infinity.  [strtod] reports the overflow through
    [errno], and [parse_value] tests [errno] after the conversion whatever
    the encoding is, so it throws [range_error] at the start of the
    literal; [1e39] under f32 does the same. *)
Lemma float_overflow_is_a_range_fault :
  parse_value (cstr "1e400") F64 (mk_lexer 0 false)
  = Throw range_error (mk_lexer 0 false)
  /\ parse_value (cstr "1e39") F32 (mk_lexer 0 false)
     = Throw range_error (mk_lexer 0 false)
  /\ handle_input false (cstr "1e400") F64 start
     = Return false
         (mk_machine (mk_lexer 0 false) []
            [Caret 0 "Value out of range"]).
Proof. repeat split; vm_compute; reflexivity. Qed.

(** C5 (amended). Under a float encoding a literal that does not start
    with [x] is converted by the native [strtof] or [strtod] of the
    requested width, and [parse_value] compares the value with no range of
    its own: it throws [range_error], at the start of the literal, exactly
    when the conversion itself reports a range error, and otherwise returns
    the converted value (or "no literal" when nothing was converted).  The
    conversion reports a range error for an overflowing literal such as
    [1e400]; the literal [inf] is accepted and yields the infinity. *)
Theorem float_literal_range :
  (forall double input c,
      let mode := float_mode double in
      let st0 :=
        mk_lexer (c + span_len isspace (text_at input c)) false in
      let r := native_conversion double (here input st0) in
      Ascii.eqb (peek (here input st0)) "x" = false ->
      parse_value input mode (mk_lexer c false)
      = if libc.conv_erange r then Throw range_error st0
        else if Nat.eqb (libc.conv_consumed r) 0
             then Return INVALID_VALUE st0
             else Return (mk_value (Some mode) (libc.conv_value r))
                    (advance (libc.conv_consumed r) st0))
  /\ libc.conv_erange (libc.strtod (cstr "1e400")) = true
  /\ libc.conv_erange (libc.strtof (cstr "1e39")) = true
  /\ parse_value (cstr "inf") F64 (mk_lexer 0 false)
     = Return (mk_value (Some F64)
                 (ieee.encode 53 1024 64 (S754_infinity false)))
         (mk_lexer 3 false)
  /\ parse_value (cstr "1.5") F64 (mk_lexer 0 false)
     = Return (mk_value (Some F64) 4609434218613702656) (mk_lexer 3 false)
  /\ format_hex (mk_value (Some F64) 4609434218613702656)
     = Some "x3ff8000000000000"%string.
Proof.
  split; [|repeat split; vm_compute; reflexivity].
  intros double input c mode st0 r Hx.
  unfold parse_value, bind, skip_whitespace.
  change (advance (span_len isspace (here input (mk_lexer c false)))
            (mk_lexer c false)) with st0.
  fold st0. rewrite Hx.
  assert (Hm : parse_decimal_member input mode st0
               = convert input (native_conversion double) st0)
    by (destruct double; reflexivity).
  rewrite Hm. unfold convert. fold r.
  unfold advance, set_errno, set_cursor, st0.
  cbn [cursor errno_ERANGE]. rewrite orb_false_r.
  destruct (libc.conv_erange r); [reflexivity|].
  destruct (libc.conv_consumed r) as [|n].
  - rewrite Nat.add_0_r, Nat.eqb_refl. reflexivity.
  - replace (Nat.eqb _ _) with false; [reflexivity|].
    symmetry. apply Nat.eqb_neq. lia.
Qed.

Lemma float_literal_range_witness :
  parse_value (cstr " 1e400") F64 (mk_lexer 0 false)
  = Throw range_error (mk_lexer 1 false).
Proof.
  destruct float_literal_range as [H _].
  exact (H true (cstr " 1e400") 0%nat eq_refl).
Defined.

(** C6. Under the float encodings the only operator applications that
    return a value are unary [-] and binary [+], [-], [*], [/]; [~] and
    [%], [<<], [>>], [&], [^], [|] throw [parse_error] and leave the state
    as it was.  Through the parser: [~1.5] and [1.5 % 2] are parse
    faults. *)
Theorem float_operators :
  forall verbose double l r m,
    let mode := float_mode double in
    let vl := mk_value (Some mode) l in
    let vr := mk_value (Some mode) r in
    unary.evaluate_operator verbose NOT vl m = Throw parse_error m
    /\ (forall op,
          In op [MODULUS; LEFT_SHIFT; RIGHT_SHIFT; AND; XOR; OR] ->
          binary.evaluate_operator verbose op vl vr m = Throw parse_error m)
    /\ (exists bits,
          unary.evaluate_operator verbose NEGATE vl m
          = Return (mk_value (Some mode) bits)
              (if verbose
               then print_stdout m
                      (TraceUnary NEGATE vl (mk_value (Some mode) bits))
               else m))
    /\ (forall op,
          In op [ADD; SUBTRACT; MULTIPLY; DIVIDE] ->
          exists bits,
            binary.evaluate_operator verbose op vl vr m
            = Return (mk_value (Some mode) bits)
                (if verbose
                 then print_stdout m
                        (TraceBinary op vl vr (mk_value (Some mode) bits))
                 else m))
    /\ handle_input verbose (cstr "~1.5") mode start
       = Return false
           (mk_machine (mk_lexer 4 false) [] [Caret 4 "Parse error"])
    /\ handle_input verbose (cstr "1.5 % 2") mode start
       = Return false
           (mk_machine (mk_lexer 8 false) [] [Caret 8 "Parse error"]).
Proof.
  intros verbose double l r m mode vl vr.
  split; [|split; [|split; [|split; [|split]]]].
  - destruct double; reflexivity.
  - intros op Hop. cbn [In] in Hop.
    repeat (destruct Hop as [<-|Hop]; [destruct double; reflexivity|]).
    contradiction.
  - destruct double; eexists; reflexivity.
  - intros op Hop. cbn [In] in Hop.
    repeat (destruct Hop as [<-|Hop]; [destruct double; eexists; reflexivity|]).
    contradiction.
  - destruct double, verbose; vm_compute; reflexivity.
  - destruct double, verbose; vm_compute; reflexivity.
Qed.

Lemma float_operators_witness :
  binary.evaluate_operator false XOR
    (mk_value (Some F32) 1) (mk_value (Some F32) 2) start
  = Throw parse_error start.
Proof.
  destruct (float_operators false false 1 2 start) as (_ & H & _).
  apply H. cbn. auto 10.
Defined.

(** ** The cursor never passes the terminating NUL unnoticed *)

Lemma strlen_skipn n s : fits n s -> strlen (skipn n s) = (strlen s - n)%nat.
Proof.
  unfold fits, strlen. revert s.
  induction n as [|n IH]; intros s H.
  - cbn. lia.
  - destruct s as [|c t]; cbn in *; [reflexivity|].
    destruct (negb (Ascii.eqb c NUL)); [|lia].
    apply IH. lia.
Qed.

Lemma fits_0 s : fits 0 s.
Proof. unfold fits. lia. Qed.

Lemma fits_add a b s : fits a s -> fits b (skipn a s) -> fits (a + b) s.
Proof.
  intros Ha Hb. unfold fits in Hb. rewrite strlen_skipn in Hb by assumption.
  unfold fits in *. lia.
Qed.

Lemma fits_1 s : Ascii.eqb (peek s) NUL = false -> fits 1 s.
Proof.
  unfold fits, strlen. destruct s as [|c t]; cbn; [discriminate|].
  intros ->. cbn. lia.
Qed.

Lemma fits_span p s : p NUL = false -> fits (span_len p s) s.
Proof.
  intros Hp. unfold fits, strlen.
  induction s as [|c t IH]; cbn; [lia|].
  destruct (p c) eqn:Hc; [|lia].
  destruct (Ascii.eqb_spec c NUL) as [->|Hn]; [congruence|].
  cbn. lia.
Qed.

Lemma fits_sign s : fits (libc.sign_len s) s.
Proof.
  unfold libc.sign_len.
  destruct (libc.is_minus (peek s) || libc.is_plus (peek s)) eqn:E;
    [|apply fits_0].
  apply fits_1. revert E. generalize (peek s). intros c. ascii_cases c.
Qed.

Lemma fits_dot s : fits (libc.dot_len s) s.
Proof.
  unfold libc.dot_len. destruct (libc.is_dot (peek s)) eqn:E; [|apply fits_0].
  apply fits_1. revert E. generalize (peek s). intros c. ascii_cases c.
Qed.

Lemma fits_match_ci word s :
  forallb not_nul word = true -> libc.match_ci word s = true ->
  fits (List.length word) s.
Proof.
  unfold fits, strlen. revert s.
  induction word as [|w word IH]; intros s Hw Hm; cbn; [lia|].
  destruct s as [|c t]; cbn in *; [discriminate|].
  apply andb_true_iff in Hw. destruct Hw as [Hw1 Hw2].
  apply andb_true_iff in Hm. destruct Hm as [Hm1 Hm2].
  assert (Hc : negb (Ascii.eqb c NUL) = true).
  { apply Ascii.eqb_eq in Hm1. subst w. revert Hw1. unfold not_nul.
    clear. ascii_cases c. }
  rewrite Hc. specialize (IH t Hw2 Hm2). lia.
Qed.

Lemma skipn_add {A} a b (s : list A) : skipn (a + b) s = skipn b (skipn a s).
Proof. rewrite skipn_skipn. f_equal. lia. Qed.

Lemma fits_exponent_part marker s :
  marker <> NUL -> fits (snd (libc.exponent_part marker s)) s.
Proof.
  intros Hm. unfold libc.exponent_part.
  destruct (Ascii.eqb_spec (tolower (peek s)) marker) as [E|E];
    [|apply fits_0].
  destruct (Nat.eqb _ 0); cbn [snd]; [apply fits_0|].
  rewrite <- Nat.add_assoc.
  apply fits_add.
  - apply fits_1. subst marker. revert Hm. generalize (peek s). intros c.
    ascii_cases c.
  - apply fits_add; [apply fits_sign | apply fits_span; reflexivity].
Qed.

Lemma fits_scan_decimal_float s : fits (snd (libc.scan_decimal_float s)) s.
Proof.
  unfold libc.scan_decimal_float.
  destruct (Nat.eqb _ 0); [apply fits_0|].
  pose proof (fits_exponent_part "e"
                (skipn (if libc.is_dot (peek (skipn (span_len isdigit s) s))
                        then span_len isdigit
                               (skipn (libc.dot_len (skipn (span_len isdigit s) s))
                                  (skipn (span_len isdigit s) s))
                        else 0%nat)
                   (skipn (libc.dot_len (skipn (span_len isdigit s) s))
                      (skipn (span_len isdigit s) s)))
                ltac:(discriminate)) as He.
  destruct (libc.exponent_part _ _) as [e ne]. cbn [snd] in *.
  repeat apply fits_add; rewrite ?skipn_add.
  - apply fits_span. reflexivity.
  - apply fits_dot.
  - destruct (libc.is_dot _); [apply fits_span; reflexivity | apply fits_0].
  - exact He.
Qed.

Lemma fits_scan_hex_float s :
  libc.match_ci (cstr "0x") s = true -> fits (snd (libc.scan_hex_float s)) s.
Proof.
  intros H0x. unfold libc.scan_hex_float.
  destruct (Nat.eqb _ 0); [apply fits_0|].
  pose proof (fits_exponent_part "p"
                (skipn (if libc.is_dot
                             (peek (skipn (span_len isxdigit (skipn 2 s))
                                      (skipn 2 s)))
                        then span_len isxdigit
                               (skipn (libc.dot_len
                                         (skipn (span_len isxdigit (skipn 2 s))
                                            (skipn 2 s)))
                                  (skipn (span_len isxdigit (skipn 2 s))
                                     (skipn 2 s)))
                        else 0%nat)
                   (skipn (libc.dot_len
                             (skipn (span_len isxdigit (skipn 2 s)) (skipn 2 s)))
                      (skipn (span_len isxdigit (skipn 2 s)) (skipn 2 s))))
                ltac:(discriminate)) as He.
  destruct (libc.exponent_part _ _) as [e ne]. cbn [snd] in *.
  repeat apply fits_add; rewrite ?skipn_add.
  - apply (fits_match_ci (cstr "0x") s eq_refl H0x).
  - apply fits_span. reflexivity.
  - apply fits_dot.
  - destruct (libc.is_dot _); [apply fits_span; reflexivity | apply fits_0].
  - exact He.
Qed.

Lemma fits_nan_tag s : fits (libc.nan_tag_len s) s.
Proof.
  unfold libc.nan_tag_len.
  destruct (Ascii.eqb_spec (peek s) "(") as [E|E]; [|apply fits_0].
  destruct (Ascii.eqb_spec
              (peek (skipn (span_len libc.is_nchar (skipn 1 s)) (skipn 1 s)))
              ")") as [E2|E2]; [|apply fits_0].
  replace (span_len libc.is_nchar (skipn 1 s) + 2)%nat
    with (1 + span_len libc.is_nchar (skipn 1 s) + 1)%nat by lia.
  repeat apply fits_add; rewrite ?skipn_add.
  - apply fits_1. rewrite E. reflexivity.
  - apply fits_span. reflexivity.
  - apply fits_1. rewrite E2. reflexivity.
Qed.

Lemma fits_scan_float s : fits (snd (libc.scan_float s)) s.
Proof.
  unfold libc.scan_float.
  destruct (libc.match_ci (cstr "infinity") s) eqn:E1.
  { apply (fits_match_ci (cstr "infinity") s eq_refl E1). }
  destruct (libc.match_ci (cstr "inf") s) eqn:E2.
  { apply (fits_match_ci (cstr "inf") s eq_refl E2). }
  destruct (libc.match_ci (cstr "nan") s) eqn:E3.
  { cbn [snd]. apply fits_add.
    - apply (fits_match_ci (cstr "nan") s eq_refl E3).
    - apply fits_nan_tag. }
  destruct (libc.match_ci (cstr "0x") s) eqn:E4;
    [|apply fits_scan_decimal_float].
  pose proof (fits_scan_hex_float s E4) as Hh.
  destruct (libc.scan_hex_float s) as [[] n]; cbn [snd] in *;
    try exact Hh.
  apply fits_scan_decimal_float.
Qed.

Lemma fits_strtofp prec emax w s :
  fits (libc.conv_consumed (libc.strtofp prec emax w s)) s.
Proof.
  unfold libc.strtofp.
  pose proof (fits_scan_float
                (skipn (libc.sign_len (skipn (span_len isspace s) s))
                   (skipn (span_len isspace s) s))) as Hs.
  destruct (libc.scan_float _) as [syntax n]. cbn [snd] in Hs.
  assert (H : fits (span_len isspace s
                    + libc.sign_len (skipn (span_len isspace s) s) + n) s).
  { repeat apply fits_add; rewrite ?skipn_add.
    - apply fits_span. reflexivity.
    - apply fits_sign.
    - exact Hs. }
  destruct syntax; cbn [libc.conv_consumed]; auto using fits_0.
Qed.

Lemma fits_strtoll s : fits (libc.conv_consumed (libc.strtoll s)) s.
Proof.
  unfold libc.strtoll.
  assert (H : fits (span_len isspace s
                    + libc.sign_len (skipn (span_len isspace s) s)
                    + span_len isdigit
                        (skipn (libc.sign_len (skipn (span_len isspace s) s))
                           (skipn (span_len isspace s) s))) s).
  { repeat apply fits_add; rewrite ?skipn_add.
    - apply fits_span. reflexivity.
    - apply fits_sign.
    - apply fits_span. reflexivity. }
  destruct (Nat.eqb _ 0); [apply fits_0|].
  destruct (_ <? _); [exact H|].
  destruct (_ <? _); exact H.
Qed.

Lemma fits_strtoull s : fits (libc.conv_consumed (libc.strtoull s)) s.
Proof.
  unfold libc.strtoull.
  assert (H : fits (span_len isspace s
                    + libc.sign_len (skipn (span_len isspace s) s)
                    + span_len isdigit
                        (skipn (libc.sign_len (skipn (span_len isspace s) s))
                           (skipn (span_len isspace s) s))) s).
  { repeat apply fits_add; rewrite ?skipn_add.
    - apply fits_span. reflexivity.
    - apply fits_sign.
    - apply fits_span. reflexivity. }
  destruct (Nat.eqb _ 0); [apply fits_0|].
  destruct (_ <? _); exact H.
Qed.

Section LexerBounds.

Variable input : list ascii.

#[local] Abbreviation within := (within input).
#[local] Abbreviation advances := (advances input).

Lemma strlen_here st :
  within st -> strlen (here input st) = (strlen input - cursor st)%nat.
Proof. intros H. apply strlen_skipn. exact H. Qed.

Lemma within_advance st n :
  within st -> fits n (here input st) -> within (advance n st).
Proof.
  intros Hw Hf. unfold fits in Hf. rewrite strlen_here in Hf by assumption.
  unfold within, advance, set_cursor in *. cbn [cursor]. lia.
Qed.

Lemma advances_ret {A} (a : A) st : within st -> advances st (ret a st).
Proof. intros H. cbn. split; [lia | exact H]. Qed.

Lemma advances_bind {A B} (c : M lexer_state A) (k : A -> M lexer_state B)
    st :
  advances st (c st) ->
  (forall a st', (cursor st <= cursor st')%nat -> within st' ->
                 advances st' (k a st')) ->
  advances st (bind c k st).
Proof.
  unfold bind. destruct (c st) as [a st'| | |]; cbn; try contradiction.
  intros [Hc Hw] Hk. specialize (Hk a st' Hc Hw).
  destruct (k a st') as [b st''| | |]; cbn in *; try contradiction.
  split; [lia | tauto].
Qed.

Lemma advances_set_ERANGE st : within st -> advances st (set_ERANGE st).
Proof. intros H. cbn. split; [lia | exact H]. Qed.

Lemma advances_convert f st :
  (forall s, fits (libc.conv_consumed (f s)) s) ->
  within st -> advances st (convert input f st).
Proof.
  intros Hf Hw. unfold convert. cbn [advances].
  split.
  - unfold set_errno, advance, set_cursor. cbn [cursor]. lia.
  - apply (within_advance st _ Hw (Hf (here input st))).
Qed.

Lemma advances_parse_int min max st :
  within st -> advances st (parse_int input min max st).
Proof.
  intros Hw. unfold parse_int. apply advances_bind.
  - apply advances_convert; [apply fits_strtoll | exact Hw].
  - intros v st' _ Hw'. destruct (_ || _).
    + apply advances_bind; [apply advances_set_ERANGE; exact Hw'|].
      intros _ st'' _ Hw''. apply advances_ret. exact Hw''.
    + apply advances_ret. exact Hw'.
Qed.

Lemma advances_parse_uint max st :
  within st -> advances st (parse_uint input max st).
Proof.
  intros Hw. unfold parse_uint. destruct (_ && _).
  - apply advances_bind; [apply advances_set_ERANGE; exact Hw|].
    intros _ st'' _ Hw''. apply advances_ret. exact Hw''.
  - apply advances_bind.
    + apply advances_convert; [apply fits_strtoull | exact Hw].
    + intros v st' _ Hw'. destruct (_ <? _).
      * apply advances_bind; [apply advances_set_ERANGE; exact Hw'|].
        intros _ st'' _ Hw''. apply advances_ret. exact Hw''.
      * apply advances_ret. exact Hw'.
Qed.

Lemma isxdigit_not_nul c : isxdigit c = true -> Ascii.eqb c NUL = false.
Proof. ascii_cases c. Qed.

Lemma advances_strtox_digits remaining :
  forall value st,
    within st -> isxdigit (peek (here input st)) = true ->
    advances st (strtox_digits input remaining value st).
Proof.
  induction remaining as [|remaining IH]; intros value st Hw Hx.
  - cbn. split; [lia | exact Hw].
  - cbn [strtox_digits].
    assert (Hw1 : within (advance 1 st)).
    { apply within_advance; [exact Hw|].
      apply fits_1, isxdigit_not_nul, Hx. }
    destruct (isxdigit (peek (here input (advance 1 st)))) eqn:Hx1;
      cbn [negb].
    + specialize (IH (Z.shiftl ((value + digit_to_int (peek (here input st)))
                                  mod 2 ^ 64) 4 mod 2 ^ 64)
                    (advance 1 st) Hw1 Hx1).
      destruct (strtox_digits _ _ _ _) as [v st'| | |]; cbn in *;
        try contradiction.
      split; [lia | tauto].
    + cbn. split; [lia | exact Hw1].
Qed.

Lemma advances_strtox max_digits st :
  within st -> advances st (strtox input max_digits st).
Proof.
  intros Hw. unfold strtox.
  destruct (Ascii.eqb_spec (peek (here input st)) "x") as [Ex|Ex];
    cbn [negb orb]; [|cbn; split; [lia | exact Hw]].
  destruct (isxdigit (peek (skipn 1 (here input st)))) eqn:Hx;
    cbn [negb]; [|cbn; split; [lia | exact Hw]].
  assert (Hw1 : within (advance 1 st)).
  { apply within_advance; [exact Hw|]. apply fits_1. now rewrite Ex. }
  set (k := span_len (fun c => Ascii.eqb c "0") (here input (advance 1 st))).
  assert (Hw2 : within (advance k (advance 1 st))).
  { apply within_advance; [exact Hw1|]. apply fits_span. reflexivity. }
  destruct (isxdigit (peek (here input (advance k (advance 1 st))))) eqn:Hx2;
    cbn [negb].
  - pose proof (advances_strtox_digits max_digits 0 _ Hw2 Hx2) as H.
    destruct (strtox_digits _ _ _ _) as [v st'| | |]; cbn in *;
      try contradiction.
    split; [lia | tauto].
  - cbn. split; [lia | exact Hw2].
Qed.

Lemma advances_parse_hex_member mode st :
  within st -> advances st (parse_hex_member input mode st).
Proof.
  intros Hw.
  destruct mode; cbn [parse_hex_member];
    (apply advances_bind; [apply advances_strtox; exact Hw|]);
    intros v st' _ Hw'; apply advances_ret; exact Hw'.
Qed.

Lemma advances_parse_decimal_member mode st :
  within st -> advances st (parse_decimal_member input mode st).
Proof.
  intros Hw.
  destruct mode; cbn [parse_decimal_member];
    try (apply advances_convert; [apply fits_strtofp | exact Hw]);
    (apply advances_bind;
     [first [apply advances_parse_int | apply advances_parse_uint]; exact Hw|]);
    intros v st' _ Hw'; apply advances_ret; exact Hw'.
Qed.

(** [parse_value] returns a value of the mode after moving the cursor
    forward, or [INVALID_VALUE], or throws [range_error]; the cursor
    stays on the line and [errno] is left clear. *)
Lemma parse_value_spec mode st :
  within st ->
  match parse_value input mode st with
  | Return v st' =>
      errno_ERANGE st' = false /\ within st'
      /\ ((encoding v = Some mode /\ (cursor st < cursor st')%nat)
          \/ (v = INVALID_VALUE /\ (cursor st <= cursor st')%nat))
  | Throw e st' =>
      e = range_error /\ errno_ERANGE st' = false
      /\ (cursor st <= cursor st')%nat /\ within st'
  | _ => False
  end.
Proof.
  intros Hw. unfold parse_value, bind at 1, skip_whitespace.
  set (st0 := advance (span_len isspace (here input st)) st).
  assert (Hw0 : within st0)
    by (apply within_advance; [exact Hw | apply fits_span; reflexivity]).
  assert (Hc0 : (cursor st <= cursor st0)%nat)
    by (unfold st0, advance, set_cursor; cbn [cursor]; lia).
  unfold bind.
  assert (Hm : advances st0
                 ((if Ascii.eqb (peek (here input st0)) "x"
                   then parse_hex_member input mode
                   else parse_decimal_member input mode) st0)).
  { destruct (Ascii.eqb _ _);
      [apply advances_parse_hex_member | apply advances_parse_decimal_member];
      exact Hw0. }
  destruct ((if Ascii.eqb (peek (here input st0)) "x"
             then parse_hex_member input mode
             else parse_decimal_member input mode) st0)
    as [bits st1| | |]; cbn in Hm; try contradiction.
  destruct Hm as [Hc1 Hw1].
  destruct (errno_ERANGE st1) eqn:He.
  - unfold set_cursor, set_errno, within in *. cbn [cursor errno_ERANGE].
    repeat split; auto.
  - destruct (Nat.eqb_spec (cursor st0) (cursor st1)) as [E|E].
    + repeat split; auto. right. split; [reflexivity | lia].
    + repeat split; auto. left. split; [reflexivity|].
      unfold st0, advance, set_cursor in E. cbn [cursor] in E. lia.
Qed.


Lemma strncmp_fits n :
  forall s id,
    strncmp_eq s id n = true -> (n <= strlen id)%nat -> fits n s.
Proof.
  induction n as [|n IH]; intros s id Hcmp Hlen; [apply fits_0|].
  cbn [strncmp_eq] in Hcmp.
  destruct id as [|c t]; [cbn in Hlen; lia|].
  unfold strlen in Hlen. cbn [span_len] in Hlen.
  destruct (Ascii.eqb_spec c NUL) as [->|Hc]; [cbn in Hlen; lia|].
  cbn [negb] in Hlen. cbn [peek hd tl] in Hcmp.
  destruct (Ascii.eqb_spec (peek s) c) as [E|E]; [|discriminate].
  destruct s as [|c' t']; cbn [peek hd] in E; [congruence|]. subst c'.
  cbn [peek hd tl] in Hcmp.
  destruct (Ascii.eqb_spec c NUL) as [|_]; [contradiction|].
  specialize (IH t' t Hcmp ltac:(unfold strlen; lia)).
  unfold fits, strlen in *. cbn [span_len].
  destruct (Ascii.eqb_spec c NUL) as [|_]; [contradiction|].
  cbn [negb]. lia.
Qed.

Lemma arity_eqb_eq a b : arity_eqb a b = true -> a = b.
Proof. destruct a, b; cbn; congruence. Qed.

Lemma operator_eqb_eq a b : operator_eqb a b = true -> a = b.
Proof. destruct a, b; cbn; congruence. Qed.

(** The table scan returns the first row of the requested class whose
    identifier is at the cursor, and moves the cursor over it. *)
Lemma parse_operator_from_spec ops requested sentinel st :
  match parse_operator_from input ops requested sentinel st with
  | Return op st' =>
      (arity (operator_table op) = requested \/ sentinel = Some op)
      /\ st' = advance
                 (Nat.max 1 (strlen (identifier (operator_table op)))) st
      /\ strncmp_eq (here input st) (identifier (operator_table op))
           (Nat.max 1 (strlen (identifier (operator_table op)))) = true
  | Throw e st' => e = parse_error /\ st' = st
  | _ => False
  end.
Proof.
  induction ops as [|op ops IH]; cbn [parse_operator_from]; [auto|].
  destruct (negb (arity_eqb (arity (operator_table op)) requested)
            && negb match sentinel with
                    | Some s => operator_eqb op s
                    | None => false
                    end) eqn:Hskip; [exact IH|].
  destruct (strncmp_eq _ _ _) eqn:Hcmp; [|exact IH].
  split; [|split; [reflexivity | exact Hcmp]].
  apply andb_false_iff in Hskip. destruct Hskip as [H|H];
    apply negb_false_iff in H.
  - left. now apply arity_eqb_eq.
  - right. destruct sentinel as [s|]; [|discriminate].
    apply operator_eqb_eq in H. congruence.
Qed.

Lemma strlen_0_peek s : Ascii.eqb (peek s) NUL = true -> strlen s = 0%nat.
Proof.
  unfold strlen. destruct s as [|c t]; cbn; [reflexivity|].
  intros ->. reflexivity.
Qed.

Lemma strncmp_nul s :
  strncmp_eq s (identifier (operator_table END_EXPRESSION))
    (Nat.max 1 (strlen (identifier (operator_table END_EXPRESSION)))) = true ->
  Ascii.eqb (peek s) NUL = true.
Proof.
  change (identifier (operator_table END_EXPRESSION)) with [NUL].
  change (Nat.max 1 (strlen [NUL])) with 1%nat.
  unfold strncmp_eq. change (peek [NUL]) with NUL.
  destruct (Ascii.eqb (peek s) NUL); congruence.
Qed.

(** [parse_operator] moves the cursor forward.  After any operator but
    the end-of-input sentinel the cursor is still on the line; the
    sentinel is returned only with the cursor just behind the
    terminating NUL. *)
Lemma parse_operator_spec requested sentinel st :
  within st ->
  match parse_operator input requested sentinel st with
  | Return op st' =>
      errno_ERANGE st' = errno_ERANGE st
      /\ (arity (operator_table op) = requested \/ sentinel = Some op)
      /\ (cursor st < cursor st')%nat
      /\ (if operator_eqb op END_EXPRESSION
          then cursor st' = S (strlen input)
          else within st')
  | Throw e st' =>
      e = parse_error /\ errno_ERANGE st' = errno_ERANGE st
      /\ (cursor st <= cursor st')%nat /\ within st'
  | _ => False
  end.
Proof.
  intros Hw. unfold parse_operator, bind, skip_whitespace.
  set (st0 := advance (span_len isspace (here input st)) st).
  assert (Hw0 : within st0)
    by (apply within_advance; [exact Hw | apply fits_span; reflexivity]).
  assert (Hc0 : (cursor st <= cursor st0)%nat)
    by (unfold st0, advance, set_cursor; cbn [cursor]; lia).
  assert (He0 : errno_ERANGE st0 = errno_ERANGE st) by reflexivity.
  pose proof (parse_operator_from_spec all_operators requested sentinel st0)
    as H.
  destruct (parse_operator_from _ _ _ _ _) as [op st'|e st'| |];
    try contradiction.
  - destruct H as (Hclass & -> & Hcmp).
    split; [exact He0|]. split; [exact Hclass|].
    split; [unfold advance, set_cursor; cbn [cursor]; lia|].
    destruct op; cbn [operator_eqb];
      try (apply within_advance; [exact Hw0|];
           apply (strncmp_fits _ _ _ Hcmp); cbn; lia).
    apply strncmp_nul in Hcmp. rename Hcmp into Hnul.
    apply strlen_0_peek in Hnul. rewrite strlen_here in Hnul by exact Hw0.
    change (cursor (advance (Nat.max 1 (strlen (identifier
                              (operator_table END_EXPRESSION)))) st0))
      with (cursor st0 + 1)%nat.
    unfold within in Hw0. lia.
  - destruct H as [-> ->]. repeat split; auto.
Qed.

(** The end-of-input sentinel matches only a NUL. *)
Lemma sentinel_only_at_nul requested sentinel st st' :
  parse_operator input requested sentinel st = Return END_EXPRESSION st' ->
  let blank := span_len isspace (here input st) in
  peek (here input (advance blank st)) = NUL
  /\ cursor st' = (cursor st + blank + 1)%nat.
Proof.
  intros H blank. unfold parse_operator, bind, skip_whitespace in H.
  fold blank in H.
  pose proof (parse_operator_from_spec all_operators requested sentinel
                (advance blank st)) as Hs.
  rewrite H in Hs. destruct Hs as (_ & -> & Hcmp).
  apply strncmp_nul in Hcmp. split.
  - destruct (Ascii.eqb_spec (peek (here input (advance blank st))) NUL);
      [assumption | discriminate].
  - reflexivity.
Qed.

End LexerBounds.

(** ** The parser consumes the whole line and terminates *)

Lemma unary_evaluate_lexer verbose op v m :
  match unary.evaluate_operator verbose op v m with
  | Return _ m' | Throw _ m' => lexer m' = lexer m
  | Undefined => True
  | NoFuel => False
  end.
Proof.
  unfold unary.evaluate_operator.
  destruct (encoding v) as [[]|];
    first [ destruct (unary.evaluate_operator_integer _ _ _ _)
          | destruct (unary.evaluate_operator_real _ _ _)
          | idtac ];
    try destruct verbose; try reflexivity; exact I.
Qed.

Lemma binary_evaluate_lexer verbose op l r m :
  match binary.evaluate_operator verbose op l r m with
  | Return _ m' | Throw _ m' => lexer m' = lexer m
  | Undefined => True
  | NoFuel => False
  end.
Proof.
  unfold binary.evaluate_operator.
  destruct (negb _); [reflexivity|].
  destruct (encoding l) as [[]|];
    first [ destruct (binary.evaluate_operator_integer _ _ _ _ _)
          | destruct (binary.evaluate_operator_real _ _ _ _ _ _)
          | idtac ];
    try destruct verbose; try reflexivity; exact I.
Qed.

Lemma op_class_not_end sentinel op :
  sentinel <> END_EXPRESSION -> op_class sentinel op ->
  operator_eqb op END_EXPRESSION = false.
Proof.
  intros Hs [H|H]; destruct op; try reflexivity; cbn in H; congruence.
Qed.

Lemma precedence_positive_not_end op :
  0 < precedence (operator_table op) ->
  operator_eqb op END_EXPRESSION = false.
Proof. destruct op; cbn; intros; (reflexivity || lia). Qed.

Section ParserBounds.

Variable verbose : bool.
Variable input : list ascii.
Variable mode : encoding_t.

#[local] Abbreviation L := (strlen input).

Lemma compute_expression_S fuel sentinel min_precedence :
  compute_expression verbose input mode (S fuel) sentinel min_precedence
  = (value <- compute_value verbose input mode fuel ;;
     op <- lift (parse_operator input BINARY (Some sentinel)) ;;
     expression_loop verbose input mode fuel sentinel min_precedence
       value op).
Proof. reflexivity. Qed.

Lemma expression_loop_S fuel sentinel min_precedence value op :
  expression_loop verbose input mode (S fuel) sentinel min_precedence
    value op
  = if precedence (operator_table op) <=? min_precedence
    then ret (value, op)
    else
      (next <- compute_expression verbose input mode fuel sentinel
                 (precedence (operator_table op)) ;;
       value <- binary.evaluate_operator verbose op value (fst next) ;;
       expression_loop verbose input mode fuel sentinel min_precedence
         value (snd next)).
Proof. reflexivity. Qed.

Lemma compute_value_S fuel :
  compute_value verbose input mode (S fuel)
  = (value <- lift (parse_value input mode) ;;
     match encoding value with
     | Some _ => ret value
     | None =>
         unary_op <- lift (parse_operator input UNARY None) ;;
         match unary_op with
         | OPEN_PAREN =>
             r <- compute_expression verbose input mode fuel
                    CLOSE_PAREN 0 ;;
             ret (fst r)
         | _ =>
             match arity (operator_table unary_op) with
             | UNARY =>
                 result <- compute_value verbose input mode fuel ;;
                 unary.evaluate_operator verbose unary_op result
             | _ => throw parse_error
             end
         end
     end).
Proof. reflexivity. Qed.

#[local] Abbreviation value_bounds := (value_bounds verbose input mode).
#[local] Abbreviation expression_bounds :=
  (expression_bounds verbose input mode).
#[local] Abbreviation loop_bounds := (loop_bounds verbose input mode).

Lemma op_position_bound op p : op_position input op p -> (p <= S L)%nat.
Proof. unfold op_position. destruct (operator_eqb _ _); lia. Qed.

Lemma value_step fuel :
  value_bounds fuel -> expression_bounds fuel -> value_bounds (S fuel).
Proof.
  intros IHv IHe m Hm. rewrite compute_value_S. unfold bind at 1, lift at 1.
  pose proof (parse_value_spec input mode (lexer m) Hm) as Hpv.
  destruct (parse_value input mode (lexer m)) as [v st1|e st1| |];
    try contradiction.
  2: { destruct Hpv as (_ & He & _). exact He. }
  destruct Hpv as (He1 & Hw1 & Hcase).
  destruct (encoding v) as [e|] eqn:Hv.
  { cbn. destruct Hcase as [[_ Hlt]|[-> _]]; [|discriminate].
    repeat split; assumption. }
  assert (Hc1 : (cursor (lexer m) <= cursor st1)%nat)
    by (destruct Hcase as [[_ ?]|[_ ?]]; lia).
  unfold bind at 1, lift at 1. cbn [lexer set_lexer].
  pose proof (parse_operator_spec input UNARY None st1 Hw1) as Hop.
  destruct (parse_operator input UNARY None st1) as [op st2|e st2| |];
    try contradiction.
  2: { destruct Hop as (_ & He & _). unfold errno_clear. cbn. congruence. }
  destruct Hop as (He2 & Hclass & Hlt & Hpos).
  destruct Hclass as [Har|?]; [|discriminate].
  set (m2 := set_lexer (set_lexer m st1) st2).
  assert (Hp2 : pos m2 = cursor st2) by reflexivity.
  assert (Hw2 : (pos m2 <= L)%nat).
  { rewrite Hp2. destruct op; cbn in Har; try discriminate; exact Hpos. }
  assert (Hunary : forall uop,
             match (result <- compute_value verbose input mode fuel ;;
                    unary.evaluate_operator verbose uop result) m2 with
             | Return _ m' =>
                 (pos m < pos m')%nat /\ (pos m' <= L)%nat /\ errno_clear m'
             | Throw _ m' => errno_clear m'
             | Undefined => True
             | NoFuel => (S fuel < 2 * (S L - pos m) + 1)%nat
             end).
  { intros uop. unfold bind. specialize (IHv m2 Hw2).
    destruct (compute_value verbose input mode fuel m2)
      as [v' m3|e m3| |]; try exact I; try exact IHv;
      [|unfold pos in *; lia].
    destruct IHv as (Hlt3 & Hw3 & He3).
    pose proof (unary_evaluate_lexer verbose uop v' m3) as Hev.
    unfold errno_clear, pos in *.
    destruct (unary.evaluate_operator verbose uop v' m3)
      as [v'' m4|e m4| |]; try exact I; try contradiction;
      rewrite Hev; [repeat split; (assumption || lia) | assumption]. }
  destruct op; cbn in Har; try discriminate;
    cbn [operator_table arity]; try apply Hunary.
  unfold bind. specialize (IHe CLOSE_PAREN 0 m2 (Z.le_refl 0) Hw2).
  destruct (compute_expression verbose input mode fuel CLOSE_PAREN 0 m2)
    as [[v' op'] m3|e m3| |]; try exact I; try exact IHe.
  - destruct IHe as (Hadv & _ & Hcl & Hps & He3). cbn [ret fst].
    unfold op_position in Hps.
    rewrite (op_class_not_end CLOSE_PAREN op') in Hps
      by (assumption || discriminate).
    unfold pos in *. repeat split; (assumption || lia).
  - unfold pos in *. lia.
Qed.

Lemma expression_step fuel :
  value_bounds fuel -> loop_bounds fuel -> expression_bounds (S fuel).
Proof.
  intros IHv IHl sentinel min_precedence m Hmin Hm.
  rewrite compute_expression_S. unfold bind at 1.
  specialize (IHv m Hm).
  destruct (compute_value verbose input mode fuel m) as [v m1|e m1| |];
    try exact I; try exact IHv; [|unfold pos in *; lia].
  destruct IHv as (Hlt1 & Hw1 & He1).
  unfold bind at 1, lift.
  pose proof (parse_operator_spec input BINARY (Some sentinel) (lexer m1) Hw1)
    as Hop.
  destruct (parse_operator input BINARY (Some sentinel) (lexer m1))
    as [op st2|e st2| |]; try contradiction.
  2: { destruct Hop as (_ & He & _). unfold errno_clear in *. cbn.
       congruence. }
  destruct Hop as (He2 & Hclass & Hlt2 & Hpos).
  set (m2 := set_lexer m1 st2).
  assert (Hcl : op_class sentinel op).
  { destruct Hclass as [H|H]; [left; exact H | right; congruence]. }
  assert (Hps : op_position input op (pos m2)) by exact Hpos.
  assert (Hec : errno_clear m2)
    by (unfold errno_clear in *; cbn; congruence).
  pose proof (op_position_bound op (pos m2) Hps) as Hb2.
  assert (Hp2 : pos m2 = cursor st2) by reflexivity.
  specialize (IHl sentinel min_precedence v op m2 Hmin Hcl Hps Hec).
  destruct (expression_loop verbose input mode fuel sentinel min_precedence
              v op m2) as [[v' op'] m3|e m3| |]; try exact I; try exact IHl.
  - destruct IHl as (Hle & Hprec & Hcl' & Hps' & He3).
    unfold pos in *. repeat split; auto. lia.
  - unfold pos in *. lia.
Qed.

Lemma loop_step fuel :
  expression_bounds fuel -> loop_bounds fuel -> loop_bounds (S fuel).
Proof.
  intros IHe IHl sentinel min_precedence value op m Hmin Hcl Hps Hec.
  rewrite expression_loop_S.
  destruct (Z.leb_spec (precedence (operator_table op)) min_precedence)
    as [Hle|Hgt].
  { cbn. repeat split; auto. }
  assert (Hm : (pos m <= L)%nat).
  { unfold op_position in Hps.
    rewrite precedence_positive_not_end in Hps by lia. exact Hps. }
  unfold bind at 1.
  specialize (IHe sentinel (precedence (operator_table op)) m
                ltac:(lia) Hm).
  destruct (compute_expression verbose input mode fuel sentinel
              (precedence (operator_table op)) m)
    as [[nv nop] m1|e m1| |]; try exact I; try exact IHe;
    [|unfold pos in *; lia].
  destruct IHe as (Hadv & _ & Hcl1 & Hps1 & He1).
  cbn [fst snd]. unfold bind at 1.
  pose proof (binary_evaluate_lexer verbose op value nv m1) as Hev.
  destruct (binary.evaluate_operator verbose op value nv m1)
    as [v2 m2|e m2| |]; try exact I; try contradiction.
  2: { unfold errno_clear in *. now rewrite Hev. }
  assert (Hp2 : pos m2 = pos m1) by (unfold pos; now rewrite Hev).
  assert (He2 : errno_clear m2) by (unfold errno_clear in *; now rewrite Hev).
  rewrite <- Hp2 in Hps1, Hadv.
  pose proof (op_position_bound nop (pos m2) Hps1) as Hb2.
  specialize (IHl sentinel min_precedence v2 nop m2 Hmin Hcl1 Hps1 He2).
  destruct (expression_loop verbose input mode fuel sentinel min_precedence
              v2 nop m2) as [[v' op'] m3|e m3| |]; try exact I; try exact IHl.
  - destruct IHl as (Hle & Hprec & Hcl' & Hps' & He3).
    repeat split; auto. lia.
  - lia.
Qed.

Lemma parser_bounds fuel :
  value_bounds fuel /\ expression_bounds fuel /\ loop_bounds fuel.
Proof.
  induction fuel as [|fuel (IHv & IHe & IHl)].
  - repeat split.
    + intros m Hm. cbn. lia.
    + intros sentinel min_precedence m _ Hm. cbn. lia.
    + intros sentinel min_precedence value op m _ _ _ _. cbn. lia.
  - split; [|split].
    + now apply value_step.
    + now apply expression_step.
    + now apply loop_step.
Qed.

Lemma strlen_le_length (s : list ascii) : (strlen s <= List.length s)%nat.
Proof.
  unfold strlen. induction s as [|c t IH]; cbn; [lia|].
  destruct (negb _); lia.
Qed.

(** The top-level call: it does not run out of fuel, and when it returns
    the cursor is just behind the terminating NUL of the line. *)
Lemma evaluate_bounds m :
  match evaluate verbose input mode m with
  | Return _ m' => pos m' = S L /\ errno_clear m'
  | Throw _ m' => errno_clear m'
  | Undefined => True
  | NoFuel => False
  end.
Proof.
  unfold evaluate, bind.
  destruct (parser_bounds (enough_fuel input)) as (_ & He & _).
  set (m0 := set_lexer m (set_cursor (lexer m) 0)).
  specialize (He END_EXPRESSION 0 m0 (Z.le_refl 0)
                ltac:(unfold pos; cbn; lia)).
  destruct (compute_expression verbose input mode (enough_fuel input)
              END_EXPRESSION 0 m0) as [[v op] m1|e m1| |]; try exact I;
    try exact He.
  - destruct He as (_ & Hprec & Hcl & Hps & Hec). cbn [ret fst].
    unfold op_position in Hps.
    destruct op; cbn in Hprec; try lia;
      destruct Hcl as [H|H]; cbn in H; try discriminate;
      split; [exact Hps | exact Hec].
  - pose proof (strlen_le_length input).
    unfold enough_fuel, pos in He. cbn in He. lia.
Qed.

End ParserBounds.

Lemma strncmp_first s id n :
  Ascii.eqb (peek s) (peek id) = false -> strncmp_eq s id (S n) = false.
Proof. intros H. cbn [strncmp_eq]. now rewrite H. Qed.

(** Where a binary operator or the end of the line is expected, a character
    that starts neither is a parse fault at that character. *)
Lemma junk_is_a_parse_fault input st :
  let st0 := advance (span_len isspace (here input st)) st in
  starts_binary_operator (peek (here input st0)) = false ->
  Ascii.eqb (peek (here input st0)) NUL = false ->
  parse_operator input BINARY (Some END_EXPRESSION) st
  = Throw parse_error st0.
Proof.
  intros st0 Hop Hnul.
  unfold parse_operator, bind, skip_whitespace. fold st0.
  unfold starts_binary_operator in Hop. cbn [cstr list_ascii_of_string existsb] in Hop.
  repeat (apply orb_false_iff in Hop; destruct Hop as [? Hop]).
  unfold all_operators.
  cbn [parse_operator_from operator_table arity identifier arity_eqb
       operator_eqb negb andb].
  change (Nat.max 1 (strlen (cstr "*"))) with 1%nat.
  change (Nat.max 1 (strlen (cstr "/"))) with 1%nat.
  change (Nat.max 1 (strlen (cstr "%"))) with 1%nat.
  change (Nat.max 1 (strlen (cstr "+"))) with 1%nat.
  change (Nat.max 1 (strlen (cstr "-"))) with 1%nat.
  change (Nat.max 1 (strlen (cstr "<<"))) with 2%nat.
  change (Nat.max 1 (strlen (cstr ">>"))) with 2%nat.
  change (Nat.max 1 (strlen (cstr "&"))) with 1%nat.
  change (Nat.max 1 (strlen (cstr "^"))) with 1%nat.
  change (Nat.max 1 (strlen (cstr "|"))) with 1%nat.
  change (Nat.max 1 (strlen [NUL])) with 1%nat.
  rewrite !strncmp_first by assumption.
  reflexivity.
Qed.

(** Every line is evaluated to the end: [enough_fuel] is enough. *)
Theorem handle_input_terminates :
  forall verbose input mode m,
    handle_input verbose input mode m <> NoFuel.
Proof.
  intros verbose input mode m. unfold handle_input.
  pose proof (evaluate_bounds verbose input mode m) as H.
  destruct (evaluate verbose input mode m); try discriminate.
  contradiction.
Qed.


(** C10. Input left over after the top-level expression is never ignored.
    [parse_operator] throws nothing but [parse_error], and it returns the
    end-of-input sentinel only when the character under the cursor, after
    white space, is a NUL; where the top level expects a binary operator
    or the end of the line, any other character is a parse fault at that
    character.  [handle_input] returns [true] only with the
    cursor just behind the terminating NUL of the line, that is, after the
    whole line was consumed.  So [1 2] and [1 )] are parse faults at the
    offending character, under every encoding: the value of the prefix [1]
    is not returned. *)
Theorem trailing_input_is_a_parse_fault :
  (forall input requested sentinel st st',
      parse_operator input requested sentinel st
      = Return END_EXPRESSION st' ->
      peek (here input (advance (span_len isspace (here input st)) st)) = NUL
      /\ cursor st'
         = (cursor st + span_len isspace (here input st) + 1)%nat)
  /\ (forall input requested sentinel st e st',
        parse_operator input requested sentinel st = Throw e st' ->
        e = parse_error)
  /\ (forall input st,
        let st0 := advance (span_len isspace (here input st)) st in
        starts_binary_operator (peek (here input st0)) = false ->
        Ascii.eqb (peek (here input st0)) NUL = false ->
        parse_operator input BINARY (Some END_EXPRESSION) st
        = Throw parse_error st0)
  /\ (forall verbose input mode m m',
        handle_input verbose input mode m = Return true m' ->
        cursor (lexer m') = S (strlen input))
  /\ (forall verbose mode,
        handle_input verbose (cstr "1 2") mode start
        = Return false
            (mk_machine (mk_lexer 2 false) [] [Caret 2 "Parse error"]))
  /\ (forall verbose mode,
        handle_input verbose (cstr "1 )") mode start
        = Return false
            (mk_machine (mk_lexer 2 false) [] [Caret 2 "Parse error"])).
Proof.
  split; [|split; [|split; [|split; [|split]]]].
  - intros input requested sentinel st st' H.
    exact (sentinel_only_at_nul input requested sentinel st st' H).
  - intros input requested sentinel st e st' H.
    unfold parse_operator, bind, skip_whitespace in H.
    pose proof (parse_operator_from_spec input all_operators requested
                  sentinel
                  (advance (span_len isspace (here input st)) st)) as Hs.
    rewrite H in Hs. tauto.
  - exact junk_is_a_parse_fault.
  - intros verbose input mode m m' H. unfold handle_input in H.
    pose proof (evaluate_bounds verbose input mode m) as Hb.
    destruct (evaluate verbose input mode m) as [v m1|e m1| |];
      try discriminate.
    injection H as <-. exact (proj1 Hb).
  - intros verbose mode. destruct verbose, mode; vm_compute; reflexivity.
  - intros verbose mode. destruct verbose, mode; vm_compute; reflexivity.
Qed.

Lemma trailing_input_is_a_parse_fault_witness :
  cursor (lexer (mk_machine (mk_lexer 4 false) [ResultLine (mk_value (Some U8) 3)] []))
  = S (strlen (cstr "1+2")).
Proof.
  destruct trailing_input_is_a_parse_fault as (_ & _ & _ & H & _).
  apply (H false (cstr "1+2") U8 start). vm_compute. reflexivity.
Defined.

(** ** Tracing is observational *)

Lemma quiet_lexer m1 m2 : quiet m1 = quiet m2 -> lexer m1 = lexer m2.
Proof. intros H. apply (f_equal lexer) in H. exact H. Qed.

Lemma quiet_set_lexer m1 m2 st :
  quiet m1 = quiet m2 -> quiet (set_lexer m1 st) = quiet (set_lexer m2 st).
Proof.
  unfold quiet, set_lexer. cbn. intros H. injection H as _ Ho He.
  now rewrite Ho, He.
Qed.

Lemma quiet_print_trace m o : is_trace o = true -> quiet (print_stdout m o) = quiet m.
Proof.
  intros Ho. unfold quiet, print_stdout. cbn [lexer stdout stderr].
  rewrite filter_app. cbn [filter]. rewrite Ho. cbn [negb].
  now rewrite app_nil_r.
Qed.

Lemma quiet_print_stdout m1 m2 o :
  quiet m1 = quiet m2 -> quiet (print_stdout m1 o) = quiet (print_stdout m2 o).
Proof.
  unfold quiet, print_stdout. cbn. intros H. injection H as Hl Ho He.
  now rewrite !filter_app, Hl, Ho, He.
Qed.

Lemma quiet_print_stderr m1 m2 o :
  quiet m1 = quiet m2 -> quiet (print_stderr m1 o) = quiet (print_stderr m2 o).
Proof.
  unfold quiet, print_stderr. cbn. intros H. injection H as Hl Ho He.
  now rewrite Hl, Ho, He.
Qed.

Lemma observe_bind {A B} (c1 c2 : M machine A) (k1 k2 : A -> M machine B)
    m1 m2 :
  observe (c1 m1) = observe (c2 m2) ->
  (forall a m1' m2', quiet m1' = quiet m2' ->
                     observe (k1 a m1') = observe (k2 a m2')) ->
  observe (bind c1 k1 m1) = observe (bind c2 k2 m2).
Proof.
  unfold bind. intros Hc Hk.
  destruct (c1 m1) as [a1 m1'|e1 m1'| |], (c2 m2) as [a2 m2'|e2 m2'| |];
    cbn in Hc; try discriminate; try reflexivity.
  - assert (Ha : a1 = a2) by congruence.
    assert (Hq : quiet m1' = quiet m2') by congruence.
    subst a2. now apply Hk.
  - cbn. assert (He : e1 = e2) by congruence.
    assert (Hq : quiet m1' = quiet m2') by congruence.
    now rewrite He, Hq.
Qed.

Lemma observe_lift {A} (c : M lexer_state A) m1 m2 :
  quiet m1 = quiet m2 -> observe (lift c m1) = observe (lift c m2).
Proof.
  intros Hq. unfold lift. rewrite (quiet_lexer m1 m2 Hq).
  destruct (c (lexer m2)); cbn; try reflexivity;
    now rewrite (quiet_set_lexer m1 m2 _ Hq).
Qed.

Lemma observe_ret {A} (a : A) m1 m2 :
  quiet m1 = quiet m2 -> observe (ret a m1) = observe (ret a m2).
Proof. intros Hq. cbn. now rewrite Hq. Qed.

Lemma observe_unary op v m1 m2 :
  quiet m1 = quiet m2 ->
  observe (unary.evaluate_operator true op v m1)
  = observe (unary.evaluate_operator false op v m2).
Proof.
  intros Hq. unfold unary.evaluate_operator.
  destruct (encoding v) as [[]|];
    first [ destruct (unary.evaluate_operator_integer _ _ _ _)
          | destruct (unary.evaluate_operator_real _ _ _)
          | idtac ];
    cbn [observe];
    rewrite ?quiet_print_trace by reflexivity;
    rewrite ?Hq; try reflexivity;
    now rewrite (quiet_print_stderr m1 m2 _ Hq).
Qed.

Lemma observe_binary op l r m1 m2 :
  quiet m1 = quiet m2 ->
  observe (binary.evaluate_operator true op l r m1)
  = observe (binary.evaluate_operator false op l r m2).
Proof.
  intros Hq. unfold binary.evaluate_operator.
  destruct (negb _).
  { cbn. now rewrite (quiet_print_stderr m1 m2 _ Hq). }
  destruct (encoding l) as [[]|];
    first [ destruct (binary.evaluate_operator_integer _ _ _ _ _)
          | destruct (binary.evaluate_operator_real _ _ _ _ _ _)
          | idtac ];
    cbn [observe];
    rewrite ?quiet_print_trace by reflexivity;
    rewrite ?Hq; try reflexivity;
    now rewrite (quiet_print_stderr m1 m2 _ Hq).
Qed.

Section Tracing.

Variable input : list ascii.
Variable mode : encoding_t.

Lemma tracing_simulation fuel :
  (forall m1 m2, quiet m1 = quiet m2 ->
     observe (compute_value true input mode fuel m1)
     = observe (compute_value false input mode fuel m2))
  /\ (forall sentinel min_precedence m1 m2, quiet m1 = quiet m2 ->
        observe (compute_expression true input mode fuel sentinel
                   min_precedence m1)
        = observe (compute_expression false input mode fuel sentinel
                     min_precedence m2))
  /\ (forall sentinel min_precedence value op m1 m2, quiet m1 = quiet m2 ->
        observe (expression_loop true input mode fuel sentinel
                   min_precedence value op m1)
        = observe (expression_loop false input mode fuel sentinel
                     min_precedence value op m2)).
Proof.
  induction fuel as [|fuel (IHv & IHe & IHl)].
  - repeat split; intros; reflexivity.
  - split; [|split].
    + intros m1 m2 Hq. rewrite !compute_value_S.
      apply observe_bind; [now apply observe_lift|].
      intros v m1' m2' Hq'.
      destruct (encoding v); [now apply observe_ret|].
      apply observe_bind; [now apply observe_lift|].
      intros op m1'' m2'' Hq''.
      destruct op; cbn [operator_table arity];
        try (apply observe_bind; [now apply IHv|];
             intros; now apply observe_unary);
        try (cbn; now rewrite Hq'').
      apply observe_bind; [now apply IHe|].
      intros; now apply observe_ret.
    + intros sentinel min_precedence m1 m2 Hq.
      rewrite !compute_expression_S.
      apply observe_bind; [now apply IHv|].
      intros v m1' m2' Hq'.
      apply observe_bind; [now apply observe_lift|].
      intros op m1'' m2'' Hq''. now apply IHl.
    + intros sentinel min_precedence value op m1 m2 Hq.
      rewrite !expression_loop_S.
      destruct (_ <=? _); [now apply observe_ret|].
      apply observe_bind; [now apply IHe|].
      intros next m1' m2' Hq'.
      apply observe_bind; [now apply observe_binary|].
      intros v m1'' m2'' Hq''. now apply IHl.
Qed.

End Tracing.

Lemma adds_trace_bind verbose {A B} (c : M machine A) (k : A -> M machine B)
    m :
  adds_trace verbose m (c m) ->
  (forall a m', adds_trace verbose m' (k a m')) ->
  adds_trace verbose m (bind c k m).
Proof.
  unfold bind. intros Hc Hk.
  destruct (c m) as [a m'|e m'| |]; cbn in *; auto.
  destruct Hc as (t1 & H1 & Ht1 & Hv1).
  specialize (Hk a m').
  destruct (k a m') as [b m''|e m''| |]; cbn in *; auto;
    destruct Hk as (t2 & H2 & Ht2 & Hv2);
    exists (t1 ++ t2);
    (split; [rewrite H2, H1; now rewrite app_assoc|]);
    (split; [rewrite forallb_app; now rewrite Ht1, Ht2|]);
    intros Hv; now rewrite (Hv1 Hv), (Hv2 Hv).
Qed.

Lemma adds_trace_nothing verbose {A} m (o : outcome machine A) :
  match o with
  | Return _ m' | Throw _ m' => stdout m' = stdout m
  | _ => True
  end ->
  adds_trace verbose m o.
Proof.
  destruct o; cbn; auto; intros H; exists []; rewrite app_nil_r; auto.
Qed.

Lemma adds_trace_lift verbose {A} (c : M lexer_state A) m :
  adds_trace verbose m (lift c m).
Proof.
  apply adds_trace_nothing. unfold lift.
  destruct (c (lexer m)); cbn; auto.
Qed.

Lemma adds_trace_one verbose {A} (a : A) m o :
  is_trace o = true ->
  adds_trace verbose m (Return a (if verbose then print_stdout m o else m)).
Proof.
  intros Ho. destruct verbose; cbn.
  - exists [o]. cbn. rewrite Ho. repeat split; auto. discriminate.
  - exists []. rewrite app_nil_r. auto.
Qed.

Lemma adds_trace_unary verbose op v m :
  adds_trace verbose m (unary.evaluate_operator verbose op v m).
Proof.
  unfold unary.evaluate_operator.
  destruct (encoding v) as [[]|];
    first [ destruct (unary.evaluate_operator_integer _ _ _ _)
          | destruct (unary.evaluate_operator_real _ _ _)
          | idtac ];
    try (apply adds_trace_one; reflexivity);
    apply adds_trace_nothing; cbn; auto.
Qed.

Lemma adds_trace_binary verbose op l r m :
  adds_trace verbose m (binary.evaluate_operator verbose op l r m).
Proof.
  unfold binary.evaluate_operator.
  destruct (negb _); [apply adds_trace_nothing; cbn; auto|].
  destruct (encoding l) as [[]|];
    first [ destruct (binary.evaluate_operator_integer _ _ _ _ _)
          | destruct (binary.evaluate_operator_real _ _ _ _ _ _)
          | idtac ];
    try (apply adds_trace_one; reflexivity);
    apply adds_trace_nothing; cbn; auto.
Qed.

Lemma parser_adds_trace verbose input mode fuel :
  (forall m, adds_trace verbose m (compute_value verbose input mode fuel m))
  /\ (forall sentinel min_precedence m,
        adds_trace verbose m
          (compute_expression verbose input mode fuel sentinel
             min_precedence m))
  /\ (forall sentinel min_precedence value op m,
        adds_trace verbose m
          (expression_loop verbose input mode fuel sentinel min_precedence
             value op m)).
Proof.
  induction fuel as [|fuel (IHv & IHe & IHl)].
  - repeat split; intros; exact I.
  - split; [|split].
    + intros m. rewrite compute_value_S.
      apply adds_trace_bind; [apply adds_trace_lift|].
      intros v m'.
      destruct (encoding v); [apply adds_trace_nothing; reflexivity|].
      apply adds_trace_bind; [apply adds_trace_lift|].
      intros op m''.
      destruct op; cbn [operator_table arity];
        try (apply adds_trace_bind; [apply IHv|];
             intros; apply adds_trace_unary);
        try (apply adds_trace_nothing; reflexivity).
      apply adds_trace_bind; [apply IHe|].
      intros; apply adds_trace_nothing; reflexivity.
    + intros sentinel min_precedence m. rewrite compute_expression_S.
      apply adds_trace_bind; [apply IHv|].
      intros v m'.
      apply adds_trace_bind; [apply adds_trace_lift|].
      intros op m''. apply IHl.
    + intros sentinel min_precedence value op m. rewrite expression_loop_S.
      destruct (_ <=? _); [apply adds_trace_nothing; reflexivity|].
      apply adds_trace_bind; [apply IHe|].
      intros next m'.
      apply adds_trace_bind; [apply adds_trace_binary|].
      intros v m''. apply IHl.
Qed.

(** The values computed do not depend on tracing.  For every line,
    encoding and starting state, the evaluation with [verbose] set and the
    one with it clear compute the same value or throw the same exception,
    with the same cursor, [errno] and [stderr], and make the same calls of
    [printf] once those for the trace lines are left out.  What the calls
    for the trace lines do to the static buffers of the formatter is not
    covered here: see [buffered] and the last section. *)
Lemma tracing_computes_the_same_values :
  forall input mode m,
    observe (evaluate true input mode m)
    = observe (evaluate false input mode m)
    /\ observe (handle_input true input mode m)
       = observe (handle_input false input mode m)
    /\ adds_trace true m (evaluate true input mode m)
    /\ adds_trace false m (evaluate false input mode m).
Proof.
  intros input mode m.
  assert (He : observe (evaluate true input mode m)
               = observe (evaluate false input mode m)).
  { unfold evaluate.
    apply observe_bind.
    - apply (tracing_simulation input mode (enough_fuel input)). reflexivity.
    - intros r m1 m2 Hq. now apply observe_ret. }
  assert (Ht : forall verbose,
             adds_trace verbose m (evaluate verbose input mode m)).
  { intros verbose. unfold evaluate.
    pose proof (parser_adds_trace verbose input mode (enough_fuel input))
      as (_ & H & _).
    pose proof (adds_trace_bind verbose
                  (compute_expression verbose input mode (enough_fuel input)
                     END_EXPRESSION 0)
                  (fun r => ret (fst r))
                  (set_lexer m (set_cursor (lexer m) 0))
                  (H _ _ _)
                  (fun a m' => adds_trace_nothing verbose m'
                                 (ret (fst a) m') eq_refl)) as Hb.
    exact Hb. }
  split; [exact He|]. split; [|split; apply Ht].
  unfold handle_input.
  destruct (evaluate true input mode m) as [v1 m1|e1 m1| |],
           (evaluate false input mode m) as [v2 m2|e2 m2| |];
    cbn in He; try discriminate; try reflexivity.
  - assert (Hv : v1 = v2) by congruence.
    assert (Hq : quiet m1 = quiet m2) by congruence.
    cbn. subst v2. now rewrite (quiet_print_stdout m1 m2 _ Hq).
  - assert (Hv : e1 = e2) by congruence.
    assert (Hq : quiet m1 = quiet m2) by congruence.
    cbn. subst e2. rewrite (quiet_lexer m1 m2 Hq).
    now rewrite (quiet_print_stderr m1 m2 _ Hq).
Qed.

(** ** Literals that are accepted *)

Lemma parse_int_in_range input st sign digits rest min max :
  here input st = sign_text sign ++ digits ++ rest ->
  digits <> [] -> forallb isdigit digits = true ->
  isdigit (peek rest) = false ->
  libc.LLONG_MIN <= min -> max <= libc.LLONG_MAX ->
  min <= literal_value sign digits <= max ->
  parse_int input min max st
  = Return (literal_value sign digits)
      (set_errno
         (advance (List.length (sign_text sign) + List.length digits) st)
         (errno_ERANGE st)).
Proof.
  intros Hhere Hne Hd Hr Hmin Hmax Hin.
  unfold parse_int, convert, bind.
  rewrite Hhere, strtoll_literal by assumption. cbv zeta.
  destruct (Z.ltb_spec (literal_value sign digits) libc.LLONG_MIN) as [H1|H1];
    [exfalso; lia|].
  destruct (Z.ltb_spec libc.LLONG_MAX (literal_value sign digits)) as [H2|H2];
    [exfalso; lia|].
  cbn [libc.conv_value libc.conv_erange libc.conv_consumed orb].
  destruct (Z.ltb_spec (literal_value sign digits) min); [exfalso; lia|].
  destruct (Z.ltb_spec max (literal_value sign digits)); [exfalso; lia|].
  reflexivity.
Qed.

Lemma parse_uint_in_range input st sign digits rest max :
  here input st = sign_text sign ++ digits ++ rest ->
  sign <> MinusSign ->
  digits <> [] -> forallb isdigit digits = true ->
  isdigit (peek rest) = false ->
  max <= libc.ULLONG_MAX ->
  literal_value sign digits <= max ->
  parse_uint input max st
  = Return (literal_value sign digits)
      (set_errno
         (advance (List.length (sign_text sign) + List.length digits) st)
         (errno_ERANGE st)).
Proof.
  intros Hhere Hs Hne Hd Hr Hmax Hin.
  unfold parse_uint. rewrite Hhere.
  rewrite minus_guard_false by assumption.
  cbn [andb]. unfold convert, bind.
  rewrite Hhere, strtoull_literal by assumption. cbv zeta.
  assert (Hv : literal_value sign digits = decimal_value digits)
    by (destruct sign; [reflexivity | reflexivity | congruence]).
  rewrite Hv in *.
  destruct (Z.ltb_spec libc.ULLONG_MAX (decimal_value digits));
    [exfalso; lia|].
  cbn [libc.conv_value libc.conv_erange libc.conv_consumed orb].
  destruct (Z.ltb_spec max (decimal_value digits)); [exfalso; lia|].
  reflexivity.
Qed.

Lemma read_signed_to_bits w z :
  0 < w -> - 2 ^ (w - 1) <= z < 2 ^ (w - 1) ->
  read_signed w (to_bits w z) = z.
Proof.
  intros Hw Hz. unfold read_signed, to_bits.
  assert (Hpow : 2 ^ w = 2 * 2 ^ (w - 1)).
  { replace w with (Z.succ (w - 1)) at 1 by lia.
    apply Z.pow_succ_r. lia. }
  assert (Hhalf : 0 < 2 ^ (w - 1)) by (apply Z.pow_pos_nonneg; lia).
  rewrite Z.mod_mod by lia.
  destruct (Z.lt_ge_cases z 0) as [Hneg|Hpos].
  - replace (z mod 2 ^ w) with (z + 2 ^ w)
      by (apply Z.mod_unique with (q := -1); lia).
    destruct (Z.ltb_spec (z + 2 ^ w) (2 ^ (w - 1))); lia.
  - rewrite Z.mod_small by lia.
    destruct (Z.ltb_spec z (2 ^ (w - 1))); lia.
Qed.

Lemma read_int_to_bits mode z :
  is_integer mode = true ->
  encoding_min mode <= z <= encoding_max mode ->
  read_int (is_signed mode) (width mode) (to_bits (width mode) z) = z.
Proof.
  intros Hint Hz. unfold encoding_min, encoding_max in Hz.
  destruct (is_signed mode) eqn:Hs; unfold read_int.
  - apply read_signed_to_bits; [destruct mode; reflexivity | lia].
  - unfold read_unsigned, to_bits.
    rewrite Z.mod_mod by (apply Z.pow_nonzero; destruct mode; cbn; lia).
    apply Z.mod_small. lia.
Qed.

Lemma parse_decimal_member_in_range input st mode sign digits rest :
  here input st = sign_text sign ++ digits ++ rest ->
  is_integer mode = true ->
  digits <> [] -> forallb isdigit digits = true ->
  isdigit (peek rest) = false ->
  (is_signed mode = false -> sign <> MinusSign) ->
  encoding_min mode <= literal_value sign digits <= encoding_max mode ->
  parse_decimal_member input mode st
  = Return (to_bits (width mode) (literal_value sign digits))
      (set_errno
         (advance (List.length (sign_text sign) + List.length digits) st)
         (errno_ERANGE st)).
Proof.
  intros Hhere Hint Hne Hd Hr Hsign Hin.
  destruct mode; try discriminate Hint;
    unfold parse_decimal_member, bind;
    unfold encoding_min, encoding_max in Hin;
    cbn [is_signed width Z.sub Z.add Z.opp Z.pow Z.pow_pos Pos.iter Z.mul
         Pos.mul Pos.add Pos.succ Pos.pred_double Z.pos_sub Pos.sub] in Hin.
  1-4: rewrite (parse_int_in_range input st sign digits rest);
       [reflexivity | assumption | assumption | assumption | assumption
       | discriminate | discriminate | exact Hin].
  all: rewrite (parse_uint_in_range input st sign digits rest);
       [reflexivity | assumption | now apply Hsign | assumption
       | assumption | assumption | discriminate | apply Hin].
Qed.

(** X1. Under every integer encoding, a decimal literal (optional sign,
    digits) whose value is inside the encoding's exact range, and that has
    no minus sign if the encoding is unsigned, is accepted: [parse_value]
    returns a value of the encoding whose bit pattern is the literal's
    value modulo [2^w] and reads back as the literal's value, and leaves
    the cursor behind the last digit. *)
Theorem decimal_literal_in_range :
  forall mode pre ws sign digits rest,
    is_integer mode = true ->
    forallb isspace ws = true ->
    digits <> [] ->
    forallb isdigit digits = true ->
    isdigit (peek rest) = false ->
    (is_signed mode = false -> sign <> MinusSign) ->
    encoding_min mode <= literal_value sign digits <= encoding_max mode ->
    let bits := to_bits (width mode) (literal_value sign digits) in
    parse_value (pre ++ ws ++ sign_text sign ++ digits ++ rest) mode
      (mk_lexer (List.length pre) false)
    = Return (mk_value (Some mode) bits)
        (mk_lexer (List.length pre + List.length ws
                   + (List.length (sign_text sign) + List.length digits))
           false)
    /\ read_int (is_signed mode) (width mode) bits
       = literal_value sign digits.
Proof.
  intros mode pre ws sign digits rest Hint Hws Hne Hd Hr Hsign Hin bits.
  split; [|apply read_int_to_bits; assumption].
  destruct (peek_sign_digits sign digits rest Hne Hd) as [Hsp Hx].
  destruct (parse_value_skips pre ws (sign_text sign ++ digits ++ rest)
              mode false Hws Hsp) as [Hhere ->].
  rewrite Hx.
  set (input := pre ++ ws ++ sign_text sign ++ digits ++ rest) in *.
  set (st0 := mk_lexer (List.length pre + List.length ws) false) in *.
  assert (Hmember :
            parse_decimal_member input mode st0
            = Return bits
                (set_errno
                   (advance (List.length (sign_text sign)
                             + List.length digits) st0)
                   (errno_ERANGE st0)))
    by (apply (parse_decimal_member_in_range input st0 mode sign digits rest);
        assumption).
  rewrite Hmember.
  unfold st0, set_errno, advance, set_cursor. cbn [errno_ERANGE cursor].
  replace (Nat.eqb _ _) with false; [reflexivity|].
  symmetry. apply Nat.eqb_neq.
  destruct digits; [congruence | cbn [List.length]; lia].
Qed.

Lemma decimal_literal_in_range_witness :
  parse_value (cstr " -128+") S8 (mk_lexer 0 false)
  = Return (mk_value (Some S8) 128) (mk_lexer 5 false)
  /\ read_int true 8 128 = -128.
Proof.
  apply (decimal_literal_in_range S8 [] (cstr " ") MinusSign (cstr "128")
           (cstr "+"));
    try reflexivity; try discriminate.
  split; vm_compute; discriminate.
Defined.

(** ** [errno] across calls *)

Lemma keeps_errno_ret {A} (a : A) st : keeps_errno st (ret a st).
Proof. cbn. auto. Qed.

Lemma keeps_errno_bind {A B} (c : M lexer_state A) (k : A -> M lexer_state B)
    st :
  keeps_errno st (c st) ->
  (forall a st', keeps_errno st' (k a st')) ->
  keeps_errno st (bind c k st).
Proof.
  unfold bind. destruct (c st) as [a st'| | |]; cbn; try contradiction.
  intros Hc Hk. specialize (Hk a st').
  destruct (k a st') as [b st''| | |]; cbn in *; try contradiction.
  auto.
Qed.

Lemma keeps_errno_set_ERANGE st : keeps_errno st (set_ERANGE st).
Proof. cbn. auto. Qed.

Lemma keeps_errno_convert input f st : keeps_errno st (convert input f st).
Proof.
  unfold convert. cbn. intros ->. apply orb_true_r.
Qed.

Lemma keeps_errno_parse_int input min max st :
  keeps_errno st (parse_int input min max st).
Proof.
  unfold parse_int. apply keeps_errno_bind; [apply keeps_errno_convert|].
  intros v st'. destruct (_ || _); [|apply keeps_errno_ret].
  apply keeps_errno_bind; [apply keeps_errno_set_ERANGE|].
  intros; apply keeps_errno_ret.
Qed.

Lemma keeps_errno_parse_uint input max st :
  keeps_errno st (parse_uint input max st).
Proof.
  unfold parse_uint. destruct (_ && _).
  - apply keeps_errno_bind; [apply keeps_errno_set_ERANGE|].
    intros; apply keeps_errno_ret.
  - apply keeps_errno_bind; [apply keeps_errno_convert|].
    intros v st'. destruct (_ <? _); [|apply keeps_errno_ret].
    apply keeps_errno_bind; [apply keeps_errno_set_ERANGE|].
    intros; apply keeps_errno_ret.
Qed.

Lemma keeps_errno_strtox_digits input remaining :
  forall value st, keeps_errno st (strtox_digits input remaining value st).
Proof.
  induction remaining as [|remaining IH]; intros value st.
  - cbn. auto.
  - cbn [strtox_digits].
    destruct (negb _); [cbn; auto|].
    specialize (IH (Z.shiftl ((value + digit_to_int (peek (here input st)))
                                mod 2 ^ 64) 4 mod 2 ^ 64) (advance 1 st)).
    destruct (strtox_digits _ _ _ _); cbn in *; auto.
Qed.

Lemma keeps_errno_strtox input max_digits st :
  keeps_errno st (strtox input max_digits st).
Proof.
  unfold strtox. destruct (_ || _); [cbn; auto|].
  destruct (negb _); [cbn; auto|].
  pose proof (keeps_errno_strtox_digits input max_digits 0
                (advance
                   (span_len (fun c => Ascii.eqb c "0")
                      (here input (advance 1 st)))
                   (advance 1 st))) as H.
  destruct (strtox_digits _ _ _ _); cbn in *; auto.
Qed.

Lemma keeps_errno_member input mode (hex : bool) st :
  keeps_errno st
    ((if hex then parse_hex_member input mode
      else parse_decimal_member input mode) st).
Proof.
  destruct hex, mode; cbn [parse_hex_member parse_decimal_member];
    try apply keeps_errno_convert;
    (apply keeps_errno_bind;
     [first [ apply keeps_errno_strtox | apply keeps_errno_parse_int
            | apply keeps_errno_parse_uint ]
     | intros; apply keeps_errno_ret ]).
Qed.

(** X2. [parse_value] does not clear [errno] before it converts.  If
    [errno] is already [ERANGE] when it is called, then whatever the text
    and the encoding are, it throws [range_error] with the cursor at the
    first non-blank character, and clears [errno]: a literal that is in
    range is rejected too. *)
Theorem stale_errno_is_a_range_fault :
  forall input mode st,
    errno_ERANGE st = true ->
    parse_value input mode st
    = Throw range_error
        (mk_lexer (cursor st + span_len isspace (here input st)) false).
Proof.
  intros input mode st He.
  unfold parse_value, bind, skip_whitespace.
  set (st0 := advance (span_len isspace (here input st)) st).
  pose proof (keeps_errno_member input mode
                (Ascii.eqb (peek (here input st0)) "x") st0) as H.
  destruct ((if Ascii.eqb (peek (here input st0)) "x"
             then parse_hex_member input mode
             else parse_decimal_member input mode) st0)
    as [bits st1| | |]; cbn in H; try contradiction.
  rewrite (H He). reflexivity.
Qed.

Lemma stale_errno_is_a_range_fault_witness :
  parse_value (cstr " 1") S8 (mk_lexer 0 true)
  = Throw range_error (mk_lexer 1 false).
Proof.
  apply (stale_errno_is_a_range_fault (cstr " 1") S8 (mk_lexer 0 true)).
  reflexivity.
Defined.

(** ** The hexadecimal column *)

Lemma cstr_app (a b : string) : cstr (a ++ b) = cstr a ++ cstr b.
Proof.
  unfold cstr. induction a as [|c a IH]; cbn; [reflexivity|].
  now rewrite IH.
Qed.

Lemma hex_digits_length n : forall z, List.length (cstr (hex_digits n z)) = n.
Proof.
  induction n as [|n IH]; intros z; cbn [hex_digits]; [reflexivity|].
  rewrite cstr_app, length_app, IH. cbn. lia.
Qed.

Lemma hex_char_spec d :
  0 <= d < 16 ->
  isxdigit (hex_char d) = true
  /\ digit_to_int (hex_char d) = d
  /\ (isdigit (hex_char d)
      || (97 <=? code (hex_char d)) && (code (hex_char d) <=? 102)) = true.
Proof.
  intros H.
  assert (Hd : d = 0 \/ d = 1 \/ d = 2 \/ d = 3 \/ d = 4 \/ d = 5 \/ d = 6
               \/ d = 7 \/ d = 8 \/ d = 9 \/ d = 10 \/ d = 11 \/ d = 12
               \/ d = 13 \/ d = 14 \/ d = 15) by lia.
  repeat (destruct Hd as [->|Hd]; [repeat split; reflexivity|]).
  subst d. repeat split; reflexivity.
Qed.

Lemma hex_digits_xdigit n :
  forall z, forallb isxdigit (cstr (hex_digits n z)) = true.
Proof.
  induction n as [|n IH]; intros z; cbn [hex_digits]; [reflexivity|].
  rewrite cstr_app, forallb_app, IH. cbn.
  destruct (hex_char_spec (z mod 16)) as [-> _]; [|reflexivity].
  apply Z.mod_pos_bound. lia.
Qed.

Lemma hex_value_app a b :
  hex_value (a ++ b)
  = hex_value a * 16 ^ Z.of_nat (List.length b) + hex_value b.
Proof.
  induction a as [|c a IH]; cbn [app hex_value List.length]; [lia|].
  rewrite IH, length_app, Nat2Z.inj_add, Z.pow_add_r by lia. ring.
Qed.

Lemma hex_value_hex_digits n :
  forall z, hex_value (cstr (hex_digits n z)) = z mod 16 ^ Z.of_nat n.
Proof.
  induction n as [|n IH]; intros z; cbn [hex_digits].
  - cbn. now rewrite Z.mod_1_r.
  - rewrite cstr_app, hex_value_app, IH.
    cbn [cstr list_ascii_of_string List.length hex_value].
    destruct (hex_char_spec (z mod 16)) as (_ & -> & _);
      [apply Z.mod_pos_bound; lia|].
    rewrite Nat2Z.inj_succ, Z.pow_succ_r by lia.
    rewrite Nat2Z.inj_succ, Z.pow_succ_r by lia.
    rewrite (Z.rem_mul_r z 16 (16 ^ Z.of_nat n)) by lia.
    lia.
Qed.




Lemma format_hex_digits mode bits :
  format_hex (mk_value (Some mode) bits)
  = Some (String "x"
            (hex_digits (hex_width mode) (read_unsigned (width mode) bits))).
Proof. destruct mode; reflexivity. Qed.

(** X3. What [format_hex] prints denotes the bit pattern: for a value of
    any encoding the text is [x] followed by exactly as many digits as the
    encoding is wide (2, 4, 8 or 16), every digit is [0-9] or lower case
    [a-f], and the positional value of the digits is the unsigned reading
    of the value's bits. *)
Theorem format_hex_denotes_bits :
  forall mode bits,
  exists digits,
    format_hex (mk_value (Some mode) bits) = Some (String "x" digits)
    /\ String.length digits = hex_width mode
    /\ forallb (fun c => isdigit c || (97 <=? code c) && (code c <=? 102))
         (cstr digits) = true
    /\ hex_value (cstr digits) = read_unsigned (width mode) bits.
Proof.
  intros mode bits.
  exists (hex_digits (hex_width mode) (read_unsigned (width mode) bits)).
  split; [apply format_hex_digits|].
  split; [|split].
  - rewrite <- (hex_digits_length (hex_width mode)
                  (read_unsigned (width mode) bits)) at 2.
    unfold cstr. generalize (hex_digits (hex_width mode)
                               (read_unsigned (width mode) bits)).
    induction s; cbn; congruence.
  - generalize (read_unsigned (width mode) bits).
    induction (hex_width mode) as [|n IH]; intros z; cbn [hex_digits];
      [reflexivity|].
    rewrite cstr_app, forallb_app, IH. cbn.
    destruct (hex_char_spec (z mod 16)) as (_ & _ & ->); [|reflexivity].
    apply Z.mod_pos_bound. lia.
  - rewrite hex_value_hex_digits.
    replace (16 ^ Z.of_nat (hex_width mode)) with (2 ^ width mode)
      by (destruct mode; reflexivity).
    unfold read_unsigned. apply Z.mod_mod. destruct mode; discriminate.
Qed.


(** ** The decimal column *)

Lemma digits_of_uint_isdigit u :
  forallb isdigit (cstr (NilEmpty.string_of_uint u)) = true.
Proof. induction u; cbn; auto. Qed.

Lemma of_uint_acc_value u :
  forall acc,
    Z.pos (Pos.of_uint_acc u acc)
    = Z.pos acc
      * 10 ^ Z.of_nat (List.length (cstr (NilEmpty.string_of_uint u)))
      + decimal_value (cstr (NilEmpty.string_of_uint u)).
Proof.
  induction u; intros acc;
    cbn [Pos.of_uint_acc NilEmpty.string_of_uint cstr list_ascii_of_string
         List.length decimal_value];
    [cbn; lia | ..];
    rewrite IHu;
    fold (cstr (NilEmpty.string_of_uint u));
    rewrite Nat2Z.inj_succ, Z.pow_succ_r by lia;
    rewrite ?Pos2Z.inj_add, Pos2Z.inj_mul;
    match goal with
    | |- context [code ?c] =>
        let v := eval vm_compute in (code c) in change (code c) with v
    end;
    ring.
Qed.

Lemma of_uint_value u :
  Z.of_N (Pos.of_uint u) = decimal_value (cstr (NilEmpty.string_of_uint u)).
Proof.
  induction u;
    cbn [Pos.of_uint NilEmpty.string_of_uint cstr list_ascii_of_string
         List.length decimal_value Z.of_N];
    [reflexivity | ..];
    fold (cstr (NilEmpty.string_of_uint u));
    rewrite ?of_uint_acc_value, ?IHu;
    match goal with
    | |- context [code ?c] =>
        let v := eval vm_compute in (code c) in change (code c) with v
    end;
    lia.
Qed.

Lemma digits_of_positive p :
  let digits := cstr (NilZero.string_of_uint (Pos.to_uint p)) in
  digits <> [] /\ forallb isdigit digits = true
  /\ decimal_value digits = Z.pos p.
Proof.
  assert (E : NilZero.string_of_uint (Pos.to_uint p)
              = NilEmpty.string_of_uint (Pos.to_uint p)).
  { pose proof (DecimalPos.Unsigned.to_uint_nonnil p) as Hn.
    destruct (Pos.to_uint p); [congruence | reflexivity ..]. }
  cbv zeta. rewrite E.
  assert (Hv : decimal_value (cstr (NilEmpty.string_of_uint (Pos.to_uint p)))
               = Z.pos p).
  { rewrite <- of_uint_value, DecimalPos.Unsigned.of_to. reflexivity. }
  split; [|split].
  - intros Hnil. rewrite Hnil in Hv. discriminate Hv.
  - apply digits_of_uint_isdigit.
  - exact Hv.
Qed.

(** The text [decimal] produces is an optional minus sign and digits. *)
Lemma decimal_shape z :
  exists digits,
    let sign := if z <? 0 then MinusSign else NoSign in
    cstr (decimal z) = sign_text sign ++ digits
    /\ digits <> [] /\ forallb isdigit digits = true
    /\ literal_value sign digits = z.
Proof.
  destruct z as [|p|p].
  - exists ["0"%char]. repeat split. discriminate.
  - exists (cstr (NilZero.string_of_uint (Pos.to_uint p))).
    destruct (digits_of_positive p) as (Hne & Hd & Hv).
    change (Z.pos p <? 0) with false. cbv zeta iota.
    repeat split; assumption.
  - exists (cstr (NilZero.string_of_uint (Pos.to_uint p))).
    destruct (digits_of_positive p) as (Hne & Hd & Hv).
    change (Z.neg p <? 0) with true. cbv zeta iota.
    repeat split; try assumption.
    cbn [literal_value]. rewrite Hv. reflexivity.
Qed.

Lemma cstr_length s : List.length (cstr s) = String.length s.
Proof. unfold cstr. induction s; cbn; congruence. Qed.

Lemma format_dec_integer mode bits :
  is_integer mode = true ->
  format_dec (mk_value (Some mode) bits)
  = Some (decimal (read_int (is_signed mode) (width mode) bits)).
Proof. destruct mode; try discriminate; reflexivity. Qed.

Lemma to_bits_read_int signed w bits :
  0 < w -> to_bits w (read_int signed w bits) = read_unsigned w bits.
Proof.
  intros Hw. unfold to_bits, read_int, read_signed, read_unsigned.
  destruct signed; [|apply Z.mod_mod; apply Z.pow_nonzero; lia].
  destruct (_ <? _); [apply Z.mod_mod; apply Z.pow_nonzero; lia|].
  rewrite <- (Z.mul_1_l (2 ^ w)) at 2.
  rewrite <- Z.add_opp_r, <- Z.mul_opp_l, Z.mod_add
    by (apply Z.pow_nonzero; lia).
  apply Z.mod_mod. apply Z.pow_nonzero; lia.
Qed.

(** What [parse_value] does on the text that [format_dec] prints. *)
Lemma parse_value_format_dec :
  forall mode bits text pre ws rest,
    is_integer mode = true ->
    format_dec (mk_value (Some mode) bits) = Some text ->
    forallb isspace ws = true ->
    isdigit (peek rest) = false ->
    parse_value (pre ++ ws ++ cstr text ++ rest) mode
      (mk_lexer (List.length pre) false)
    = Return (mk_value (Some mode) (read_unsigned (width mode) bits))
        (mk_lexer (List.length pre + List.length ws + String.length text)
           false).
Proof.
  intros mode bits text pre ws rest Hint Hfmt Hws Hrest.
  rewrite format_dec_integer in Hfmt by assumption. injection Hfmt as <-.
  set (z := read_int (is_signed mode) (width mode) bits).
  pose proof (read_int_range mode bits Hint) as Hrange. fold z in Hrange.
  destruct (decimal_shape z) as (digits & Htext & Hne & Hd & Hv).
  set (sign := if z <? 0 then MinusSign else NoSign) in *.
  rewrite <- cstr_length, Htext, <- app_assoc, length_app.
  destruct (peek_sign_digits sign digits rest Hne Hd) as [Hsp Hx].
  destruct (parse_value_skips pre ws (sign_text sign ++ digits ++ rest)
              mode false Hws Hsp) as [Hhere ->].
  rewrite Hx.
  rewrite (parse_decimal_member_in_range _ _ mode sign digits rest);
    try assumption.
  - unfold set_errno, advance, set_cursor. cbn [errno_ERANGE cursor].
    replace (Nat.eqb _ _) with false.
    + rewrite Hv. unfold z.
      rewrite to_bits_read_int by (destruct mode; reflexivity).
      do 2 f_equal; lia.
    + symmetry. apply Nat.eqb_neq.
      destruct digits; [congruence | cbn [List.length]; lia].
  - intros Hu. unfold sign.
    unfold encoding_min in Hrange. rewrite Hu in Hrange.
    destruct (Z.ltb_spec z 0); [lia | discriminate].
  - rewrite Hv. exact Hrange.
Qed.

(** ** Looking up an operator *)

Lemma identifier_not_space op rest :
  isspace (peek (identifier (operator_table op) ++ rest)) = false.
Proof. destruct op; reflexivity. Qed.

Lemma parse_operator_from_skip input op ops requested sentinel st :
  negb (arity_eqb (arity (operator_table op)) requested)
  && negb (match sentinel with
           | Some s => operator_eqb op s
           | None => false
           end) = true
  \/ strncmp_eq (here input st) (identifier (operator_table op))
       (Nat.max 1 (strlen (identifier (operator_table op)))) = false ->
  parse_operator_from input (op :: ops) requested sentinel st
  = parse_operator_from input ops requested sentinel st.
Proof.
  intros H. cbn [parse_operator_from].
  destruct (negb _ && negb _); [reflexivity|].
  destruct H as [H|H]; [discriminate H|]. cbv zeta. now rewrite H.
Qed.

Lemma parse_operator_from_hit input op ops requested sentinel st :
  negb (arity_eqb (arity (operator_table op)) requested)
  && negb (match sentinel with
           | Some s => operator_eqb op s
           | None => false
           end) = false ->
  strncmp_eq (here input st) (identifier (operator_table op))
    (Nat.max 1 (strlen (identifier (operator_table op)))) = true ->
  parse_operator_from input (op :: ops) requested sentinel st
  = Return op
      (advance (Nat.max 1 (strlen (identifier (operator_table op)))) st).
Proof.
  intros Hsel Hcmp. cbn [parse_operator_from].
  rewrite Hsel. cbv zeta. now rewrite Hcmp.
Qed.

Ltac find_row Hhere :=
  repeat (rewrite parse_operator_from_skip
            by ((left; reflexivity) || (right; rewrite Hhere; reflexivity)));
  rewrite parse_operator_from_hit;
  [reflexivity | reflexivity | rewrite Hhere; reflexivity].

(** X6. No row of [operator_table] shadows another.  When the sentinel
    passed to [parse_operator] is absent or one of the two sentinel rows
    (as in every call the program makes), and the text at the cursor is
    white space followed by the identifier of an operator of the requested
    class, or of the sentinel, then whatever follows the identifier,
    [parse_operator] returns that very operator and leaves the cursor
    behind the identifier (one character for the end-of-input row, whose
    identifier is the NUL).  In particular [-] is NEGATE where a unary
    operator is requested and SUBTRACT where a binary one is. *)
Theorem parse_operator_finds_every_row :
  forall op requested sentinel pre ws rest e,
    (forall s, sentinel = Some s -> arity (operator_table s) = SENTINEL) ->
    arity (operator_table op) = requested \/ sentinel = Some op ->
    forallb isspace ws = true ->
    parse_operator (pre ++ ws ++ identifier (operator_table op) ++ rest)
      requested sentinel (mk_lexer (List.length pre) e)
    = Return op
        (mk_lexer
           (List.length pre + List.length ws
            + Nat.max 1 (strlen (identifier (operator_table op)))) e).
Proof.
  intros op requested sentinel pre ws rest e Hsent Hsel Hws.
  unfold parse_operator, bind, skip_whitespace.
  set (text := identifier (operator_table op) ++ rest).
  rewrite here_at.
  rewrite (span_len_app isspace ws text Hws (identifier_not_space op rest)).
  set (input := pre ++ ws ++ text).
  set (st0 := advance (List.length ws) (mk_lexer (List.length pre) e)).
  assert (Hhere : here input st0 = text).
  { unfold st0. rewrite here_advance. unfold input. rewrite here_at.
    apply skipn_length_app. }
  assert (Hs : sentinel = None \/ sentinel = Some CLOSE_PAREN
               \/ sentinel = Some END_EXPRESSION).
  { destruct sentinel as [s|]; [|auto].
    specialize (Hsent s eq_refl). destruct s; try discriminate Hsent; auto. }
  unfold all_operators.
  replace (mk_lexer
             (List.length pre + List.length ws
              + Nat.max 1 (strlen (identifier (operator_table op)))) e)
    with (advance (Nat.max 1 (strlen (identifier (operator_table op)))) st0)
    by reflexivity.
  clearbody st0 input. unfold text in Hhere. clear text.
  destruct Hs as [ -> | [ -> | -> ] ];
    (destruct Hsel as [ <- | Hop ];
     [ destruct op; find_row Hhere
     | try discriminate Hop; injection Hop as <-;
       destruct requested; find_row Hhere ]).
Qed.

Lemma parse_operator_finds_every_row_witness :
  parse_operator (cstr "1 -2") BINARY (Some END_EXPRESSION) (mk_lexer 1 false)
  = Return SUBTRACT (mk_lexer 3 false)
  /\ parse_operator (cstr "1 -2") UNARY None (mk_lexer 1 false)
     = Return NEGATE (mk_lexer 3 false).
Proof.
  split.
  - apply (parse_operator_finds_every_row SUBTRACT BINARY
             (Some END_EXPRESSION) (cstr "1") (cstr " ") (cstr "2") false);
      [intros s [= <-]; reflexivity | left; reflexivity | reflexivity].
  - apply (parse_operator_finds_every_row NEGATE UNARY None
             (cstr "1") (cstr " ") (cstr "2") false);
      [discriminate | left; reflexivity | reflexivity].
Defined.

(** ** What an evaluation prints *)

Lemma silent_bind {A B} (P : A -> Prop) (Q : B -> Prop) (c : M machine A)
    (k : A -> M machine B) m :
  silent P m (c m) ->
  (forall a m', P a -> silent Q m' (k a m')) ->
  silent Q m (bind c k m).
Proof.
  unfold bind. intros Hc Hk.
  destruct (c m) as [a m1|e m1| |]; cbn in *; auto.
  destruct Hc as [Ha Hs]. specialize (Hk a m1 Ha).
  destruct (k a m1) as [b m2|e m2| |]; cbn in *; auto.
  - destruct Hk as [Hb Hs2]. split; [exact Hb | congruence].
  - congruence.
Qed.

Lemma silent_lift {A} (P : A -> Prop) (c : M lexer_state A) m :
  (forall a st, c (lexer m) = Return a st -> P a) ->
  silent P m (lift c m).
Proof.
  unfold lift. intros H.
  destruct (c (lexer m)) as [a st|e st| |]; cbn; auto.
  split; [now apply (H a st) | reflexivity].
Qed.

Lemma parse_value_encoding input mode st v st' :
  parse_value input mode st = Return v st' ->
  encoding v = Some mode \/ encoding v = None.
Proof.
  unfold parse_value, bind, skip_whitespace.
  set (st0 := advance (span_len isspace (here input st)) st).
  destruct ((if Ascii.eqb (peek (here input st0)) "x"
             then parse_hex_member input mode
             else parse_decimal_member input mode) st0)
    as [bits st1| | |]; try discriminate.
  destruct (errno_ERANGE st1); [discriminate|].
  destruct (Nat.eqb _ _); intros [= <- _]; auto.
Qed.

Lemma encoding_eqb_refl e : encoding_eqb e e = true.
Proof. destruct e; reflexivity. Qed.

Lemma silent_unary verbose mode op v m :
  has_encoding mode v ->
  silent (has_encoding mode) m (unary.evaluate_operator verbose op v m).
Proof.
  unfold has_encoding, unary.evaluate_operator. intros Hv. rewrite Hv.
  destruct mode;
    first [ destruct (unary.evaluate_operator_integer _ _ _ _)
          | destruct (unary.evaluate_operator_real _ _ _) ];
    cbn; auto; destruct verbose; split; reflexivity.
Qed.

Lemma silent_binary verbose mode op l r m :
  has_encoding mode l -> has_encoding mode r ->
  silent (has_encoding mode) m (binary.evaluate_operator verbose op l r m).
Proof.
  unfold has_encoding, binary.evaluate_operator. intros Hl Hr.
  rewrite Hl, Hr. cbn [binary.same_encoding].
  rewrite encoding_eqb_refl. cbn [negb].
  destruct mode;
    first [ destruct (binary.evaluate_operator_integer _ _ _ _ _)
          | destruct (binary.evaluate_operator_real _ _ _ _ _ _) ];
    cbn; auto; destruct verbose; split; reflexivity.
Qed.

Lemma parser_silent verbose input mode fuel :
  (forall m,
      silent (has_encoding mode) m (compute_value verbose input mode fuel m))
  /\ (forall sentinel min_precedence m,
        silent (fun r => has_encoding mode (fst r)) m
          (compute_expression verbose input mode fuel sentinel
             min_precedence m))
  /\ (forall sentinel min_precedence value op m,
        has_encoding mode value ->
        silent (fun r => has_encoding mode (fst r)) m
          (expression_loop verbose input mode fuel sentinel min_precedence
             value op m)).
Proof.
  induction fuel as [|fuel (IHv & IHe & IHl)].
  - repeat split; intros; exact I.
  - split; [|split].
    + intros m. rewrite compute_value_S.
      apply (silent_bind
               (fun v => encoding v = Some mode \/ encoding v = None)).
      { apply silent_lift. intros v st. apply parse_value_encoding. }
      intros v m1 Hv.
      destruct (encoding v) as [e|] eqn:Ev.
      { cbn. split; [|reflexivity]. unfold has_encoding.
        destruct Hv as [H|H]; congruence. }
      apply (silent_bind (fun _ => True)).
      { apply silent_lift. auto. }
      intros op m2 _.
      destruct op; cbn [operator_table arity];
        try (apply (silent_bind (has_encoding mode)); [apply IHv|];
             intros r m3 Hr; now apply silent_unary);
        try (cbn; reflexivity).
      apply (silent_bind (fun r => has_encoding mode (fst r)));
        [apply IHe|].
      intros r m3 Hr. cbn. auto.
    + intros sentinel min_precedence m. rewrite compute_expression_S.
      apply (silent_bind (has_encoding mode)); [apply IHv|].
      intros v m1 Hv.
      apply (silent_bind (fun _ => True)).
      { apply silent_lift. auto. }
      intros op m2 _. now apply IHl.
    + intros sentinel min_precedence value op m Hv.
      rewrite expression_loop_S.
      destruct (_ <=? _); [cbn; auto|].
      apply (silent_bind (fun r => has_encoding mode (fst r)));
        [apply IHe|].
      intros next m1 Hn.
      apply (silent_bind (has_encoding mode));
        [now apply silent_binary|].
      intros v m2 Hv2. now apply IHl.
Qed.

(** X7. What [handle_input] prints.  When a line evaluates, nothing goes
    to [stderr], and [stdout] gets trace lines (none unless [verbose] is
    set) followed by one result line, whose value has the encoding of the
    session: both columns of the result line can be rendered.  When a
    line is faulty, [stdout] gets trace lines only, and [stderr] exactly
    one caret with the message of [parse_error] or [range_error].  The
    diagnostics of the evaluator about mixed types and about an invalid
    encoding are never printed. *)
Theorem handle_input_output :
  forall verbose input mode m,
    match handle_input verbose input mode m with
    | Return success m' =>
        exists trace,
          forallb is_trace trace = true
          /\ (verbose = false -> trace = [])
          /\ if success
             then exists bits,
                 stdout m'
                 = stdout m ++ trace
                   ++ [ResultLine (mk_value (Some mode) bits)]
                 /\ stderr m' = stderr m
                 /\ format_dec (mk_value (Some mode) bits) <> None
                 /\ format_hex (mk_value (Some mode) bits) <> None
             else exists column error,
                 stdout m' = stdout m ++ trace
                 /\ stderr m' = stderr m ++ [Caret column (what error)]
    | _ => True
    end.
Proof.
  intros verbose input mode m. unfold handle_input.
  set (m0 := set_lexer m (set_cursor (lexer m) 0)).
  assert (Hs : silent (has_encoding mode) m0 (evaluate verbose input mode m)).
  { unfold evaluate. fold m0.
    apply (silent_bind (fun r => has_encoding mode (fst r))).
    - apply (parser_silent verbose input mode (enough_fuel input)).
    - intros r m1 Hr. cbn. auto. }
  assert (Ht : adds_trace verbose m0 (evaluate verbose input mode m)).
  { unfold evaluate. fold m0.
    apply adds_trace_bind.
    - apply (parser_adds_trace verbose input mode (enough_fuel input)).
    - intros r m1. apply adds_trace_nothing. reflexivity. }
  destruct (evaluate verbose input mode m) as [v m1|e m1| |]; try exact I;
    cbn in Hs, Ht; destruct Ht as (t & Hout & Htr & Hq);
    exists t; (split; [exact Htr|]); (split; [exact Hq|]).
  - destruct Hs as [Hv Herr]. destruct v as [enc bits].
    unfold has_encoding in Hv. cbn in Hv. subst enc.
    exists bits. cbn [print_stdout stdout stderr].
    rewrite Hout, Herr, <- app_assoc.
    repeat split; destruct mode; discriminate.
  - exists (cursor (lexer m1)), e. cbn [print_stderr stdout stderr].
    rewrite Hout, Hs. split; reflexivity.
Qed.

(** ** Where the caret is put *)

Section FaultPosition.

Variable verbose : bool.
Variable input : list ascii.
Variable mode : encoding_t.

#[local] Abbreviation L := (strlen input).

Lemma fault_position_value fuel :
  (forall m, (pos m <= L)%nat ->
     throws_within input (compute_value verbose input mode fuel m)) ->
  (forall sentinel min_precedence m,
     0 <= min_precedence -> (pos m <= L)%nat ->
     throws_within input
       (compute_expression verbose input mode fuel sentinel min_precedence
          m)) ->
  forall m, (pos m <= L)%nat ->
    throws_within input (compute_value verbose input mode (S fuel) m).
Proof.
  intros IHv IHe m Hm.
  destruct (parser_bounds verbose input mode fuel) as (Bv & Be & _).
  rewrite compute_value_S. unfold bind at 1, lift at 1.
  pose proof (parse_value_spec input mode (lexer m) Hm) as Hpv.
  destruct (parse_value input mode (lexer m)) as [v st1|e st1| |];
    try contradiction.
  2: { destruct Hpv as (_ & _ & _ & Hw). cbn. unfold pos, within in *.
       cbn. lia. }
  destruct Hpv as (He1 & Hw1 & Hcase).
  destruct (encoding v) as [e|] eqn:Hv; [exact I|].
  unfold bind at 1, lift at 1. cbn [lexer set_lexer].
  pose proof (parse_operator_spec input UNARY None st1 Hw1) as Hop.
  destruct (parse_operator input UNARY None st1) as [op st2|e st2| |];
    try contradiction.
  2: { destruct Hop as (_ & _ & _ & Hw). cbn. unfold pos, within in *.
       cbn. lia. }
  destruct Hop as (He2 & Hclass & Hlt & Hpos).
  destruct Hclass as [Har|?]; [|discriminate].
  set (m2 := set_lexer (set_lexer m st1) st2).
  assert (Hw2 : (pos m2 <= L)%nat).
  { change (pos m2) with (cursor st2).
    destruct op; cbn in Har; try discriminate; exact Hpos. }
  assert (Hunary : forall uop,
             throws_within input
               ((result <- compute_value verbose input mode fuel ;;
                 unary.evaluate_operator verbose uop result) m2)).
  { intros uop. unfold bind. specialize (IHv m2 Hw2). specialize (Bv m2 Hw2).
    destruct (compute_value verbose input mode fuel m2)
      as [v' m3|e m3| |]; try exact I; try exact IHv.
    destruct Bv as (_ & Hw3 & _).
    pose proof (unary_evaluate_lexer verbose uop v' m3) as Hev.
    destruct (unary.evaluate_operator verbose uop v' m3)
      as [v'' m4|e m4| |]; try exact I.
    cbn. unfold pos in *. rewrite Hev. lia. }
  destruct op; cbn in Har; try discriminate;
    cbn [operator_table arity]; try apply Hunary.
  unfold bind. specialize (IHe CLOSE_PAREN 0 m2 (Z.le_refl 0) Hw2).
  destruct (compute_expression verbose input mode fuel CLOSE_PAREN 0 m2)
    as [[v' op'] m3|e m3| |]; try exact I; exact IHe.
Qed.

Lemma fault_position_expression fuel :
  (forall m, (pos m <= L)%nat ->
     throws_within input (compute_value verbose input mode fuel m)) ->
  (forall sentinel min_precedence value op m,
     0 <= min_precedence -> op_class sentinel op ->
     op_position input op (pos m) -> errno_clear m ->
     throws_within input
       (expression_loop verbose input mode fuel sentinel min_precedence
          value op m)) ->
  forall sentinel min_precedence m,
    0 <= min_precedence -> (pos m <= L)%nat ->
    throws_within input
      (compute_expression verbose input mode (S fuel) sentinel
         min_precedence m).
Proof.
  intros IHv IHl sentinel min_precedence m Hmin Hm.
  destruct (parser_bounds verbose input mode fuel) as (Bv & _ & _).
  rewrite compute_expression_S. unfold bind at 1.
  specialize (IHv m Hm). specialize (Bv m Hm).
  destruct (compute_value verbose input mode fuel m) as [v m1|e m1| |];
    try exact I; try exact IHv.
  destruct Bv as (Hlt1 & Hw1 & He1).
  unfold bind at 1, lift.
  pose proof (parse_operator_spec input BINARY (Some sentinel) (lexer m1) Hw1)
    as Hop.
  destruct (parse_operator input BINARY (Some sentinel) (lexer m1))
    as [op st2|e st2| |]; try contradiction.
  2: { destruct Hop as (_ & _ & _ & Hw). cbn. unfold pos, within in *.
       cbn. lia. }
  destruct Hop as (He2 & Hclass & Hlt2 & Hpos).
  set (m2 := set_lexer m1 st2).
  apply IHl; try assumption.
  - destruct Hclass as [H|H]; [left; exact H | right; congruence].
  - unfold errno_clear in *. cbn. congruence.
Qed.

Lemma fault_position_loop fuel :
  (forall sentinel min_precedence m,
     0 <= min_precedence -> (pos m <= L)%nat ->
     throws_within input
       (compute_expression verbose input mode fuel sentinel min_precedence
          m)) ->
  (forall sentinel min_precedence value op m,
     0 <= min_precedence -> op_class sentinel op ->
     op_position input op (pos m) -> errno_clear m ->
     throws_within input
       (expression_loop verbose input mode fuel sentinel min_precedence
          value op m)) ->
  forall sentinel min_precedence value op m,
    0 <= min_precedence -> op_class sentinel op ->
    op_position input op (pos m) -> errno_clear m ->
    throws_within input
      (expression_loop verbose input mode (S fuel) sentinel min_precedence
         value op m).
Proof.
  intros IHe IHl sentinel min_precedence value op m Hmin Hcl Hps Hec.
  destruct (parser_bounds verbose input mode fuel) as (_ & Be & _).
  rewrite expression_loop_S.
  destruct (Z.leb_spec (precedence (operator_table op)) min_precedence)
    as [Hle|Hgt]; [exact I|].
  assert (Hm : (pos m <= L)%nat).
  { unfold op_position in Hps.
    rewrite precedence_positive_not_end in Hps by lia. exact Hps. }
  unfold bind at 1.
  specialize (IHe sentinel (precedence (operator_table op)) m
                ltac:(lia) Hm).
  specialize (Be sentinel (precedence (operator_table op)) m
                ltac:(lia) Hm).
  destruct (compute_expression verbose input mode fuel sentinel
              (precedence (operator_table op)) m)
    as [[nv nop] m1|e m1| |]; try exact I; try exact IHe.
  destruct Be as (Hadv & _ & Hcl1 & Hps1 & He1).
  cbn [fst snd]. unfold bind at 1.
  pose proof (binary_evaluate_lexer verbose op value nv m1) as Hev.
  pose proof (op_position_bound input nop (pos m1) Hps1) as Hb1.
  destruct (binary.evaluate_operator verbose op value nv m1)
    as [v2 m2|e m2| |]; try exact I.
  2: { cbn. unfold pos in *. rewrite Hev. exact Hb1. }
  apply IHl; try assumption.
  - unfold pos in *. rewrite Hev. exact Hps1.
  - unfold errno_clear in *. now rewrite Hev.
Qed.

Lemma parser_fault_position fuel :
  (forall m, (pos m <= L)%nat ->
     throws_within input (compute_value verbose input mode fuel m))
  /\ (forall sentinel min_precedence m,
        0 <= min_precedence -> (pos m <= L)%nat ->
        throws_within input
          (compute_expression verbose input mode fuel sentinel
             min_precedence m))
  /\ (forall sentinel min_precedence value op m,
        0 <= min_precedence -> op_class sentinel op ->
        op_position input op (pos m) -> errno_clear m ->
        throws_within input
          (expression_loop verbose input mode fuel sentinel min_precedence
             value op m)).
Proof.
  induction fuel as [|fuel (IHv & IHe & IHl)].
  - repeat split; intros; exact I.
  - split; [|split].
    + now apply fault_position_value.
    + now apply fault_position_expression.
    + now apply fault_position_loop.
Qed.

End FaultPosition.

(** X8. The caret that [handle_input] prints for a faulty line is under a
    character of the line, under its terminating NUL, or at most one
    column further (where a fault of the evaluator is found after the
    whole line was read): its column is never more than the length of the
    line plus one, whatever the cursor was before the call. *)
Theorem caret_is_at_the_line :
  forall verbose input mode m m',
    handle_input verbose input mode m = Return false m' ->
    exists column message,
      stderr m' = stderr m ++ [Caret column message]
      /\ (column <= S (strlen input))%nat
      /\ column = cursor (lexer m').
Proof.
  intros verbose input mode m m'. unfold handle_input.
  set (m0 := set_lexer m (set_cursor (lexer m) 0)).
  assert (Hs : silent (has_encoding mode) m0 (evaluate verbose input mode m)).
  { unfold evaluate. fold m0.
    apply (silent_bind (fun r => has_encoding mode (fst r))).
    - apply (parser_silent verbose input mode (enough_fuel input)).
    - intros r m1 Hr. cbn. auto. }
  assert (Hp : throws_within input (evaluate verbose input mode m)).
  { unfold evaluate. fold m0. unfold bind.
    destruct (parser_fault_position verbose input mode (enough_fuel input))
      as (_ & He & _).
    specialize (He END_EXPRESSION 0 m0 (Z.le_refl 0)
                  ltac:(unfold pos; cbn; lia)).
    destruct (compute_expression verbose input mode (enough_fuel input)
                END_EXPRESSION 0 m0) as [[v op] m1|e m1| |];
      try exact I; exact He. }
  destruct (evaluate verbose input mode m) as [v m1|e m1| |];
    try discriminate.
  intros [= <-]. cbn in Hs, Hp.
  exists (cursor (lexer m1)), (what e).
  cbn [print_stderr stderr lexer]. rewrite Hs.
  repeat split. exact Hp.
Qed.

Lemma caret_is_at_the_line_witness :
  exists column message,
    stderr (mk_machine (mk_lexer 8 false) [] [Caret 8 "Parse error"])
    = stderr start ++ [Caret column message]
    /\ (column <= S (strlen (cstr "1.5 & 2")))%nat
    /\ column
       = cursor (lexer (mk_machine (mk_lexer 8 false) []
                          [Caret 8 "Parse error"])).
Proof.
  apply (caret_is_at_the_line false (cstr "1.5 & 2") F32 start).
  vm_compute. reflexivity.
Defined.

(** ** A line is evaluated independently of what was printed before *)

Section Independence.

Variables out err : list output.









End Independence.



(** ** The name of the encoding *)

Lemma strcmp_eq_c_string s1 :
  forall s2, strcmp_eq (c_string s1) s2 = strcmp_eq s1 s2.
Proof.
  unfold c_string, strlen.
  induction s1 as [|c t IH]; intros s2; [reflexivity|].
  cbn [span_len]. destruct (Ascii.eqb_spec c NUL) as [->|Hc]; cbn [negb].
  - cbn [firstn strcmp_eq].
    destruct (Ascii.eqb NUL (peek s2)); reflexivity.
  - cbn [firstn strcmp_eq]. rewrite IH. reflexivity.
Qed.

Lemma strcmp_eq_true s1 :
  forall s2, strcmp_eq s1 s2 = true -> c_string s1 = c_string s2.
Proof.
  unfold c_string, strlen.
  induction s1 as [|c t IH]; intros s2 H; cbn [strcmp_eq] in H.
  - destruct s2 as [|c2 t2]; [reflexivity|]. cbn [peek hd] in H.
    apply Ascii.eqb_eq in H. subst c2. reflexivity.
  - destruct (Ascii.eqb_spec c (peek s2)) as [E|]; [|discriminate].
    cbn [span_len].
    destruct (Ascii.eqb_spec c NUL) as [->|Hc]; cbn [negb firstn].
    + destruct s2 as [|c2 t2]; [reflexivity|]. cbn [peek hd] in E.
      subst c2. reflexivity.
    + destruct s2 as [|c2 t2]; cbn [peek hd] in E; [congruence|].
      subst c2. cbn [tl] in H. cbn [span_len].
      destruct (Ascii.eqb_spec c NUL) as [|_]; [contradiction|].
      cbn [negb firstn]. f_equal. now apply IH.
Qed.

Lemma parse_mode_from_c_string modes mode_name :
  parse_mode_from modes (c_string mode_name)
  = parse_mode_from modes mode_name.
Proof.
  induction modes as [|m modes IH]; [reflexivity|].
  cbn [parse_mode_from]. now rewrite strcmp_eq_c_string, IH.
Qed.

Lemma parse_mode_from_sound modes mode_name mode :
  parse_mode_from modes mode_name = Some mode ->
  c_string mode_name = encoding_names mode.
Proof.
  induction modes as [|m modes IH]; [discriminate|].
  cbn [parse_mode_from].
  destruct (strcmp_eq mode_name (encoding_names m)) eqn:E; [|exact IH].
  intros [= <-]. apply strcmp_eq_true in E. rewrite E.
  destruct m; reflexivity.
Qed.

(** X10. [parse_mode] accepts the ten names of [encoding_names] and
    nothing else: it returns an encoding exactly when the characters of
    its argument, up to the terminating NUL, are that encoding's name (in
    lower case, with nothing before or behind), and [INVALID_ENCODING]
    for every other argument.  So each name selects its own encoding. *)
Theorem parse_mode_accepts_the_names :
  forall mode_name mode,
    parse_mode mode_name = Some mode
    <-> c_string mode_name = encoding_names mode.
Proof.
  intros mode_name mode. unfold parse_mode. split.
  - apply parse_mode_from_sound.
  - intros H. rewrite <- parse_mode_from_c_string, H.
    destruct mode; reflexivity.
Qed.

(** ** The session *)



(** ** The command line *)

Lemma flag_is_no_mode name :
  strcmp_eq name (cstr "-v") = true -> parse_mode name = None.
Proof.
  intros H. apply strcmp_eq_true in H.
  unfold parse_mode. rewrite <- parse_mode_from_c_string, H. reflexivity.
Qed.

(** X12. The exit status of [main].  A session is started, and the status
    is 0 when it ends, exactly for the command lines [prog mode] and
    [prog -v mode] with one of the ten mode names; [-v] is accepted only
    before the mode.  For every other command line the status is 1, the
    usage text is printed on [stderr], and no line is read: nothing goes
    to [stdout] or to the history.  When the first argument is [-v], the
    usage text names [-v] as the program, since [argv] was advanced before
    [usage] is called. *)
Theorem main_exit_status :
  forall argv lines p code p',
    main argv lines p = Return code p' ->
    (code = 0
     /\ exists verbose mode,
         command_line argv = Some (verbose, mode)
         /\ read_lines verbose mode lines p = Return tt p')
    \/ (code = 1
        /\ command_line argv = None
        /\ history p' = history p
        /\ stdout (console p') = stdout (console p)
        /\ exists me,
            console p' = usage me (console p)
            /\ forall prog flag rest,
                argv = prog :: flag :: rest ->
                me = if strcmp_eq flag (cstr "-v") then flag else prog).
Proof.
  intros argv lines p code p' H.
  assert (Husage : forall me,
             (forall prog flag rest,
                 argv = prog :: flag :: rest ->
                 me = if strcmp_eq flag (cstr "-v") then flag else prog) ->
             command_line argv = None ->
             Return 1 (mk_process (usage me (console p)) (history p))
             = Return code p' ->
             code = 1
             /\ command_line argv = None
             /\ history p' = history p
             /\ stdout (console p') = stdout (console p)
             /\ exists me,
                 console p' = usage me (console p)
                 /\ forall prog flag rest,
                     argv = prog :: flag :: rest ->
                     me = if strcmp_eq flag (cstr "-v") then flag else prog).
  { intros me Hme Hc [= <- <-]. repeat split; auto.
    exists me. split; [reflexivity | exact Hme]. }
  assert (Hrun : forall verbose mode,
             command_line argv = Some (verbose, mode) ->
             (read_lines verbose mode lines ;;; ret 0) p = Return code p' ->
             code = 0
             /\ exists verbose mode,
                 command_line argv = Some (verbose, mode)
                 /\ read_lines verbose mode lines p = Return tt p').
  { intros verbose mode Hc Hr. unfold bind, ret in Hr.
    destruct (read_lines verbose mode lines p) as [[] p1| | |] eqn:E;
      try discriminate.
    injection Hr as <- <-. split; [reflexivity|].
    exists verbose, mode. auto. }
  unfold main in H.
  destruct argv as [|prog [|a1 [|a2 [|a3 rest]]]]; try discriminate;
    cbn [nth_error] in H.
  - right. apply (Husage prog); [discriminate | reflexivity | exact H].
  - cbv zeta in H. destruct (strcmp_eq a1 (cstr "-v")) eqn:Ef.
    + right. apply (Husage a1); [|cbn [command_line]; now rewrite flag_is_no_mode|exact H].
      intros prog' flag rest' [= <- <- <-]. now rewrite Ef.
    + cbn [List.length Nat.eqb negb nth] in H.
      destruct (parse_mode a1) as [mode|] eqn:Em.
      * left. apply (Hrun false mode); [cbn [command_line]; now rewrite Em | exact H].
      * right. apply (Husage prog); [|cbn [command_line]; now rewrite Em|exact H].
        intros prog' flag rest' [= <- <- <-]. now rewrite Ef.
  - cbv zeta in H. destruct (strcmp_eq a1 (cstr "-v")) eqn:Ef.
    + cbn [tl List.length Nat.eqb negb nth hd] in H.
      destruct (parse_mode a2) as [mode|] eqn:Em.
      * left. apply (Hrun true mode); [cbn [command_line]; now rewrite Ef, Em | exact H].
      * right. apply (Husage a1); [|cbn [command_line]; now rewrite Ef, Em|exact H].
        intros prog' flag rest' [= <- <- <-]. now rewrite Ef.
    + right. apply (Husage prog); [|cbn [command_line]; now rewrite Ef|exact H].
      intros prog' flag rest' [= <- <- <-]. now rewrite Ef.
  - cbv zeta in H. destruct (strcmp_eq a1 (cstr "-v")) eqn:Ef.
    + right. apply (Husage a1); [|reflexivity|exact H].
      intros prog' flag rest' [= <- <- <-]. now rewrite Ef.
    + right. apply (Husage prog); [|reflexivity|exact H].
      intros prog' flag rest' [= <- <- <-]. now rewrite Ef.
Qed.

Lemma main_exit_status_witness :
  (1 = 0
   /\ exists verbose mode,
       command_line [cstr "bincalc"; cstr "-v"] = Some (verbose, mode)
       /\ read_lines verbose mode [cstr "1"] (mk_process start [])
          = Return tt
              (mk_process (usage (cstr "-v") start) []))
  \/ (1 = 1
      /\ command_line [cstr "bincalc"; cstr "-v"] = None
      /\ history (mk_process (usage (cstr "-v") start) [])
         = history (mk_process start [])
      /\ stdout (console (mk_process (usage (cstr "-v") start) []))
         = stdout (console (mk_process start []))
      /\ exists me,
          console (mk_process (usage (cstr "-v") start) [])
          = usage me (console (mk_process start []))
          /\ forall prog flag rest,
              [cstr "bincalc"; cstr "-v"] = prog :: flag :: rest ->
              me = if strcmp_eq flag (cstr "-v") then flag else prog).
Proof.
  apply (main_exit_status [cstr "bincalc"; cstr "-v"] [cstr "1"]
           (mk_process start [])).
  reflexivity.
Defined.

(** ** Two's complement: operators that do not look at the sign *)

Lemma read_int_mod signed w raw :
  0 < w -> read_int signed w raw mod 2 ^ w = raw mod 2 ^ w.
Proof. intros Hw. now apply (to_bits_read_int signed w raw). Qed.

Lemma mod_pow2_land w a :
  0 <= w -> a mod 2 ^ w = Z.land a (Z.ones w).
Proof. intros Hw. now rewrite Z.land_ones. Qed.

Lemma bitwise_mod (f : Z -> Z -> Z) (g : bool -> bool -> bool) w a a' b b' :
  (forall x y n, 0 <= n -> Z.testbit (f x y) n = g (Z.testbit x n)
                                                   (Z.testbit y n)) ->
  0 < w ->
  a mod 2 ^ w = a' mod 2 ^ w -> b mod 2 ^ w = b' mod 2 ^ w ->
  f a b mod 2 ^ w = f a' b' mod 2 ^ w.
Proof.
  intros Hf Hw Ha Hb.
  apply Z.bits_inj'. intros n Hn.
  destruct (Z.ltb_spec n w) as [Hlt|Hge].
  - rewrite !Z.mod_pow2_bits_low, !Hf by lia.
    assert (Ea : Z.testbit a n = Z.testbit a' n).
    { rewrite <- (Z.mod_pow2_bits_low a w n), Ha by lia.
      apply Z.mod_pow2_bits_low. lia. }
    assert (Eb : Z.testbit b n = Z.testbit b' n).
    { rewrite <- (Z.mod_pow2_bits_low b w n), Hb by lia.
      apply Z.mod_pow2_bits_low. lia. }
    now rewrite Ea, Eb.
  - rewrite !Z.mod_pow2_bits_high by lia. reflexivity.
Qed.

(** X13. Under two's complement the integer operators [+], [-], [*],
    [&], [|], [^] and the unary [~] and [-] do not look at the sign: on
    the same bit patterns, the instance of [evaluate_operator_integer] for
    the signed type of a width and the one for the unsigned type of that
    width deliver the same bit pattern (so a session under [s32] and one
    under [u32] print the same hexadecimal column for them).  Division,
    the remainder and the right shift do look at the sign: [x80 / 2],
    [x80 % 3] and [x80 >> 1] differ between [s8] and [u8]. *)
Theorem operators_that_ignore_the_sign :
  (forall w op l r,
      0 < w ->
      In op [ADD; SUBTRACT; MULTIPLY; AND; OR; XOR] ->
      binary.evaluate_operator_integer true w op l r
      = binary.evaluate_operator_integer false w op l r)
  /\ (forall w op v,
        0 < w ->
        unary.evaluate_operator_integer true w op v
        = unary.evaluate_operator_integer false w op v)
  /\ (forall op,
        In op [DIVIDE; MODULUS; RIGHT_SHIFT] ->
        exists l r,
          binary.evaluate_operator_integer true 8 op l r
          <> binary.evaluate_operator_integer false 8 op l r).
Proof.
  split; [|split].
  - intros w op l r Hw Hop.
    pose proof (read_int_mod true w l Hw) as Hl.
    pose proof (read_int_mod true w r Hw) as Hr.
    rewrite <- (read_int_mod false w l Hw) in Hl.
    rewrite <- (read_int_mod false w r Hw) in Hr.
    unfold binary.evaluate_operator_integer, to_bits.
    set (a := read_int true w l) in *. set (a' := read_int false w l) in *.
    set (b := read_int true w r) in *. set (b' := read_int false w r) in *.
    cbn [In] in Hop.
    destruct Hop as [<-|[<-|[<-|[<-|[<-|[<-|[]]]]]]]; f_equal.
    + now rewrite Z.add_mod, Hl, Hr, <- Z.add_mod
        by (apply Z.pow_nonzero; lia).
    + now rewrite Zminus_mod, Hl, Hr, <- Zminus_mod.
    + now rewrite Z.mul_mod, Hl, Hr, <- Z.mul_mod
        by (apply Z.pow_nonzero; lia).
    + apply (bitwise_mod Z.land andb); auto.
      intros; apply Z.land_spec.
    + apply (bitwise_mod Z.lor orb); auto.
      intros; apply Z.lor_spec.
    + apply (bitwise_mod Z.lxor xorb); auto.
      intros; apply Z.lxor_spec.
  - intros w op v Hw.
    pose proof (read_int_mod true w v Hw) as Hv.
    rewrite <- (read_int_mod false w v Hw) in Hv.
    unfold unary.evaluate_operator_integer, to_bits.
    set (a := read_int true w v) in *. set (a' := read_int false w v) in *.
    destruct op; try reflexivity; f_equal.
    + unfold Z.lnot.
      replace (Z.pred (- a)) with (- 1 - a) by lia.
      replace (Z.pred (- a')) with (- 1 - a') by lia.
      now rewrite Zminus_mod, Hv, <- Zminus_mod.
    + replace (- a) with (0 - a) by lia. replace (- a') with (0 - a') by lia.
      now rewrite Zminus_mod, Hv, <- Zminus_mod.
  - intros op Hop. cbn [In] in Hop.
    destruct Hop as [<-|[<-|[<-|[]]]].
    + exists 128, 2. vm_compute. discriminate.
    + exists 128, 3. vm_compute. discriminate.
    + exists 128, 1. vm_compute. discriminate.
Qed.

Lemma operators_that_ignore_the_sign_witness :
  binary.evaluate_operator_integer true 8 MULTIPLY 200 3
  = binary.evaluate_operator_integer false 8 MULTIPLY 200 3
  /\ unary.evaluate_operator_integer true 8 NEGATE 200
     = unary.evaluate_operator_integer false 8 NEGATE 200.
Proof.
  destruct operators_that_ignore_the_sign as (Hb & Hu & _).
  split.
  - apply (Hb 8 MULTIPLY 200 3); [lia | cbn; auto].
  - apply (Hu 8 NEGATE 200). lia.
Defined.

(** ** Applying a unary operator twice *)

Lemma integer_unary_twice signed w op raw bits :
  0 < w ->
  unary.evaluate_operator_integer signed w op raw = Success bits ->
  exists bits',
    unary.evaluate_operator_integer signed w op bits = Success bits'
    /\ bits' mod 2 ^ w = raw mod 2 ^ w.
Proof.
  intros Hw. unfold unary.evaluate_operator_integer, to_bits.
  pose proof (read_int_mod signed w raw Hw) as Ha.
  set (a := read_int signed w raw) in *.
  destruct op; try discriminate; intros [= <-]; eexists;
    (split; [reflexivity|]);
    rewrite Z.mod_mod by (apply Z.pow_nonzero; lia);
    pose proof (read_int_mod signed w (Z.lnot a mod 2 ^ w) Hw) as Hb;
    pose proof (read_int_mod signed w (- a mod 2 ^ w) Hw) as Hc;
    rewrite Z.mod_mod in Hb, Hc by (apply Z.pow_nonzero; lia).
  - set (b := read_int signed w (Z.lnot a mod 2 ^ w)) in *.
    unfold Z.lnot in *.
    replace (Z.pred (- b)) with (- 1 - b) by lia.
    rewrite Zminus_mod, Hb, <- Zminus_mod, <- Ha. f_equal. lia.
  - set (b := read_int signed w (- a mod 2 ^ w)) in *.
    replace (- b) with (0 - b) by lia.
    rewrite Zminus_mod, Hc, <- Zminus_mod, <- Ha. f_equal. lia.
Qed.

Lemma neg_neg w raw :
  0 < w -> ieee.neg w (ieee.neg w raw) mod 2 ^ w = raw mod 2 ^ w.
Proof.
  intros Hw. unfold ieee.neg.
  apply Z.bits_inj'. intros n Hn.
  destruct (Z.ltb_spec n w) as [Hlt|Hge].
  - rewrite !Z.mod_pow2_bits_low, Z.lxor_spec, Z.mod_pow2_bits_low,
      Z.lxor_spec, Z.mod_pow2_bits_low by lia.
    destruct (Z.testbit raw n), (Z.testbit (2 ^ (w - 1)) n); reflexivity.
  - rewrite !Z.mod_pow2_bits_high by lia. reflexivity.
Qed.

Lemma real_unary_twice w op raw bits :
  0 < w ->
  unary.evaluate_operator_real w op raw = Success bits ->
  exists bits',
    unary.evaluate_operator_real w op bits = Success bits'
    /\ bits' mod 2 ^ w = raw mod 2 ^ w.
Proof.
  intros Hw. unfold unary.evaluate_operator_real.
  destruct op; try discriminate; intros [= <-].
  eexists. split; [reflexivity|]. now apply neg_neg.
Qed.

(** X14. The unary operators are involutions on the bits.  Whenever
    [evaluate_operator] accepts a unary operator for a value ([~] and [-]
    under the integer encodings, [-] under the floating-point ones), it
    accepts the same operator for the result, and then returns a value of
    the same encoding with the bits of the value it started from: [~ ~ a]
    and [- - a] are [a], also for the most negative integer and for a
    NaN. *)
Theorem unary_operator_twice :
  forall verbose op value m once m1,
    unary.evaluate_operator verbose op value m = Return once m1 ->
    exists mode twice m2,
      encoding value = Some mode
      /\ unary.evaluate_operator verbose op once m1 = Return twice m2
      /\ encoding twice = Some mode
      /\ read_unsigned (width mode) (payload twice)
         = read_unsigned (width mode) (payload value).
Proof.
  intros verbose op [enc raw] m once m1.
  unfold unary.evaluate_operator. cbn [encoding payload].
  destruct enc as [mode|]; [|cbn; discriminate].
  intros H. exists mode.
  destruct mode; cbv beta iota zeta in H;
    match type of H with
    | match ?c with _ => _ end = _ =>
        destruct c as [bits| |] eqn:E; try discriminate H
    end;
    injection H as <- <-; cbn [encoding payload width];
    (eapply integer_unary_twice in E || eapply real_unary_twice in E);
    try lia;
    destruct E as (bits' & -> & Hb);
    eexists; eexists; repeat split; exact Hb.
Qed.

Lemma unary_operator_twice_witness :
  exists mode twice m2,
    encoding (mk_value (Some S8) 128) = Some mode
    /\ unary.evaluate_operator false NEGATE (mk_value (Some S8) 128) start
       = Return twice m2
    /\ encoding twice = Some mode
    /\ read_unsigned (width mode) (payload twice)
       = read_unsigned (width mode) (payload (mk_value (Some S8) 128)).
Proof.
  apply (unary_operator_twice false NEGATE (mk_value (Some S8) 128) start
           (mk_value (Some S8) 128) start).
  reflexivity.
Defined.

(** ** The fuel of the parser is immaterial *)

Lemma settled_refl {S A} (o : outcome S A) : settled o o.
Proof. intros _. reflexivity. Qed.

Lemma settled_bind {S A B} (c c' : M S A) (k k' : A -> M S B) s :
  settled (c s) (c' s) ->
  (forall a s', settled (k a s') (k' a s')) ->
  settled (bind c k s) (bind c' k' s).
Proof.
  unfold settled, bind. intros Hc Hk H.
  destruct (c s) as [a s'|e s'| |] eqn:E; try congruence;
    rewrite Hc by discriminate; [now apply Hk | reflexivity..].
Qed.

Lemma parser_settled verbose input mode fuel :
  (forall m,
      settled (compute_value verbose input mode fuel m)
        (compute_value verbose input mode (S fuel) m))
  /\ (forall sentinel min_precedence m,
        settled
          (compute_expression verbose input mode fuel sentinel
             min_precedence m)
          (compute_expression verbose input mode (S fuel) sentinel
             min_precedence m))
  /\ (forall sentinel min_precedence value op m,
        settled
          (expression_loop verbose input mode fuel sentinel min_precedence
             value op m)
          (expression_loop verbose input mode (S fuel) sentinel
             min_precedence value op m)).
Proof.
  induction fuel as [|fuel (IHv & IHe & IHl)].
  - repeat split; intros; intros H; now contradiction H.
  - split; [|split].
    + intros m. rewrite !compute_value_S.
      apply settled_bind; [apply settled_refl|].
      intros v m1. destruct (encoding v); [apply settled_refl|].
      apply settled_bind; [apply settled_refl|].
      intros op m2.
      destruct op; cbn [operator_table arity];
        try (apply settled_bind; [apply IHv|];
             intros; apply settled_refl);
        try apply settled_refl.
      apply settled_bind; [apply IHe|]. intros; apply settled_refl.
    + intros sentinel min_precedence m. rewrite !compute_expression_S.
      apply settled_bind; [apply IHv|].
      intros v m1. apply settled_bind; [apply settled_refl|].
      intros op m2. apply IHl.
    + intros sentinel min_precedence value op m.
      rewrite !expression_loop_S.
      destruct (_ <=? _); [apply settled_refl|].
      apply settled_bind; [apply IHe|].
      intros next m1. apply settled_bind; [apply settled_refl|].
      intros v m2. apply IHl.
Qed.

(** X15. The parser terminates, and the fuel of the embedding is
    immaterial.  Started at the beginning of a line, [compute_expression]
    needs at most [enough_fuel] nested calls and loop iterations, a number
    linear in the length of the line; with that much fuel or any more it
    reaches the same end, which is not the fuel running out. *)
Theorem enough_fuel_is_enough :
  forall verbose input mode m fuel,
    pos m = 0%nat ->
    (enough_fuel input <= fuel)%nat ->
    compute_expression verbose input mode (enough_fuel input)
      END_EXPRESSION 0 m <> NoFuel
    /\ compute_expression verbose input mode fuel END_EXPRESSION 0 m
       = compute_expression verbose input mode (enough_fuel input)
           END_EXPRESSION 0 m.
Proof.
  intros verbose input mode m fuel Hm Hfuel.
  assert (Hend : compute_expression verbose input mode (enough_fuel input)
                   END_EXPRESSION 0 m <> NoFuel).
  { destruct (parser_bounds verbose input mode (enough_fuel input))
      as (_ & He & _).
    specialize (He END_EXPRESSION 0 m (Z.le_refl 0) ltac:(lia)).
    intros E. rewrite E in He.
    pose proof (strlen_le_length input).
    unfold enough_fuel in He. lia. }
  split; [exact Hend|].
  replace fuel with ((fuel - enough_fuel input) + enough_fuel input)%nat
    by lia.
  induction (fuel - enough_fuel input)%nat as [|k IH]; [reflexivity|].
  cbn [Nat.add].
  destruct (parser_settled verbose input mode (k + enough_fuel input))
    as (_ & He & _).
  rewrite (He END_EXPRESSION 0 m) by (rewrite IH; exact Hend).
  exact IH.
Qed.

Lemma enough_fuel_is_enough_witness :
  compute_expression false (cstr "(1+2)*3") U8
    (enough_fuel (cstr "(1+2)*3")) END_EXPRESSION 0 start <> NoFuel
  /\ compute_expression false (cstr "(1+2)*3") U8 100 END_EXPRESSION 0 start
     = compute_expression false (cstr "(1+2)*3") U8
         (enough_fuel (cstr "(1+2)*3")) END_EXPRESSION 0 start.
Proof.
  apply (enough_fuel_is_enough false (cstr "(1+2)*3") U8 start 100).
  - reflexivity.
  - vm_compute. lia.
Defined.

(** ** A printed result is a line that evaluates to itself *)

Lemma parse_operator_at_end input e :
  parse_operator input BINARY (Some END_EXPRESSION)
    (mk_lexer (List.length input) e)
  = Return END_EXPRESSION (mk_lexer (S (List.length input)) e).
Proof.
  unfold parse_operator, bind, skip_whitespace.
  assert (H0 : here input (mk_lexer (List.length input) e) = []).
  { unfold here, text_at. cbn [cursor]. apply skipn_all. }
  rewrite H0. cbn [span_len].
  set (st0 := advance 0 (mk_lexer (List.length input) e)).
  assert (Hhere : here input st0 = []).
  { unfold st0. rewrite here_advance, H0. reflexivity. }
  replace (mk_lexer (S (List.length input)) e)
    with (advance
            (Nat.max 1 (strlen (identifier (operator_table END_EXPRESSION))))
            st0)
    by (unfold st0, advance, set_cursor; cbn; f_equal; lia).
  clearbody st0. unfold all_operators. find_row Hhere.
Qed.

(** A line that is one literal. *)
Lemma single_value_line verbose input mode value :
  encoding value = Some mode ->
  parse_value input mode (mk_lexer 0 false)
  = Return value (mk_lexer (List.length input) false) ->
  handle_input verbose input mode start
  = Return true
      (mk_machine (mk_lexer (S (List.length input)) false)
         [ResultLine value] []).
Proof.
  intros Henc Hparse. unfold handle_input, evaluate.
  replace (enough_fuel input)
    with (S (S (2 * List.length input + 2))) by (unfold enough_fuel; lia).
  change (set_lexer start (set_cursor (lexer start) 0)) with start.
  rewrite compute_expression_S, compute_value_S.
  unfold bind, lift.
  change (lexer start) with (mk_lexer 0 false). rewrite Hparse, Henc.
  cbn [ret set_lexer lexer].
  rewrite parse_operator_at_end, expression_loop_S.
  reflexivity.
Qed.

Lemma read_int_read_unsigned signed w bits :
  0 < w -> read_int signed w (read_unsigned w bits) = read_int signed w bits.
Proof.
  intros Hw. unfold read_int, read_signed, read_unsigned.
  now rewrite Z.mod_mod by (apply Z.pow_nonzero; lia).
Qed.



(** X5. The decimal column reads back under the integer encodings.  The
    text [format_dec] prints for a value of an integer encoding, followed
    by anything that does not start with a digit, is accepted by
    [parse_value] under the same encoding: no value that can be printed is
    out of range, a minus sign is printed only under a signed encoding,
    the value returned has the bits of the value that was printed, and the
    cursor is left behind the text.  Typed in as a line of its own, the
    text evaluates, and the result line shows the same text again. *)
Theorem format_dec_reads_back :
  forall mode bits text,
    is_integer mode = true ->
    format_dec (mk_value (Some mode) bits) = Some text ->
    let value := mk_value (Some mode) (read_unsigned (width mode) bits) in
    (forall pre ws rest,
        forallb isspace ws = true ->
        isdigit (peek rest) = false ->
        parse_value (pre ++ ws ++ cstr text ++ rest) mode
          (mk_lexer (List.length pre) false)
        = Return value
            (mk_lexer (List.length pre + List.length ws + String.length text)
               false))
    /\ (forall verbose,
          handle_input verbose (cstr text) mode start
          = Return true
              (mk_machine (mk_lexer (S (String.length text)) false)
                 [ResultLine value] []))
    /\ format_dec value = Some text.
Proof.
  intros mode bits text Hint Hfmt value.
  assert (Hparse : forall pre ws rest,
             forallb isspace ws = true ->
             isdigit (peek rest) = false ->
             parse_value (pre ++ ws ++ cstr text ++ rest) mode
               (mk_lexer (List.length pre) false)
             = Return value
                 (mk_lexer
                    (List.length pre + List.length ws + String.length text)
                    false)).
  { intros pre ws rest Hws Hrest.
    now apply (parse_value_format_dec mode bits text pre ws rest). }
  split; [exact Hparse|]. split.
  - intros verbose.
    specialize (Hparse [] [] [] eq_refl eq_refl).
    cbn [app List.length Nat.add] in Hparse. rewrite app_nil_r in Hparse.
    rewrite <- cstr_length in *.
    now apply single_value_line.
  - unfold value. rewrite format_dec_integer by assumption.
    rewrite format_dec_integer in Hfmt by assumption.
    rewrite <- Hfmt. do 2 f_equal.
    apply read_int_read_unsigned. destruct mode; reflexivity.
Qed.

Lemma format_dec_reads_back_witness :
  (forall pre ws rest,
      forallb isspace ws = true ->
      isdigit (peek rest) = false ->
      parse_value (pre ++ ws ++ cstr "-128" ++ rest) S8
        (mk_lexer (List.length pre) false)
      = Return (mk_value (Some S8) 128)
          (mk_lexer (List.length pre + List.length ws + 4) false))
  /\ (forall verbose,
        handle_input verbose (cstr "-128") S8 start
        = Return true
            (mk_machine (mk_lexer 5 false)
               [ResultLine (mk_value (Some S8) 128)] []))
  /\ format_dec (mk_value (Some S8) 128) = Some "-128"%string.
Proof.
  apply (format_dec_reads_back S8 128 "-128"); reflexivity.
Defined.

(** ** Precedence climbing *)




Section Steps.

Variable input : list ascii.
Variable mode : encoding_t.

#[local] Abbreviation at_state s := (mk_machine s [] []).









End Steps.






(** ** Tracing and the static buffers of the formatter *)

Lemma sprintf_overruns text s :
  (256 <= String.length text)%nat -> buffered.sprintf text s = None.
Proof.
  intros H. unfold buffered.sprintf.
  rewrite length_app, cstr_length. cbn [List.length].
  destruct (Nat.leb_spec (buffered.index s + (String.length text + 1)) 256);
    [lia | reflexivity].
Qed.

Lemma format_dec_overruns value text f :
  format_dec value = Some text ->
  (256 <= String.length text)%nat ->
  buffered.format_dec value f = Undefined.
Proof.
  intros Ht Hl. unfold buffered.format_dec, buffered.format.
  rewrite Ht, sprintf_overruns by assumption. reflexivity.
Qed.

(** Evaluating an argument returns or has no defined behaviour. *)
Lemma evaluate_argument_ends a f :
  match buffered.evaluate_argument a f with
  | Return _ _ | Undefined => True
  | _ => False
  end.
Proof.
  destruct a as [s|v|v]; cbn [buffered.evaluate_argument]; [exact I| |];
    unfold bind, buffered.format_dec, buffered.format_hex;
    match goal with
    | |- context [buffered.format ?t ?s] =>
        destruct (buffered.format t s) as [[[p s'] err]|]
    end; exact I.
Qed.

(** Whatever the order, a decimal argument that does not fit the array is
    reached. *)
Lemma evaluate_in_order_overruns args k value text positions :
  nth_error args k = Some (buffered.Decimal value) ->
  format_dec value = Some text ->
  (256 <= String.length text)%nat ->
  In k positions ->
  forall f, buffered.evaluate_in_order args positions f = Undefined.
Proof.
  intros Hk Ht Hl.
  induction positions as [|j positions IH]; intros Hin f; [contradiction|].
  cbn [buffered.evaluate_in_order]. unfold bind at 1.
  destruct (Nat.eq_dec j k) as [->|Hjk].
  - rewrite Hk. cbn [buffered.evaluate_argument]. unfold bind at 1.
    now rewrite (format_dec_overruns value text f).
  - assert (Hin' : In k positions) by (destruct Hin; [contradiction | assumption]).
    destruct (nth_error args j) as [a|].
    + pose proof (evaluate_argument_ends a f) as He.
      destruct (buffered.evaluate_argument a f) as [p f'| | |];
        try contradiction; [|reflexivity].
      unfold bind. now rewrite IH.
    + cbn [ret]. unfold bind. now rewrite IH.
Qed.

Lemma printf_overruns order o k value text :
  nth_error (buffered.arguments o) k = Some (buffered.Decimal value) ->
  format_dec value = Some text ->
  (256 <= String.length text)%nat ->
  In k (order (List.length (buffered.arguments o))) ->
  forall f, buffered.printf order o f = Undefined.
Proof.
  intros Hk Ht Hl Hin f. unfold buffered.printf, bind.
  now rewrite (evaluate_in_order_overruns _ k value text _ Hk Ht Hl Hin).
Qed.

Lemma print_all_overruns order o log f :
  buffered.printf order o f = Undefined ->
  buffered.print_all order (o :: log) f = Undefined.
Proof.
  intros H. cbn [buffered.print_all]. unfold bind at 1. now rewrite H.
Qed.

(** C9. Tracing is not a pure side channel under [f64]: the trace line
    formats the operands of the step, and [format_dec] writes the [%f] text
    of an operand into a slot of 32 bytes of its 256-byte [string_buf] with
    no bound.  On the line [1e300 - 1e300] the run with [verbose] clear
    formats only the result and prints [0.000000 (x0000000000000000)];
    the run with [verbose] set formats the operand [1e300], 308
    characters, and writes behind the end of the array, in whatever order
    the compiler evaluates the arguments of [printf]: it has no defined
    behaviour. *)
Theorem tracing_overruns_the_static_buffer :
  forall order : buffered.evaluation_order,
    (forall n, Permutation (order n) (seq 0 n)) ->
    (exists f,
        buffered.handle_input order false (cstr "1e300 - 1e300") F64
          buffered.initial
        = Return (true, [[cstr "0.000000"; cstr "x0000000000000000"]]) f)
    /\ (forall f,
          buffered.handle_input order true (cstr "1e300 - 1e300") F64 f
          = Undefined).
Proof.
  intros order Horder. split.
  - unfold buffered.handle_input.
    destruct (handle_input false (cstr "1e300 - 1e300") F64 start)
      as [success m| | |] eqn:E; vm_compute in E; try discriminate E.
    injection E as <- <-.
    cbn [stdout buffered.print_all]. unfold buffered.printf.
    cbn [buffered.arguments List.length].
    destruct (Permutation_length_2_inv (Permutation_sym (Horder 2%nat)))
      as [-> | ->]; vm_compute; eexists; reflexivity.
  - intros f. unfold buffered.handle_input.
    destruct (handle_input true (cstr "1e300 - 1e300") F64 start)
      as [success m| | |] eqn:E; vm_compute in E; try discriminate E.
    injection E as <- <-.
    cbn [stdout]. unfold bind.
    rewrite print_all_overruns; [reflexivity|].
    eapply (printf_overruns order _ 0%nat).
    + reflexivity.
    + vm_compute. reflexivity.
    + vm_compute. lia.
    + apply (Permutation_in _ (Permutation_sym (Horder 8%nat))).
      cbn. auto.
Qed.

Lemma tracing_overruns_the_static_buffer_witness :
  (exists f,
      buffered.handle_input (fun n => seq 0 n) false (cstr "1e300 - 1e300")
        F64 buffered.initial
      = Return (true, [[cstr "0.000000"; cstr "x0000000000000000"]]) f)
  /\ (forall f,
        buffered.handle_input (fun n => seq 0 n) true (cstr "1e300 - 1e300")
          F64 f
        = Undefined).
Proof.
  apply (tracing_overruns_the_static_buffer (fun n => seq 0 n)).
  intros n. apply Permutation_refl.
Defined.

(** ** The slots suffice for the integer encodings *)

Lemma c_string_app l r :
  forallb (fun c => negb (Ascii.eqb c NUL)) l = true ->
  c_string (l ++ NUL :: r) = l.
Proof.
  unfold c_string, strlen. intros H.
  rewrite (span_len_app _ l (NUL :: r) H eq_refl).
  now rewrite firstn_app, Nat.sub_diag, firstn_all, app_nil_r.
Qed.

Lemma format_in_its_slot text s :
  aligned s ->
  (String.length text < 32)%nat ->
  forallb (fun c => negb (Ascii.eqb c NUL)) (cstr text) = true ->
  exists p s',
    buffered.format (Some text) s = Some (p, s', [])
    /\ in_its_slot text s p s'.
Proof.
  intros [Hlen Hal] Hshort Hnn.
  unfold buffered.format, buffered.sprintf.
  set (s1 := buffered.next_slot s).
  assert (Hp : (buffered.index s1 mod 32 = 0
                /\ buffered.index s1 + 32 <= 256)%nat).
  { unfold s1, buffered.next_slot. cbn [buffered.index].
    pose proof (Nat.mod_upper_bound (buffered.index s + 32) 256
                  ltac:(discriminate)) as Hub.
    pose proof (Nat.div_mod_eq (buffered.index s) 32) as Hd.
    rewrite Hal, Nat.add_0_r in Hd.
    set (q := (buffered.index s / 32)%nat) in *.
    assert (Hq : ((buffered.index s + 32) mod 256
                  = 32 * ((q + 1) mod 8))%nat).
    { rewrite Hd. replace (32 * q + 32)%nat with (32 * (q + 1))%nat by lia.
      change 256%nat with (32 * 8)%nat.
      now rewrite Nat.Div0.mul_mod_distr_l. }
    rewrite Hq.
    pose proof (Nat.mod_upper_bound (q + 1) 8 ltac:(discriminate)).
    split; [|lia].
    rewrite Nat.mul_comm. apply Nat.Div0.mod_mul. }
  destruct Hp as [Hal1 Hin].
  change (buffered.string_buf s1) with (buffered.string_buf s).
  set (p := buffered.index s1) in *.
  set (buf := buffered.string_buf s) in *.
  set (bytes := cstr text ++ [NUL]).
  assert (Hb : List.length bytes = S (String.length text)).
  { unfold bytes. rewrite length_app, cstr_length. cbn. lia. }
  rewrite Hb.
  destruct (Nat.leb_spec (p + S (String.length text)) 256) as [Hle|]; [|lia].
  eexists. eexists. split; [reflexivity|].
  unfold in_its_slot. cbn [buffered.index buffered.string_buf].
  assert (Hfl : List.length (firstn p buf) = p)
    by (rewrite length_firstn; lia).
  split; [reflexivity|]. split; [exact Hin|]. split; [reflexivity|].
  split; [split|split].
  - cbn [buffered.string_buf].
    rewrite !length_app, Hfl, Hb, length_skipn. lia.
  - exact Hal1.
  - rewrite <- Hfl at 1. rewrite skipn_length_app.
    unfold bytes. rewrite <- app_assoc. cbn [app].
    now apply c_string_app.
  - intros j Hj. destruct Hj as [Hj|Hj].
    + rewrite app_nth1 by lia. rewrite nth_firstn.
      apply Nat.ltb_lt in Hj. now rewrite Hj.
    + rewrite app_nth2 by lia. rewrite app_nth2 by lia.
      rewrite Hfl, Hb, nth_skipn. fold buf. f_equal. lia.
Qed.

Lemma leading_digit_bound u :
  Decimal.nzhead u = u -> u <> Decimal.Nil ->
  10 ^ Z.of_nat (List.length (cstr (NilEmpty.string_of_uint u)) - 1)
  <= decimal_value (cstr (NilEmpty.string_of_uint u)).
Proof.
  intros Hn Hnil.
  destruct u as [|u|u|u|u|u|u|u|u|u|u]; [congruence|..];
    [exfalso; exact (DecimalFacts.nzhead_nonzero _ _ Hn) | ..];
    cbn [NilEmpty.string_of_uint cstr list_ascii_of_string List.length
         decimal_value Nat.sub];
    fold (cstr (NilEmpty.string_of_uint u));
    rewrite Nat.sub_0_r;
    pose proof (decimal_value_nonneg _ (digits_of_uint_isdigit u));
    assert (0 <= 10 ^ Z.of_nat (List.length (cstr (NilEmpty.string_of_uint u))))
      by (apply Z.pow_nonneg; lia);
    match goal with
    | |- context [code ?c] =>
        let v := eval vm_compute in (code c) in change (code c) with v
    end;
    nia.
Qed.

Lemma digits_length_bound p n :
  Z.pos p < 10 ^ Z.of_nat n ->
  (String.length (NilZero.string_of_uint (Pos.to_uint p)) <= n)%nat.
Proof.
  intros Hp.
  assert (E : NilZero.string_of_uint (Pos.to_uint p)
              = NilEmpty.string_of_uint (Pos.to_uint p)).
  { pose proof (DecimalPos.Unsigned.to_uint_nonnil p) as Hn.
    destruct (Pos.to_uint p); [congruence | reflexivity ..]. }
  rewrite E, <- cstr_length.
  assert (Hnorm : Decimal.nzhead (Pos.to_uint p) = Pos.to_uint p).
  { assert (Hu : Decimal.unorm (Pos.to_uint p) = Pos.to_uint p).
    { rewrite <- DecimalPos.Unsigned.to_of, DecimalPos.Unsigned.of_to.
      reflexivity. }
    assert (Hcase : Decimal.nzhead (Pos.to_uint p) = Decimal.Nil
                    \/ Decimal.nzhead (Pos.to_uint p) <> Decimal.Nil)
      by (destruct (Decimal.nzhead (Pos.to_uint p));
          [left; reflexivity | right; discriminate ..]).
    destruct Hcase as [H0|Hne].
    - exfalso. apply (DecimalPos.Unsigned.to_uint_nonzero p).
      rewrite <- Hu. now apply DecimalFacts.unorm_0.
    - now rewrite <- (DecimalFacts.unorm_nzhead _ Hne). }
  pose proof (leading_digit_bound (Pos.to_uint p) Hnorm
                (DecimalPos.Unsigned.to_uint_nonnil p)) as Hlead.
  rewrite <- of_uint_value, DecimalPos.Unsigned.of_to in Hlead.
  cbn [Z.of_N] in Hlead.
  set (len := List.length (cstr (NilEmpty.string_of_uint (Pos.to_uint p))))
    in *.
  destruct (Nat.le_gt_cases len n) as [|Hgt]; [assumption|exfalso].
  assert (10 ^ Z.of_nat n <= 10 ^ Z.of_nat (len - 1))
    by (apply Z.pow_le_mono_r; lia).
  lia.
Qed.

(** The decimal text of a number that a 64-bit type holds. *)
Lemma decimal_length_bound z :
  - 2 ^ 63 <= z < 2 ^ 64 -> (String.length (decimal z) <= 20)%nat.
Proof.
  intros Hz. unfold decimal. destruct z as [|p|p]; cbn [Z.to_int].
  - cbn. lia.
  - cbn [NilZero.string_of_int]. apply digits_length_bound. cbn. lia.
  - cbn [NilZero.string_of_int String.length].
    assert (String.length (NilZero.string_of_uint (Pos.to_uint p)) <= 19)%nat;
      [|lia].
    apply digits_length_bound. cbn. lia.
Qed.

Lemma isdigit_not_nul l :
  forallb isdigit l = true ->
  forallb (fun c => negb (Ascii.eqb c NUL)) l = true.
Proof.
  intros H. rewrite forallb_forall in *. intros c Hc.
  specialize (H c Hc). destruct (Ascii.eqb_spec c NUL) as [->|]; auto.
Qed.

Lemma decimal_no_nul z :
  forallb (fun c => negb (Ascii.eqb c NUL)) (cstr (decimal z)) = true.
Proof.
  destruct (decimal_shape z) as (digits & Ht & _ & Hd & _).
  cbv zeta in Ht. rewrite Ht, forallb_app, (isdigit_not_nul digits Hd).
  destruct (z <? 0); reflexivity.
Qed.

Lemma hex_no_nul n z :
  forallb (fun c => negb (Ascii.eqb c NUL)) (cstr (hex_digits n z)) = true.
Proof.
  pose proof (hex_digits_xdigit n z) as H.
  rewrite forallb_forall in *. intros c Hc. specialize (H c Hc).
  destruct (Ascii.eqb_spec c NUL) as [->|]; [discriminate H | reflexivity].
Qed.

(** X19. The slots of the formatter suffice for what they were sized for.
    The text [format_hex] writes has at most 17 characters under every
    encoding, and the text [format_dec] writes has at most 20 under the
    eight integer encodings.  So, [string_buf] being 256 bytes and [index]
    a multiple of 32, such a call returns, the string under the pointer it
    returns is exactly that text, the 32-byte slot it was given lies within
    the array, and no byte outside that slot is changed: the strings of the
    other slots stay as they are, and the statics of the other function
    too. *)
Theorem integer_texts_fit_their_slot :
  (forall mode bits f,
      aligned (buffered.hex f) ->
      exists text p f',
        format_hex (mk_value (Some mode) bits) = Some text
        /\ (String.length text <= 17)%nat
        /\ buffered.format_hex (mk_value (Some mode) bits) f = Return p f'
        /\ in_its_slot text (buffered.hex f) p (buffered.hex f')
        /\ buffered.dec f' = buffered.dec f
        /\ buffered.complaints f' = buffered.complaints f)
  /\ (forall mode bits f,
        is_integer mode = true ->
        aligned (buffered.dec f) ->
        exists text p f',
          format_dec (mk_value (Some mode) bits) = Some text
          /\ (String.length text <= 20)%nat
          /\ buffered.format_dec (mk_value (Some mode) bits) f = Return p f'
          /\ in_its_slot text (buffered.dec f) p (buffered.dec f')
          /\ buffered.hex f' = buffered.hex f
          /\ buffered.complaints f' = buffered.complaints f).
Proof.
  split.
  - intros mode bits f Hal.
    set (z := read_unsigned (width mode) bits).
    set (text := String "x" (hex_digits (hex_width mode) z)).
    assert (Hlen : (String.length text <= 17)%nat).
    { unfold text. cbn [String.length].
      rewrite <- cstr_length, hex_digits_length. destruct mode; cbn; lia. }
    assert (Hnn : forallb (fun c => negb (Ascii.eqb c NUL)) (cstr text)
                  = true).
    { unfold text. change (cstr (String "x" ?s)) with ("x"%char :: cstr s).
      cbn [forallb]. now rewrite hex_no_nul. }
    assert (Hshort : (String.length text < 32)%nat) by lia.
    destruct (format_in_its_slot text (buffered.hex f) Hal Hshort Hnn)
      as (p & s' & Hf & Hslot).
    exists text, p, (buffered.mk_formatter (buffered.dec f) s'
                       (buffered.complaints f ++ [])).
    split; [apply format_hex_digits|]. split; [exact Hlen|].
    unfold buffered.format_hex. rewrite format_hex_digits. fold z text.
    rewrite Hf. cbn [buffered.hex buffered.dec buffered.complaints].
    repeat split; try assumption; try apply Hslot. apply app_nil_r.
  - intros mode bits f Hint Hal.
    set (z := read_int (is_signed mode) (width mode) bits).
    assert (Hz : - 2 ^ 63 <= z < 2 ^ 64).
    { pose proof (read_int_range mode bits Hint) as Hr. fold z in Hr.
      unfold encoding_min, encoding_max in Hr.
      clearbody z.
      destruct mode; try discriminate Hint;
        cbn [is_signed width Z.sub Z.add Z.opp Z.pow Z.pow_pos Pos.iter
             Z.mul Pos.mul Pos.add Pos.succ Pos.pred_double Z.pos_sub
             Pos.sub] in Hr |- *; lia. }
    pose proof (decimal_length_bound z Hz) as Hlen.
    assert (Hshort : (String.length (decimal z) < 32)%nat) by lia.
    destruct (format_in_its_slot (decimal z) (buffered.dec f) Hal
                Hshort (decimal_no_nul z)) as (p & s' & Hf & Hslot).
    exists (decimal z), p,
      (buffered.mk_formatter s' (buffered.hex f)
         (buffered.complaints f ++ [])).
    split; [now apply format_dec_integer|]. split; [exact Hlen|].
    unfold buffered.format_dec. rewrite format_dec_integer by assumption.
    fold z. rewrite Hf.
    cbn [buffered.hex buffered.dec buffered.complaints].
    repeat split; try assumption; try apply Hslot. apply app_nil_r.
Qed.

Lemma integer_texts_fit_their_slot_witness :
  exists text p f',
    format_dec (mk_value (Some S64) (2 ^ 63)) = Some text
    /\ (String.length text <= 20)%nat
    /\ buffered.format_dec (mk_value (Some S64) (2 ^ 63)) buffered.initial
       = Return p f'
    /\ in_its_slot text (buffered.dec buffered.initial) p (buffered.dec f')
    /\ buffered.hex f' = buffered.hex buffered.initial
    /\ buffered.complaints f' = buffered.complaints buffered.initial.
Proof.
  destruct integer_texts_fit_their_slot as [_ H].
  apply (H S64 (2 ^ 63) buffered.initial); [reflexivity|].
  split; reflexivity.
Defined.
